(** * Deal or No Deal: offer engine, decision advisor and round sequencer

    A shallow embedding of [src/main.cpp] and the properties of its
    specification.

    Modelling conventions.
    - A C++ [double] is modelled as a real number ([R]): the arithmetic of
      the program is read as exact arithmetic, [std::sqrt] as [sqrt].
    - A C++ [int] is modelled as an integer ([Z]); the one narrowing cast of
      the program, [(int)availableCases.size()], and the increments of the
      two counters of the statistics are written out with their
      wrap-around.
    - A [std::vector] is a [list]; [v[i]] is [nth i v d].
    - The two [std::mt19937] generators are modelled as a supply of draws
      ([Rng]); [std::shuffle] may produce every permutation of its input and
      produces nothing else.
    - A member function that mutates the game, throws or waits for input is
      a computation in the monad [M].
    - What is typed is a list of numbers, of answers or of lines; what is
      printed is left out, but for the amounts that
      [displayRemainingPrizes] lists.
    - The statistics file is absent or holds the four numbers that
      [saveStats] writes. *)

From Stdlib Require Import Ascii String.
From Stdlib Require Import Reals Lra Lia ZArith List Bool Permutation Sorted.
Import ListNotations.

Open Scope R_scope.

(** ** Numbers *)

Abbreviation double := R (only parsing).

(** Comparison of two doubles, as the conditions of the program use them. *)
Definition Rgtb (x y : R) : bool := if Rlt_dec y x then true else false.
Definition Rgeb (x y : R) : bool := if Rle_dec y x then true else false.
Definition Rltb (x y : R) : bool := if Rlt_dec x y then true else false.
Definition Rleb (x y : R) : bool := if Rle_dec x y then true else false.

(** [(int) n] for an unsigned size [n]: two's complement on 32 bits. *)
Definition to_int (n : Z) : Z := ((n + 2 ^ 31) mod 2 ^ 32 - 2 ^ 31)%Z.

(** [(double) v.size()] *)
Definition size (A : Type) (v : list A) : double := INR (length v).
Arguments size {A} v.

(** ** The random source *)

(** A generator is the supply of the numbers it will produce; an exhausted
    supply produces zeros. *)
Definition Rng : Type := list nat.

Definition next (g : Rng) : nat * Rng :=
  match g with
  | [] => (O, [])
  | d :: g' => (d, g')
  end.

Fixpoint remove_at {A : Type} (k : nat) (l : list A) : list A :=
  match l, k with
  | [], _ => []
  | _ :: t, O => t
  | h :: t, S k' => h :: remove_at k' t
  end.

(** [std::shuffle(first, last, g)]: the standard fixes only that the result
    is a permutation.  Here each position is filled with an element drawn
    from those still left, so that a suitable supply yields any
    permutation. *)
Fixpoint shuffle_n {A : Type} (n : nat) (g : Rng) (l : list A) : list A * Rng :=
  match n with
  | O => ([], g)
  | S n' =>
      match l with
      | [] => ([], g)
      | x0 :: _ =>
          let (d, g1) := next g in
          let k := (d mod length l)%nat in
          let (rest, g2) := shuffle_n n' g1 (remove_at k l) in
          (nth k l x0 :: rest, g2)
      end
  end.

Definition shuffle {A : Type} (g : Rng) (l : list A) : list A * Rng :=
  shuffle_n (length l) g l.

(** [std::uniform_int_distribution<int>(lo, hi)(g)] *)
Definition uniform_int (lo hi : Z) (g : Rng) : Z * Rng :=
  let (d, g') := next g in
  ((lo + Z.of_nat d mod (hi - lo + 1))%Z, g').

(** ** Sorting *)

Fixpoint insert_sorted (x : double) (l : list double) : list double :=
  match l with
  | [] => [x]
  | y :: t => if Rleb x y then x :: y :: t else y :: insert_sorted x t
  end.

(** [std::sort(first, last)]: the range in ascending order. *)
Definition std_sort (l : list double) : list double :=
  fold_right insert_sorted [] l.

(** [std::sort(v.rbegin(), v.rend())]: the reversed view of [v] is put in
    ascending order, which leaves [v] in descending order. *)
Definition sort_reversed (v : list double) : list double :=
  rev (std_sort (rev v)).

(** ** Game statistics

    The two counters are [int]s.  The increment of a counter that has
    reached [INT_MAX] overflows, which C++ leaves undefined; the compiled
    program wraps around, and the increments are written so. *)

Record GameStats : Type := mkStats {
  gamesPlayed : Z;
  gamesWon : Z;
  totalWinnings : double;
  bestWinning : double;
  averageWinning : double
}.

Definition GameStats_init : GameStats := mkStats 0 0 0 0 0.

Definition updateStats (winnings : double) (s : GameStats) : GameStats :=
  let gamesPlayed' := to_int (gamesPlayed s + 1) in
  let totalWinnings' := totalWinnings s + winnings in
  let bestWinning' :=
    if Rgtb winnings (bestWinning s) then winnings else bestWinning s in
  let averageWinning' := totalWinnings' / IZR gamesPlayed' in
  let gamesWon' :=
    if Rgtb winnings 0 then to_int (gamesWon s + 1) else gamesWon s in
  mkStats gamesPlayed' gamesWon' totalWinnings' bestWinning' averageWinning'.

(** The win rate that [displayStats] prints, in percent. *)
Definition winRate (s : GameStats) : double :=
  if (gamesPlayed s >? 0)%Z
  then IZR (gamesWon s) / IZR (gamesPlayed s) * 100
  else 0.

(** ** The computer player *)

Module ComputerPlayer.

Record t : Type := mk { rng : Rng }.

Definition calculateExpectedValue (remainingPrizes : list double) : double :=
  match remainingPrizes with
  | [] => 0
  | _ =>
      let sum := fold_left (fun sum prize => sum + prize) remainingPrizes 0 in
      sum / size remainingPrizes
  end.

Definition calculateStandardDeviation (remainingPrizes : list double) : double :=
  if (length remainingPrizes <=? 1)%nat then 0
  else
    let mean := calculateExpectedValue remainingPrizes in
    let variance :=
      fold_left (fun variance prize => variance + (prize - mean) * (prize - mean))
                remainingPrizes 0 in
    let variance := variance / size remainingPrizes in
    sqrt variance.

Definition calculateRiskFactor (remainingPrizes : list double)
    (bankOffer : double) : double :=
  let expectedValue := calculateExpectedValue remainingPrizes in
  let stdDev := calculateStandardDeviation remainingPrizes in
  let riskAdjustment := stdDev / (expectedValue + 1) in
  let betterCount :=
    fold_left (fun betterCount prize =>
                 if Rgtb prize bankOffer then (betterCount + 1)%Z else betterCount)
              remainingPrizes 0%Z in
  let probBetter := IZR betterCount / size remainingPrizes in
  probBetter - riskAdjustment * 0.3.

Definition shouldAcceptDeal (remainingPrizes : list double)
    (bankOffer : double) (casesRemaining : Z) : bool :=
  match remainingPrizes with
  | [] => true
  | _ =>
      let expectedValue := calculateExpectedValue remainingPrizes in
      if (casesRemaining >? 10)%Z then Rgeb bankOffer (expectedValue * 0.9)
      else if (casesRemaining >? 5)%Z then Rgeb bankOffer (expectedValue * 0.85)
      else
        let riskFactor := calculateRiskFactor remainingPrizes bankOffer in
        Rltb riskFactor 0.4 || Rgeb bankOffer (expectedValue * 0.8)
  end.

(** The indices [i] with [!casesOpened[i]], in increasing order. *)
Definition availableCases (casesOpened : list bool) : list Z :=
  fold_left (fun available i =>
               if nth i casesOpened false then available
               else available ++ [Z.of_nat i])
            (seq 0 (length casesOpened)) [].

Definition selectCasesToOpen (casesOpened : list bool) (numToOpen : Z)
    (ai : t) : list Z * t :=
  let (shuffled, rng') := shuffle (rng ai) (availableCases casesOpened) in
  let bound := Z.min numToOpen (to_int (Z.of_nat (length shuffled))) in
  let selectedCases :=
    fold_left (fun selected i => selected ++ [nth i shuffled 0%Z])
              (seq 0 (Z.to_nat bound)) [] in
  (selectedCases, mk rng').

End ComputerPlayer.

(** ** The game object *)

Inductive StateError : Type :=
| InvalidPrizeCount
| InvalidCaseNumber (shown : Z)
| CaseAlreadyOpened (shown : Z).

Inductive GameException : Type :=
| GameStateException (why : StateError).

Record Game : Type := mkGame {
  allPrizes : list double;
  caseValues : list double;
  casesOpened : list bool;
  remainingPrizes : list double;
  rng : Rng;
  playerCase : Z;
  round : Z;
  finalWinning : double;
  stats : GameStats;
  aiPlayer : ComputerPlayer.t
}.

Definition set_allPrizes (v : list double) (g : Game) : Game :=
  mkGame v (caseValues g) (casesOpened g) (remainingPrizes g) (rng g)
         (playerCase g) (round g) (finalWinning g) (stats g) (aiPlayer g).
Definition set_caseValues (v : list double) (g : Game) : Game :=
  mkGame (allPrizes g) v (casesOpened g) (remainingPrizes g) (rng g)
         (playerCase g) (round g) (finalWinning g) (stats g) (aiPlayer g).
Definition set_casesOpened (v : list bool) (g : Game) : Game :=
  mkGame (allPrizes g) (caseValues g) v (remainingPrizes g) (rng g)
         (playerCase g) (round g) (finalWinning g) (stats g) (aiPlayer g).
Definition set_remainingPrizes (v : list double) (g : Game) : Game :=
  mkGame (allPrizes g) (caseValues g) (casesOpened g) v (rng g)
         (playerCase g) (round g) (finalWinning g) (stats g) (aiPlayer g).
Definition set_rng (v : Rng) (g : Game) : Game :=
  mkGame (allPrizes g) (caseValues g) (casesOpened g) (remainingPrizes g) v
         (playerCase g) (round g) (finalWinning g) (stats g) (aiPlayer g).
Definition set_playerCase (v : Z) (g : Game) : Game :=
  mkGame (allPrizes g) (caseValues g) (casesOpened g) (remainingPrizes g) (rng g)
         v (round g) (finalWinning g) (stats g) (aiPlayer g).
Definition set_round (v : Z) (g : Game) : Game :=
  mkGame (allPrizes g) (caseValues g) (casesOpened g) (remainingPrizes g) (rng g)
         (playerCase g) v (finalWinning g) (stats g) (aiPlayer g).
Definition set_finalWinning (v : double) (g : Game) : Game :=
  mkGame (allPrizes g) (caseValues g) (casesOpened g) (remainingPrizes g) (rng g)
         (playerCase g) (round g) v (stats g) (aiPlayer g).
Definition set_stats (v : GameStats) (g : Game) : Game :=
  mkGame (allPrizes g) (caseValues g) (casesOpened g) (remainingPrizes g) (rng g)
         (playerCase g) (round g) (finalWinning g) v (aiPlayer g).
Definition set_aiPlayer (v : ComputerPlayer.t) (g : Game) : Game :=
  mkGame (allPrizes g) (caseValues g) (casesOpened g) (remainingPrizes g) (rng g)
         (playerCase g) (round g) (finalWinning g) (stats g) v.

(** [v[i] = x]; out of range the vector is left as it is. *)
Fixpoint assign {A : Type} (i : nat) (x : A) (v : list A) : list A :=
  match v, i with
  | [], _ => []
  | _ :: t, O => x :: t
  | h :: t, S i' => h :: assign i' x t
  end.

(** ** Computations on the game

    A computation starts in a game state and ends in one; it returns a
    value, leaves by an exception, or waits for input that never comes.  The
    states it passes through are recorded, one per assignment to the game. *)

Inductive Result (A : Type) : Type :=
| Value (a : A)
| Thrown (e : GameException)
| Waiting.
Arguments Value {A} a.
Arguments Thrown {A} e.
Arguments Waiting {A}.

Record Run (A : Type) : Type := mkRun {
  result : Result A;
  final : Game;
  visited : list Game
}.
Arguments mkRun {A} result final visited.
Arguments result {A} r.
Arguments final {A} r.
Arguments visited {A} r.

Definition M (A : Type) : Type := Game -> Run A.

Definition ret {A : Type} (a : A) : M A :=
  fun g => mkRun (Value a) g [].

Definition bind {A B : Type} (m : M A) (k : A -> M B) : M B :=
  fun g =>
    let r := m g in
    match result r with
    | Value a =>
        let r' := k a (final r) in
        mkRun (result r') (final r') (visited r ++ visited r')
    | Thrown e => mkRun (Thrown e) (final r) (visited r)
    | Waiting => mkRun Waiting (final r) (visited r)
    end.

Definition throw {A : Type} (e : GameException) : M A :=
  fun g => mkRun (Thrown e) g [].

Definition wait {A : Type} : M A :=
  fun g => mkRun Waiting g [].

Definition get : M Game :=
  fun g => mkRun (Value g) g [].

Definition modify (f : Game -> Game) : M unit :=
  fun g => mkRun (Value tt) (f g) [f g].

(** [try { m } catch (const GameException& e) { handler e }] *)
Definition try_catch {A : Type} (m : M A) (handler : GameException -> M A) : M A :=
  fun g =>
    let r := m g in
    match result r with
    | Thrown e =>
        let r' := handler e (final r) in
        mkRun (result r') (final r') (visited r ++ visited r')
    | _ => r
    end.

Declare Scope game_scope.
Delimit Scope game_scope with game.
Notation "x <- m ;; k" := (bind m (fun x => k))
  (at level 61, m at next level, right associativity) : game_scope.
Notation "m ;; k" := (bind m (fun _ => k))
  (at level 61, right associativity) : game_scope.
Open Scope game_scope.

(** ** Member functions of [DealOrNoDealGame] *)

Definition catalogue : list double :=
  [0.01; 1; 5; 10; 25; 50; 75; 100; 200; 300;
   400; 500; 750; 1000; 5000; 10000; 25000; 50000;
   75000; 100000; 200000; 300000; 400000; 500000; 750000; 1000000].

Definition initializePrizes : M unit :=
  modify (set_allPrizes catalogue) ;;
  g <- get ;;
  if negb (length (allPrizes g) =? 26)%nat
  then throw (GameStateException InvalidPrizeCount)
  else ret tt.

(** The values of the cases [i] in [0, 26) with [!casesOpened[i]], in the
    order of [i]. *)
Definition unopenedValues (caseValues : list double) (casesOpened : list bool)
  : list double :=
  fold_left (fun remaining i =>
               if nth i casesOpened false then remaining
               else remaining ++ [nth i caseValues 0])
            (seq 0 26) [].

Definition updateRemainingPrizes : M unit :=
  modify (fun g =>
    set_remainingPrizes
      (sort_reversed (unopenedValues (caseValues g) (casesOpened g))) g).

Definition shufflePrizes : M unit :=
  modify (fun g =>
    let (shuffled, rng') := shuffle (rng g) (allPrizes g) in
    set_rng rng' (set_caseValues shuffled g)) ;;
  modify (set_casesOpened (repeat false 26)) ;;
  updateRemainingPrizes.

Definition calculateBankOffer (g : Game) : double :=
  match remainingPrizes g with
  | [] => 0
  | _ =>
      let sum := fold_left (fun sum prize => sum + prize) (remainingPrizes g) 0 in
      let averageValue := sum / size (remainingPrizes g) in
      let offerPercentage := 0.1 + IZR (round g) * 0.05 in
      let offerPercentage :=
        if Rgtb offerPercentage 0.9 then 0.9 else offerPercentage in
      averageValue * offerPercentage
  end.

Fixpoint openCases_loop (casesToOpen : list Z) : M unit :=
  match casesToOpen with
  | [] => ret tt
  | caseNum :: rest =>
      g <- get ;;
      (if (caseNum <? 0)%Z || (caseNum >=? 26)%Z
       then throw (GameStateException (InvalidCaseNumber (caseNum + 1)))
       else if nth (Z.to_nat caseNum) (casesOpened g) false
       then throw (GameStateException (CaseAlreadyOpened (caseNum + 1)))
       else modify (fun g =>
              set_casesOpened (assign (Z.to_nat caseNum) true (casesOpened g)) g)) ;;
      openCases_loop rest
  end.

Definition openCases (casesToOpen : list Z) : M unit :=
  openCases_loop casesToOpen ;;
  updateRemainingPrizes.

(** The constructor: both generators are seeded from the clock, the
    statistics come from the statistics file. *)
Definition construct (seed aiSeed : Rng) (loaded : GameStats) : Run unit :=
  initializePrizes
    (mkGame [] [] [] [] seed (-1) 0 0 loaded (ComputerPlayer.mk aiSeed)).

(** ** The round sequencer *)

Definition casesToOpenPerRound : list Z := [6; 5; 4; 3; 2; 1; 1; 1; 1]%Z.

(** How the loop over the schedule is left: by [return] after a deal, or at
    its end (by [break] or with the schedule used up). *)
Inductive LoopExit : Type :=
| DealMade
| NoMoreRounds.

(** How a game ends: with a deal, with the reveal of the player's case, or
    abandoned in a [catch] clause. *)
Inductive Ending : Type :=
| Deal
| FinalReveal
| GameError (e : GameException).

(** [stats.updateStats(finalWinning)] *)
Definition recordOutcome : M unit :=
  modify (fun g => set_stats (updateStats (finalWinning g) (stats g)) g).

(** *** The human player

    The human is the sequence of numbers typed at the case prompts and the
    sequence of answers given to "Deal or No Deal?".  Lines that are not a
    number, or not an answer, only make the prompt repeat and are left
    out. *)

(** [getValidInput(min, max, prompt)]: a number out of range is asked
    again. *)
Fixpoint getValidInput (min max : Z) (entered : list Z) : option (Z * list Z) :=
  match entered with
  | [] => None
  | input :: later =>
      if (input <? min)%Z || (input >? max)%Z
      then getValidInput min max later
      else Some (input, later)
  end.

(** The loop [while (!validChoice)] of [playGame], together with the
    [getValidInput(1, 26, ...)] that it calls. *)
Fixpoint chooseCase (g : Game) (casesToOpen : list Z) (entered : list Z)
  : option (Z * list Z) :=
  match entered with
  | [] => None
  | input :: later =>
      if (input <? 1)%Z || (input >? 26)%Z
      then chooseCase g casesToOpen later
      else
        let caseChoice := (input - 1)%Z in
        if (caseChoice =? playerCase g)%Z then chooseCase g casesToOpen later
        else if nth (Z.to_nat caseChoice) (casesOpened g) false
        then chooseCase g casesToOpen later
        else if existsb (Z.eqb caseChoice) casesToOpen
        then chooseCase g casesToOpen later
        else Some (caseChoice, later)
  end.

(** The loop [for (int i = 0; i < roundCases; i++)] of [playGame]. *)
Fixpoint chooseCases (n : nat) (g : Game) (casesToOpen : list Z)
    (entered : list Z) : option (list Z * list Z) :=
  match n with
  | O => Some (casesToOpen, entered)
  | S n' =>
      match chooseCase g casesToOpen entered with
      | None => None
      | Some (caseChoice, later) =>
          chooseCases n' g (casesToOpen ++ [caseChoice]) later
      end
  end.

(** The loop over the schedule in [playGame].  What is printed (the board,
    the offer, the advice of the computer player) is left out: it changes
    no state. *)
Fixpoint playRounds (schedule : list Z) (entered : list Z)
    (answers : list bool) : M LoopExit :=
  match schedule with
  | [] => ret NoMoreRounds
  | roundCases :: later =>
      g <- get ;;
      if (length (remainingPrizes g) <=? 1)%nat then ret NoMoreRounds
      else
        match chooseCases (Z.to_nat roundCases) g [] entered with
        | None => wait
        | Some (casesToOpen, entered') =>
            openCases casesToOpen ;;
            g <- get ;;
            if (length (remainingPrizes g) <=? 1)%nat then ret NoMoreRounds
            else
              let bankOffer := calculateBankOffer g in
              match answers with
              | [] => wait
              | true :: _ =>
                  modify (set_finalWinning bankOffer) ;;
                  recordOutcome ;;
                  ret DealMade
              | false :: answers' =>
                  modify (fun g => set_round (round g + 1) g) ;;
                  playRounds later entered' answers'
              end
        end
  end.

(** The final case reveal, after the loop. *)
Definition finalReveal : M Ending :=
  modify (fun g =>
    set_finalWinning (nth (Z.to_nat (playerCase g)) (caseValues g) 0) g) ;;
  recordOutcome ;;
  ret FinalReveal.

Definition playGame (entered : list Z) (answers : list bool) : M Ending :=
  try_catch
    (match getValidInput 1 26 entered with
     | None => wait
     | Some (input, entered') =>
         modify (set_playerCase (input - 1)) ;;
         shufflePrizes ;;
         modify (set_round 1) ;;
         exit <- playRounds casesToOpenPerRound entered' answers ;;
         match exit with
         | DealMade => ret Deal
         | NoMoreRounds => finalReveal
         end
     end)
    (fun e => ret (GameError e)).

(** *** The answers

    [std::tolower], in the "C" locale, which the program never changes. *)
Definition tolower (c : ascii) : ascii :=
  let n := nat_of_ascii c in
  if (65 <=? n)%nat && (n <=? 90)%nat then ascii_of_nat (n + 32) else c.

(** [getYesNoInput(prompt)], on the lines that are typed at its prompt: an
    empty line and a line that begins with another character than [y], [Y],
    [n], [N] are asked again; with no line left it waits. *)
Fixpoint getYesNoInput (lines : list string) : option (bool * list string) :=
  match lines with
  | [] => None
  | input :: later =>
      match input with
      | EmptyString => getYesNoInput later
      | String first _ =>
          let ch := tolower first in
          if (ch =? "y")%char then Some (true, later)
          else if (ch =? "n")%char then Some (false, later)
          else getYesNoInput later
      end
  end.

(** *** The computer player *)

(** [v.erase(std::remove(v.begin(), v.end(), x), v.end())] *)
Definition erase_remove (x : Z) (v : list Z) : list Z :=
  filter (fun c => negb (c =? x)%Z) v.

(** The loop over the schedule in [computerPlay]. *)
Fixpoint computerRounds (schedule : list Z) : M LoopExit :=
  match schedule with
  | [] => ret NoMoreRounds
  | roundCases :: later =>
      g <- get ;;
      if (length (remainingPrizes g) <=? 1)%nat then ret NoMoreRounds
      else
        let (selected, ai') :=
          ComputerPlayer.selectCasesToOpen (casesOpened g) roundCases (aiPlayer g) in
        modify (set_aiPlayer ai') ;;
        let casesToOpen := erase_remove (playerCase g) selected in
        openCases casesToOpen ;;
        g <- get ;;
        if (length (remainingPrizes g) <=? 1)%nat then ret NoMoreRounds
        else
          let bankOffer := calculateBankOffer g in
          if ComputerPlayer.shouldAcceptDeal (remainingPrizes g) bankOffer
               (to_int (Z.of_nat (length (remainingPrizes g))))
          then
            modify (set_finalWinning bankOffer) ;;
            recordOutcome ;;
            ret DealMade
          else
            modify (fun g => set_round (round g + 1) g) ;;
            computerRounds later
  end.

Definition computerPlay : M Ending :=
  try_catch
    (modify (fun g =>
       let (chosen, rng') := uniform_int 0 25 (rng g) in
       set_rng rng' (set_playerCase chosen g)) ;;
     shufflePrizes ;;
     modify (set_round 1) ;;
     exit <- computerRounds casesToOpenPerRound ;;
     match exit with
     | DealMade => ret Deal
     | NoMoreRounds => finalReveal
     end)
    (fun e => ret (GameError e)).

(** ** The formulas of the specification

    Written from the words of the specification, to be compared with the
    functions above. *)

Definition spec_sum (values : list R) : R := fold_right Rplus 0 values.

Definition spec_mean (values : list R) : R :=
  spec_sum values / INR (length values).

Definition spec_percentage (round : Z) : R :=
  Rmin 0.9 (0.10 + 0.05 * IZR round).

Definition spec_computeOffer (hiddenPrizes : list R) (round : Z) : R :=
  match hiddenPrizes with
  | [] => 0
  | _ => spec_mean hiddenPrizes * spec_percentage round
  end.

(** Sum of squared deviations from the mean, divided by the count, then
    square-rooted. *)
Definition spec_populationStdDev (values : list R) : R :=
  sqrt (spec_sum (map (fun x => (x - spec_mean values) * (x - spec_mean values))
                      values)
        / INR (length values)).

(** The fraction of the values strictly greater than the offer. *)
Definition spec_probabilityPrizeExceedsOffer (values : list R) (offer : R) : R :=
  INR (length (filter (fun prize => Rgtb prize offer) values))
  / INR (length values).

Definition spec_riskFactor (values : list R) (offer : R) : R :=
  spec_probabilityPrizeExceedsOffer values offer
  - 0.3 * (spec_populationStdDev values / (spec_mean values + 1)).

(** ** Notions used in the statements *)

(** The number of opened cases and of unopened cases of an opened-set. *)
Definition openedCount (casesOpened : list bool) : nat :=
  length (filter (fun opened => opened) casesOpened).

Definition unopenedCount (casesOpened : list bool) : nat :=
  length (filter negb casesOpened).

(** An identifier that [openCases] refuses in state [g]. *)
Definition offending (g : Game) (id : Z) : Prop :=
  (id < 0)%Z \/ (id >= 26)%Z \/ nth (Z.to_nat id) (casesOpened g) false = true.

(** The game with the cases of [ids] marked open, and nothing else changed. *)
Definition marked (ids : list Z) (g : Game) : Game :=
  set_casesOpened
    (fold_left (fun v id => assign (Z.to_nat id) true v) ids (casesOpened g)) g.

(** A game as [shufflePrizes] leaves it when the generator leaves the
    catalogue in its order: every case closed, case [i] holding the [i]-th
    prize of the catalogue. *)
Definition game_in_catalogue_order (playerCase : Z) : Game :=
  mkGame catalogue catalogue (repeat false 26) (sort_reversed catalogue)
         [] playerCase 1 0 GameStats_init (ComputerPlayer.mk []).

(** [hoare P m Q I]: started in a state that satisfies [P], the computation
    [m] ends with a result and a state that satisfy [Q], and every state it
    passes through satisfies [I]. *)
Definition hoare {A : Type} (P : Game -> Prop) (m : M A)
    (Q : Result A -> Game -> Prop) (I : Game -> Prop) : Prop :=
  forall g, P g -> Q (result (m g)) (final (m g)) /\ Forall I (visited (m g)).

(** [g] with its hidden-prize list derived anew. *)
Definition refreshed (g : Game) : Game :=
  set_remainingPrizes
    (sort_reversed (unopenedValues (caseValues g) (casesOpened g))) g.

(** What holds of the game between two rounds. *)
Record Inv (g : Game) : Prop := mkInv {
  inv_opened : length (casesOpened g) = 26%nat;
  inv_player : (0 <= playerCase g < 26)%Z;
  inv_closed : nth (Z.to_nat (playerCase g)) (casesOpened g) false = false;
  inv_values : Permutation (caseValues g) catalogue;
  inv_hidden : remainingPrizes g
               = sort_reversed (unopenedValues (caseValues g) (casesOpened g))
}.

(** The player's chosen case is [p], and it is closed. *)
Definition playerCaseClosed (p : Z) (g : Game) : Prop :=
  playerCase g = p /\ nth (Z.to_nat p) (casesOpened g) false = false.

(** A batch that [openCases] accepts: no case twice, none refused. *)
Definition openable (g : Game) (batch : list Z) : Prop :=
  NoDup batch /\ Forall (fun id => ~ offending g id) batch.

(** What holds when the loop over the schedule is entered: the game is in
    progress with player's case [p], case values [values], statistics
    [stats0] and round counter [r0]. *)
Definition loopPre (p : Z) (values : list R) (stats0 : GameStats) (r0 : Z)
    (g : Game) : Prop :=
  Inv g /\ playerCase g = p /\ caseValues g = values
  /\ stats g = stats0 /\ round g = r0 /\ (1 <= r0)%Z.

(** What holds when the loop is left, after at most [n] rounds.  A deal
    records a positive payout; [dealPossible] is what a deal tells about
    the decisions. *)
Definition loopPost (p : Z) (values : list R) (stats0 : GameStats) (r0 : Z)
    (n : nat) (dealPossible : Prop) (res : Result LoopExit) (g : Game) : Prop :=
  Inv g /\ playerCase g = p /\ caseValues g = values
  /\ match res with
     | Value DealMade =>
         0 < finalWinning g
         /\ stats g = updateStats (finalWinning g) stats0
         /\ dealPossible
     | Value NoMoreRounds =>
         stats g = stats0 /\ (r0 <= round g <= r0 + Z.of_nat n)%Z
     | Thrown _ => False
     | Waiting => stats g = stats0
     end.

(** The game object that the constructor leaves. *)
Definition newGame (seed aiSeed : Rng) (loaded : GameStats) : Game :=
  final (construct seed aiSeed loaded).

(** What holds of a fresh game object once the player's case is chosen. *)
Definition chosen (p : Z) (loaded : GameStats) (g : Game) : Prop :=
  playerCase g = p /\ (0 <= p < 26)%Z /\ allPrizes g = catalogue
  /\ casesOpened g = [] /\ stats g = loaded.

(** What holds when a game is over.  A game that ends records a positive
    payout; a game that waits for input for ever records nothing. *)
Definition gamePost (loaded : GameStats) (dealPossible : Prop)
    (res : Result Ending) (g : Game) : Prop :=
  match res with
  | Value Deal =>
      0 < finalWinning g
      /\ stats g = updateStats (finalWinning g) loaded
      /\ dealPossible
  | Value FinalReveal =>
      finalWinning g = nth (Z.to_nat (playerCase g)) (caseValues g) 0
      /\ 0 < finalWinning g
      /\ stats g = updateStats (finalWinning g) loaded
      /\ (1 <= round g <= 10)%Z
  | Value (GameError _) => False
  | Thrown _ => False
  | Waiting => stats g = loaded
  end.

(** Who plays: the human, with what is typed, or the computer. *)
Inductive Player : Type :=
| Human (entered : list Z) (answers : list bool)
| Computer.

(** One game, as the menu starts it: a fresh game object, then [playGame]
    or [computerPlay]. *)
Definition play (player : Player) (seed aiSeed : Rng) (loaded : GameStats)
  : Run Ending :=
  match player with
  | Human entered answers =>
      playGame entered answers (newGame seed aiSeed loaded)
  | Computer => computerPlay (newGame seed aiSeed loaded)
  end.

(** The statistics that a game object can hold after [n] concluded games:
    the zeroed statistics (no statistics file yet), the statistics that a
    game that ends leaves, and statistics read back from the file, where
    the two counters are as they were written (the amounts are written with
    six digits). *)
Inductive Recorded : nat -> GameStats -> Prop :=
| recorded_zero : Recorded 0 GameStats_init
| recorded_game (player : Player) (seed aiSeed : Rng) (loaded : GameStats)
    (n : nat) :
    Recorded n loaded ->
    result (play player seed aiSeed loaded) <> Waiting ->
    Recorded (S n) (stats (final (play player seed aiSeed loaded)))
| recorded_file (saved loaded : GameStats) (n : nat) :
    Recorded n saved ->
    gamesPlayed loaded = gamesPlayed saved ->
    gamesWon loaded = gamesWon saved ->
    Recorded n loaded.

(** The scheduled number of cases, over the rounds of a schedule. *)
Definition scheduled (schedule : list Z) : nat :=
  fold_right (fun roundCases total => (Z.to_nat roundCases + total)%nat) O schedule.

(** The game when the first round begins. *)
Definition started (p : Z) (g : Game) : Game :=
  set_round 1 (final (shufflePrizes (set_playerCase p g))).

(** The opened-set after the rounds of a schedule when the computer rejects
    every offer because more than 10 cases stay hidden; [None] when some
    round leaves 10 cases or fewer. *)
Fixpoint rejectedRounds (schedule : list Z) (p : Z) (opened : list bool)
    (ai : ComputerPlayer.t) : option (list bool) :=
  match schedule with
  | [] => Some opened
  | roundCases :: later =>
      let (selected, ai') :=
        ComputerPlayer.selectCasesToOpen opened roundCases ai in
      let opened' :=
        fold_left (fun v id => assign (Z.to_nat id) true v)
                  (erase_remove p selected) opened in
      if (10 <? unopenedCount opened')%nat
      then rejectedRounds later p opened' ai'
      else None
  end.

(** The computer game in which both generators produce zeros: the computer
    keeps case 0, the prizes stay in the order of the catalogue, and every
    selection begins with the first unopened case, which is case 0. *)
Definition zeroGame : Run Ending :=
  computerPlay (newGame [] [] GameStats_init).

(** ** What is displayed

    [displayRemainingPrizes]: the amounts on the line of the low prizes and
    on the line of the high prizes, in the order in which they are
    printed. *)
Definition lowPrizes (remainingPrizes : list double) : list double :=
  filter (fun prize => Rleb prize 500) (rev remainingPrizes).

Definition highPrizes (remainingPrizes : list double) : list double :=
  filter (fun prize => Rgtb prize 500) remainingPrizes.

(** ** The statistics file and the menu

    The statistics file is absent, or holds the four numbers that
    [saveStats] writes; it can always be written. *)

(** What [loadStats] reads from the file: the two counters as they were
    written, the two amounts as their text gives them back. *)
Record StatsFile : Type := mkFile {
  filePlayed : Z;
  fileWon : Z;
  fileTotal : double;
  fileBest : double
}.

Section StatisticsFile.

(** [reread x]: the [double] that [file >>] reads from the text that
    [file <<] writes for [x], which has six significant digits. *)
Variable reread : double -> double.

Definition saveStats (s : GameStats) : StatsFile :=
  mkFile (gamesPlayed s) (gamesWon s)
         (reread (totalWinnings s)) (reread (bestWinning s)).

Definition loadStats (file : option StatsFile) (s : GameStats) : GameStats :=
  match file with
  | None => s
  | Some f =>
      mkStats (filePlayed f) (fileWon f) (fileTotal f) (fileBest f)
              (if (filePlayed f >? 0)%Z
               then fileTotal f / IZR (filePlayed f)
               else averageWinning s)
  end.

(** The game object that the menu holds, and the statistics file. *)
Record Session : Type := mkSession {
  game : Game;
  file : option StatsFile
}.

(** The constructor of [GameMenu]. *)
Definition GameMenu_construct (seed aiSeed : Rng) (file0 : option StatsFile)
  : Session :=
  mkSession (newGame seed aiSeed (loadStats file0 GameStats_init)) file0.

(** What is chosen in the menu: 1 or 2 (a game, with the seeds that the
    clock gives to the new game object), 3, 4 or 5.  A line that is no
    number, or a number that is no choice, only shows the menu again and is
    left out. *)
Inductive Choice : Type :=
| StartGame (player : Player) (seed aiSeed : Rng)
| ViewStatistics
| ResetStatistics
| GameRules.

(** One turn of the loop of [GameMenu::run]; [None] when the game waits for
    input for ever.  [game = std::make_unique<DealOrNoDealGame>()]
    constructs the new game object, which loads the statistics, before it
    destroys the old one, which saves its statistics. *)
Definition choose (c : Choice) (m : Session) : option Session :=
  match c with
  | StartGame player seed aiSeed =>
      let r := play player seed aiSeed (loadStats (file m) GameStats_init) in
      let saved := Some (saveStats (stats (game m))) in
      match result r with
      | Waiting => None
      | _ => Some (mkSession (final r) saved)
      end
  | ViewStatistics | GameRules => Some m
  | ResetStatistics =>
      Some (mkSession (set_stats GameStats_init (game m)) None)
  end.

Fixpoint run (choices : list Choice) (m : Session) : option Session :=
  match choices with
  | [] => Some m
  | c :: later =>
      match choose c m with
      | None => None
      | Some m' => run later m'
      end
  end.

(** Choice 6: [run] returns, and the destructor of the game object saves
    its statistics. *)
Definition leave (m : Session) : option StatsFile :=
  Some (saveStats (stats (game m))).

End StatisticsFile.

(** ** Further notions used in the statements *)

(** A number that [getValidInput] asks again. *)
Definition outOfRange (min max input : Z) : Prop :=
  (input < min)%Z \/ (max < input)%Z.

(** A number typed at a case prompt that [playGame] does not take: it is
    not between 1 and 26, or it names the player's case, an open case, or a
    case already selected in this round. *)
Definition refusedChoice (g : Game) (casesToOpen : list Z) (input : Z) : Prop :=
  (input < 1)%Z \/ (26 < input)%Z
  \/ (input - 1)%Z = playerCase g
  \/ nth (Z.to_nat (input - 1)) (casesOpened g) false = true
  \/ In (input - 1)%Z casesToOpen.

(** A line that [getYesNoInput] asks again. *)
Definition notAnAnswer (line : string) : Prop :=
  match line with
  | EmptyString => True
  | String first _ =>
      first <> "y"%char /\ first <> "Y"%char
      /\ first <> "n"%char /\ first <> "N"%char
  end.

(** What the loop of [computerPlay] leaves, from a round reached with at
    least 2 cases more than the schedule still asks for. *)
Definition computerRoundsPost (r0 : Z) (schedule : list Z)
    (res : Result LoopExit) (g : Game) : Prop :=
  Inv g
  /\ match res with
     | Value DealMade =>
         exists k, (k < length schedule)%nat
           /\ round g = (r0 + Z.of_nat k)%Z
           /\ (2 + scheduled (skipn (S k) schedule)
               <= length (remainingPrizes g))%nat
           /\ finalWinning g = calculateBankOffer g
           /\ ComputerPlayer.shouldAcceptDeal (remainingPrizes g)
                (calculateBankOffer g)
                (to_int (Z.of_nat (length (remainingPrizes g)))) = true
     | Value NoMoreRounds =>
         round g = (r0 + Z.of_nat (length schedule))%Z
         /\ (2 <= length (remainingPrizes g))%nat
     | Thrown _ | Waiting => False
     end.

(** What the loop of [playGame] leaves, from a round reached with [hidden]
    cases hidden, at least 2 more than the schedule still asks for. *)
Definition playRoundsPost (r0 : Z) (hidden : nat) (schedule : list Z)
    (answers : list bool) (res : Result LoopExit) (g : Game) : Prop :=
  Inv g
  /\ match res with
     | Value DealMade =>
         exists k, (k < length schedule)%nat
           /\ firstn (S k) answers = repeat false k ++ [true]
           /\ round g = (r0 + Z.of_nat k)%Z
           /\ (length (remainingPrizes g) + scheduled (firstn (S k) schedule)
               = hidden)%nat
           /\ finalWinning g = calculateBankOffer g
     | Value NoMoreRounds =>
         firstn (length schedule) answers = repeat false (length schedule)
         /\ round g = (r0 + Z.of_nat (length schedule))%Z
         /\ (length (remainingPrizes g) + scheduled schedule = hidden)%nat
     | Thrown _ => False
     | Waiting => True
     end.

(** A session in which the game object holds the statistics of the file:
    the menu as it is constructed, and the menu after choice 4. *)
Inductive Fresh (reread : double -> double) : Session -> Prop :=
| fresh_menu (seed aiSeed : Rng) (file0 : option StatsFile) :
    Fresh reread (GameMenu_construct seed aiSeed file0)
| fresh_reset (m m' : Session) :
    choose reread ResetStatistics m = Some m' -> Fresh reread m'.

(** The games among the choices. *)
Definition isStartGame (c : Choice) : bool :=
  match c with
  | StartGame _ _ _ => true
  | _ => false
  end.

Definition gamesStarted (choices : list Choice) : nat :=
  length (filter isStartGame choices).

(** A game of the human player. *)
Definition humanGame (c : Choice) : Prop :=
  exists entered answers seed aiSeed,
    c = StartGame (Human entered answers) seed aiSeed.

(** * Properties *)

(** ** Comparisons *)

Lemma Rgtb_true_iff (x y : R) : Rgtb x y = true <-> x > y.
Proof. unfold Rgtb; destruct (Rlt_dec y x); split; intros; try easy; lra. Qed.

Lemma Rgeb_true_iff (x y : R) : Rgeb x y = true <-> x >= y.
Proof. unfold Rgeb; destruct (Rle_dec y x); split; intros; try easy; lra. Qed.

Lemma Rltb_true_iff (x y : R) : Rltb x y = true <-> x < y.
Proof. unfold Rltb; destruct (Rlt_dec x y); split; intros; try easy; lra. Qed.

Lemma Rleb_true_iff (x y : R) : Rleb x y = true <-> x <= y.
Proof. unfold Rleb; destruct (Rle_dec x y); split; intros; try easy; lra. Qed.

Lemma Rgtb_false_iff (x y : R) : Rgtb x y = false <-> x <= y.
Proof. unfold Rgtb; destruct (Rlt_dec y x); split; intros; try easy; lra. Qed.

Lemma Rgeb_false_iff (x y : R) : Rgeb x y = false <-> x < y.
Proof. unfold Rgeb; destruct (Rle_dec y x); split; intros; try easy; lra. Qed.

Lemma Rleb_false_iff (x y : R) : Rleb x y = false <-> y < x.
Proof. unfold Rleb; destruct (Rle_dec x y); split; intros; try easy; lra. Qed.

Lemma to_int_small (n : Z) : (0 <= n < 2 ^ 31)%Z -> to_int n = n.
Proof.
  intros H. unfold to_int.
  rewrite Z.mod_small; lia.
Qed.

Lemma to_int_range (n : Z) : (- 2 ^ 31 <= n < 2 ^ 31)%Z -> to_int n = n.
Proof.
  intros H. unfold to_int. rewrite Z.mod_small; lia.
Qed.

(** ** The loops of the advisor and the sums of the specification *)

Lemma fold_left_sum (values : list R) (start : R) :
  fold_left (fun sum prize => sum + prize) values start = start + spec_sum values.
Proof.
  revert start; induction values as [|x values IH]; intros start; simpl.
  - lra.
  - rewrite IH. lra.
Qed.

Lemma fold_left_sum_map (f : R -> R) (values : list R) (start : R) :
  fold_left (fun acc prize => acc + f prize) values start
  = start + spec_sum (map f values).
Proof.
  revert start; induction values as [|x values IH]; intros start; simpl.
  - lra.
  - rewrite IH. lra.
Qed.

Lemma fold_left_count (p : R -> bool) (values : list R) (start : Z) :
  fold_left (fun count prize => if p prize then (count + 1)%Z else count)
            values start
  = (start + Z.of_nat (length (filter p values)))%Z.
Proof.
  revert start; induction values as [|x values IH]; intros start; simpl.
  - lia.
  - rewrite IH. destruct (p x); simpl; lia.
Qed.

Lemma expectedValue_mean (prizes : list double) :
  prizes <> [] ->
  ComputerPlayer.calculateExpectedValue prizes = spec_mean prizes.
Proof.
  intros Hne. unfold ComputerPlayer.calculateExpectedValue, spec_mean, size.
  destruct prizes as [|x prizes]; [congruence|].
  rewrite fold_left_sum. f_equal. lra.
Qed.

Lemma standardDeviation_populationStdDev (prizes : list double) :
  ComputerPlayer.calculateStandardDeviation prizes = spec_populationStdDev prizes.
Proof.
  unfold ComputerPlayer.calculateStandardDeviation, spec_populationStdDev.
  destruct prizes as [|x [|y prizes]].
  - simpl. unfold Rdiv. rewrite Rmult_0_l, sqrt_0. reflexivity.
  - cbn [length Nat.leb map spec_sum fold_right].
    unfold spec_mean; cbn [length spec_sum fold_right INR].
    symmetry. replace ((x - (x + 0) / 1) * (x - (x + 0) / 1) + 0) with 0 by lra.
    unfold Rdiv. rewrite Rmult_0_l, sqrt_0. reflexivity.
  - cbn [length Nat.leb].
    rewrite expectedValue_mean by discriminate.
    rewrite fold_left_sum_map. unfold size. cbn [length].
    f_equal. f_equal. lra.
Qed.

Lemma riskFactor_spec (prizes : list double) (offer : double) :
  prizes <> [] ->
  ComputerPlayer.calculateRiskFactor prizes offer = spec_riskFactor prizes offer.
Proof.
  intros Hne. unfold ComputerPlayer.calculateRiskFactor, spec_riskFactor,
    spec_probabilityPrizeExceedsOffer.
  rewrite expectedValue_mean by assumption.
  rewrite standardDeviation_populationStdDev.
  rewrite fold_left_count. unfold size.
  rewrite Z.add_0_l, <- INR_IZR_INZ. lra.
Qed.

(** ** C1: the bank offer *)

Lemma offerPercentage_min (round : Z) :
  (if Rgtb (0.1 + IZR round * 0.05) 0.9 then 0.9 else 0.1 + IZR round * 0.05)
  = spec_percentage round.
Proof.
  unfold spec_percentage, Rmin, Rgtb.
  destruct (Rlt_dec 0.9 (0.1 + IZR round * 0.05));
    destruct (Rle_dec 0.9 (0.10 + 0.05 * IZR round)); lra.
Qed.

(** Over a non-empty prize list, the offer is the mean times the
    percentage of the round. *)
Lemma calculateBankOffer_product (g : Game) :
  remainingPrizes g <> [] ->
  calculateBankOffer g
  = spec_mean (remainingPrizes g) * spec_percentage (round g).
Proof.
  intros Hne. unfold calculateBankOffer.
  destruct (remainingPrizes g) as [|x prizes] eqn:E; [congruence|].
  rewrite fold_left_sum, offerPercentage_min. unfold spec_mean, size.
  f_equal. f_equal. lra.
Qed.

(** C1.  For every round number, the bank offer is 0 when no prize is
    hidden, and otherwise the mean of the hidden prizes times
    [min(0.9, 0.10 + 0.05 * round)]. *)
Theorem calculateBankOffer_spec (g : Game) :
  calculateBankOffer g = spec_computeOffer (remainingPrizes g) (round g).
Proof.
  unfold spec_computeOffer.
  destruct (remainingPrizes g) as [|x prizes] eqn:E.
  - unfold calculateBankOffer. now rewrite E.
  - rewrite <- E. apply calculateBankOffer_product. rewrite E. discriminate.
Qed.

(** ** C6: the standard deviation *)

(** C6.  For every list of hidden prizes, the advisor's standard deviation
    is the population standard deviation (the sum of the squared deviations
    from the mean, divided by the count, square-rooted), and it is 0
    whenever fewer than 2 values remain. *)
Theorem calculateStandardDeviation_spec (prizes : list double) :
  ComputerPlayer.calculateStandardDeviation prizes = spec_populationStdDev prizes
  /\ ((length prizes < 2)%nat ->
      ComputerPlayer.calculateStandardDeviation prizes = 0).
Proof.
  split.
  - apply standardDeviation_populationStdDev.
  - intros Hlen. unfold ComputerPlayer.calculateStandardDeviation.
    destruct (Nat.leb_spec (length prizes) 1); [reflexivity | lia].
Qed.

Lemma calculateStandardDeviation_spec_witness :
  ComputerPlayer.calculateStandardDeviation [500] = 0.
Proof.
  apply (proj2 (calculateStandardDeviation_spec [500])). simpl. lia.
Defined.

(** ** C2: the decision of the advisor *)

(** The decision over a non-empty prize list, in terms of the formulas of
    the specification. *)
Lemma shouldAcceptDeal_tiers (prizes : list double) (offer : double)
    (casesRemaining : Z) :
  prizes <> [] ->
  ComputerPlayer.shouldAcceptDeal prizes offer casesRemaining
  = if (casesRemaining >? 10)%Z then Rgeb offer (spec_mean prizes * 0.9)
    else if (casesRemaining >? 5)%Z then Rgeb offer (spec_mean prizes * 0.85)
    else Rltb (spec_riskFactor prizes offer) 0.4
         || Rgeb offer (spec_mean prizes * 0.8).
Proof.
  intros Hne. unfold ComputerPlayer.shouldAcceptDeal.
  rewrite expectedValue_mean, riskFactor_spec by assumption.
  destruct prizes; [congruence | reflexivity].
Qed.

(** C2.  With no hidden prize the advisor accepts.  Otherwise it accepts
    with more than 10 cases remaining iff the offer is at least 0.9 times
    the expected value; with 6 to 10 cases iff the offer is at least 0.85
    times the expected value; with 5 cases or fewer iff the risk factor
    (the fraction of hidden prizes strictly above the offer, minus 0.3
    times the standard deviation over the expected value plus 1) is below
    0.4 or the offer is at least 0.8 times the expected value. *)
Theorem shouldAcceptDeal_three_tier
    (prizes : list double) (offer : double) (casesRemaining : Z) :
  (prizes = [] ->
   ComputerPlayer.shouldAcceptDeal prizes offer casesRemaining = true)
  /\ (prizes <> [] -> (casesRemaining > 10)%Z ->
      (ComputerPlayer.shouldAcceptDeal prizes offer casesRemaining = true
       <-> offer >= 0.9 * spec_mean prizes))
  /\ (prizes <> [] -> (5 < casesRemaining <= 10)%Z ->
      (ComputerPlayer.shouldAcceptDeal prizes offer casesRemaining = true
       <-> offer >= 0.85 * spec_mean prizes))
  /\ (prizes <> [] -> (casesRemaining <= 5)%Z ->
      (ComputerPlayer.shouldAcceptDeal prizes offer casesRemaining = true
       <-> (spec_riskFactor prizes offer < 0.4
            \/ offer >= 0.8 * spec_mean prizes))).
Proof.
  split; [intros ->; reflexivity|].
  repeat apply conj; intros Hne Hcases;
    rewrite (shouldAcceptDeal_tiers _ _ _ Hne).
  - destruct (Z.gtb_spec casesRemaining 10); [|lia].
    rewrite Rgeb_true_iff. split; lra.
  - destruct (Z.gtb_spec casesRemaining 10); [lia|].
    destruct (Z.gtb_spec casesRemaining 5); [|lia].
    rewrite Rgeb_true_iff. split; lra.
  - destruct (Z.gtb_spec casesRemaining 10); [lia|].
    destruct (Z.gtb_spec casesRemaining 5); [lia|].
    rewrite orb_true_iff, Rgeb_true_iff, Rltb_true_iff.
    split; (intros [H'|H']; [left|right]; lra).
Qed.

Lemma shouldAcceptDeal_three_tier_witness :
  ComputerPlayer.shouldAcceptDeal [100; 200; 300] 190 15 = true.
Proof.
  apply (proj1 (proj2 (shouldAcceptDeal_three_tier [100; 200; 300] 190 15))).
  - discriminate.
  - lia.
  - unfold spec_mean; simpl. lra.
Defined.

(** ** Vectors, indices and flags *)

Section Vectors.

Context {A : Type}.

Lemma assign_length (i : nat) (x : A) (v : list A) :
  length (assign i x v) = length v.
Proof.
  revert i; induction v as [|h v IH]; intros [|i]; simpl; auto.
Qed.

Lemma nth_assign_same (i : nat) (x d : A) (v : list A) :
  (i < length v)%nat -> nth i (assign i x v) d = x.
Proof.
  revert i; induction v as [|h v IH]; intros [|i] Hi; simpl in *;
    try lia; auto with arith.
Qed.

Lemma nth_assign_other (i j : nat) (x d : A) (v : list A) :
  i <> j -> nth j (assign i x v) d = nth j v d.
Proof.
  revert i j; induction v as [|h v IH]; intros [|i] [|j] Hij; simpl;
    try congruence; auto.
Qed.

(** Reading a vector through its indices. *)
Lemma filter_seq_nth (p : A -> bool) (d : A) (v : list A) (start : nat) :
  map (fun i => nth (i - start) v d)
      (filter (fun i => p (nth (i - start) v d)) (seq start (length v)))
  = filter p v.
Proof.
  revert start; induction v as [|h v IH]; intros start; [reflexivity|].
  cbn [length seq filter]. rewrite Nat.sub_diag.
  change (nth 0 (h :: v) d) with h.
  assert (Htail :
    map (fun i => nth (i - start) (h :: v) d)
        (filter (fun i => p (nth (i - start) (h :: v) d)) (seq (S start) (length v)))
    = filter p v).
  { rewrite <- (IH (S start)).
    rewrite (filter_ext_in (fun i => p (nth (i - start) (h :: v) d))
                           (fun i => p (nth (i - S start) v d))).
    - apply map_ext_in. intros i Hi. apply filter_In in Hi as [Hi _].
      apply in_seq in Hi. replace (i - start)%nat with (S (i - S start)) by lia.
      reflexivity.
    - intros i Hi. apply in_seq in Hi.
      replace (i - start)%nat with (S (i - S start)) by lia. reflexivity. }
  destruct (p h); cbn [map]; rewrite ?Nat.sub_diag;
    [apply (f_equal (cons h))|]; exact Htail.
Qed.

(** The loops that collect the elements an index test lets through. *)
Lemma fold_left_collect {I : Type} (skip : I -> bool) (f : I -> A)
    (indices : list I) (start : list A) :
  fold_left (fun acc i => if skip i then acc else acc ++ [f i]) indices start
  = start ++ map f (filter (fun i => negb (skip i)) indices).
Proof.
  revert start; induction indices as [|i indices IH]; intros start; simpl.
  - now rewrite app_nil_r.
  - rewrite IH. destruct (skip i); simpl; [reflexivity|].
    now rewrite <- app_assoc.
Qed.

End Vectors.

Lemma opened_unopened_count (casesOpened : list bool) :
  (openedCount casesOpened + unopenedCount casesOpened)%nat = length casesOpened.
Proof.
  unfold openedCount, unopenedCount.
  induction casesOpened as [|[|] v IH]; simpl; lia.
Qed.

Lemma unopened_indices_length (casesOpened : list bool) :
  length (filter (fun i => negb (nth i casesOpened false))
                 (seq 0 (length casesOpened)))
  = unopenedCount casesOpened.
Proof.
  unfold unopenedCount.
  rewrite <- (filter_seq_nth negb false casesOpened 0), length_map.
  f_equal. apply filter_ext. intros i. now rewrite Nat.sub_0_r.
Qed.

(** ** Sorting *)

Lemma insert_sorted_perm (x : R) (l : list R) :
  Permutation (insert_sorted x l) (x :: l).
Proof.
  induction l as [|y l IH]; simpl; [reflexivity|].
  destruct (Rleb x y); [reflexivity|].
  rewrite IH. apply perm_swap.
Qed.

Lemma insert_sorted_sorted (x : R) (l : list R) :
  StronglySorted Rle l -> StronglySorted Rle (insert_sorted x l).
Proof.
  induction 1 as [|y l Hl IH Hy]; simpl.
  - repeat constructor.
  - destruct (Rleb x y) eqn:E.
    + apply Rleb_true_iff in E. constructor; [now constructor|].
      constructor; [assumption|].
      eapply Forall_impl; [|exact Hy]. intros z Hz; simpl in Hz. lra.
    + apply Rleb_false_iff in E. constructor; [assumption|].
      rewrite (insert_sorted_perm x l). constructor; [lra | assumption].
Qed.

Lemma std_sort_perm (l : list R) : Permutation (std_sort l) l.
Proof.
  induction l as [|x l IH]; simpl; [reflexivity|].
  rewrite insert_sorted_perm. now constructor.
Qed.

Lemma std_sort_sorted (l : list R) : StronglySorted Rle (std_sort l).
Proof.
  induction l as [|x l IH]; simpl; [constructor|].
  now apply insert_sorted_sorted.
Qed.

Lemma StronglySorted_snoc {A : Type} (P : A -> A -> Prop) (l : list A) (x : A) :
  StronglySorted P l -> Forall (fun y => P y x) l -> StronglySorted P (l ++ [x]).
Proof.
  induction 1 as [|y l Hl IH Hy]; intros Hx; simpl.
  - repeat constructor.
  - inversion Hx; subst. constructor; [auto|].
    apply Forall_app; split; [assumption | now constructor].
Qed.

Lemma StronglySorted_rev {A : Type} (P : A -> A -> Prop) (l : list A) :
  StronglySorted P l -> StronglySorted (fun x y => P y x) (rev l).
Proof.
  induction 1 as [|y l Hl IH Hy]; simpl; [constructor|].
  apply StronglySorted_snoc; [assumption|].
  apply Forall_rev. assumption.
Qed.

Lemma sort_reversed_perm (v : list R) : Permutation (sort_reversed v) v.
Proof.
  unfold sort_reversed.
  rewrite <- Permutation_rev, std_sort_perm. symmetry. apply Permutation_rev.
Qed.

Lemma sort_reversed_descending (v : list R) :
  StronglySorted Rge (sort_reversed v).
Proof.
  unfold sort_reversed.
  pose proof (StronglySorted_rev Rle _ (std_sort_sorted (rev v))) as H.
  induction H as [|y l Hl IH Hy]; constructor; auto.
  eapply Forall_impl; [|exact Hy]. intros z Hz; simpl in Hz. lra.
Qed.

(** ** C4: the hidden prizes *)

Lemma unopenedValues_eq (caseValues : list R) (casesOpened : list bool) :
  unopenedValues caseValues casesOpened
  = map (fun i => nth i caseValues 0)
        (filter (fun i => negb (nth i casesOpened false)) (seq 0 26)).
Proof. unfold unopenedValues. now rewrite fold_left_collect. Qed.

Lemma unopenedValues_length (caseValues : list R) (casesOpened : list bool) :
  length casesOpened = 26%nat ->
  length (unopenedValues caseValues casesOpened) = unopenedCount casesOpened.
Proof.
  intros Hlen. rewrite unopenedValues_eq, length_map.
  rewrite <- unopened_indices_length, Hlen. reflexivity.
Qed.

Lemma updateRemainingPrizes_run (g : Game) :
  updateRemainingPrizes g
  = let g' := set_remainingPrizes
                (sort_reversed (unopenedValues (caseValues g) (casesOpened g))) g in
    mkRun (Value tt) g' [g'].
Proof. reflexivity. Qed.

(** C4.  In every game state in which K cases are open, the hidden-prize
    list that [updateRemainingPrizes] derives has exactly 26 - K entries,
    is in descending order, and holds the values of the unopened cases (the
    player's own case among them). *)
Theorem updateRemainingPrizes_spec (g : Game) (K : nat) :
  length (casesOpened g) = 26%nat ->
  openedCount (casesOpened g) = K ->
  let hidden := remainingPrizes (final (updateRemainingPrizes g)) in
  length hidden = (26 - K)%nat
  /\ StronglySorted Rge hidden
  /\ Permutation hidden
       (map (fun i => nth i (caseValues g) 0)
            (filter (fun i => negb (nth i (casesOpened g) false)) (seq 0 26))).
Proof.
  intros Hlen HK. rewrite updateRemainingPrizes_run.
  cbn [final set_remainingPrizes remainingPrizes].
  split; [|split].
  - rewrite (Permutation_length (sort_reversed_perm _)).
    rewrite unopenedValues_length by assumption.
    pose proof (opened_unopened_count (casesOpened g)). lia.
  - apply sort_reversed_descending.
  - rewrite sort_reversed_perm, unopenedValues_eq. reflexivity.
Qed.

Lemma updateRemainingPrizes_spec_witness :
  let hidden :=
    remainingPrizes (final (updateRemainingPrizes (game_in_catalogue_order 0))) in
  length hidden = (26 - 0)%nat
  /\ StronglySorted Rge hidden
  /\ Permutation hidden
       (map (fun i => nth i (caseValues (game_in_catalogue_order 0)) 0)
            (filter (fun i => negb (nth i (casesOpened (game_in_catalogue_order 0))
                                        false))
                    (seq 0 26))).
Proof.
  apply (updateRemainingPrizes_spec (game_in_catalogue_order 0) 0);
    reflexivity.
Defined.

(** ** C3: opening cases *)

Lemma marked_nil (g : Game) : marked [] g = g.
Proof. destruct g; reflexivity. Qed.

Lemma openCases_loop_cons (caseNum : Z) (rest : list Z) (g : Game) :
  openCases_loop (caseNum :: rest) g
  = if (caseNum <? 0)%Z || (caseNum >=? 26)%Z
    then mkRun (Thrown (GameStateException (InvalidCaseNumber (caseNum + 1)))) g []
    else if nth (Z.to_nat caseNum) (casesOpened g) false
    then mkRun (Thrown (GameStateException (CaseAlreadyOpened (caseNum + 1)))) g []
    else
      let r := openCases_loop rest (marked [caseNum] g) in
      mkRun (result r) (final r) (marked [caseNum] g :: visited r).
Proof.
  cbn [openCases_loop]. unfold bind at 1. cbn [get result final visited].
  destruct ((caseNum <? 0)%Z || (caseNum >=? 26)%Z); [reflexivity|].
  destruct (nth (Z.to_nat caseNum) (casesOpened g) false); [reflexivity|].
  unfold bind, modify. cbn [result final visited app].
  change (set_casesOpened (assign (Z.to_nat caseNum) true (casesOpened g)) g)
    with (marked [caseNum] g).
  destruct (openCases_loop rest (marked [caseNum] g)) as [[[]| |] fin vis];
    reflexivity.
Qed.

Lemma offending_dec (g : Game) (id : Z) :
  ((id <? 0)%Z || (id >=? 26)%Z = true
   \/ nth (Z.to_nat id) (casesOpened g) false = true) <-> offending g id.
Proof.
  unfold offending. rewrite orb_true_iff, Z.ltb_lt, Z.geb_le. intuition lia.
Qed.

Lemma offending_marked (id c : Z) (g : Game) :
  offending g id -> offending (marked [c] g) id.
Proof.
  unfold offending, marked.
  cbn [fold_left set_casesOpened casesOpened].
  intros [H|[H|H]]; auto. right; right.
  destruct (Nat.eq_dec (Z.to_nat c) (Z.to_nat id)) as [->|Hne].
  - apply nth_assign_same.
    destruct (Nat.lt_ge_cases (Z.to_nat id) (length (casesOpened g))); [assumption|].
    rewrite nth_overflow in H by assumption. discriminate.
  - now rewrite nth_assign_other.
Qed.

(** The loop leaves by returning or by a game-state exception; when it
    throws, the cases before the refused one have been marked and nothing
    else has changed. *)
Lemma openCases_loop_outcome (batch : list Z) (g : Game) :
  (result (openCases_loop batch g) = Value tt
   /\ final (openCases_loop batch g) = marked batch g)
  \/ (exists why before refused after,
        batch = before ++ refused :: after
        /\ result (openCases_loop batch g) = Thrown (GameStateException why)
        /\ final (openCases_loop batch g) = marked before g).
Proof.
  revert g; induction batch as [|c batch IH]; intros g.
  - left. cbn. now rewrite marked_nil.
  - rewrite openCases_loop_cons.
    destruct ((c <? 0)%Z || (c >=? 26)%Z).
    { right. exists (InvalidCaseNumber (c + 1)), [], c, batch.
      cbn. now rewrite marked_nil. }
    destruct (nth (Z.to_nat c) (casesOpened g) false).
    { right. exists (CaseAlreadyOpened (c + 1)), [], c, batch.
      cbn. now rewrite marked_nil. }
    cbn zeta. cbn [result final].
    destruct (IH (marked [c] g)) as [[Hres Hfin]|(why & before & refused & after & Hb & Hres & Hfin)].
    + left. now rewrite Hres, Hfin.
    + right. exists why, (c :: before), refused, after.
      rewrite Hres, Hfin, Hb. repeat split.
Qed.

(** When the loop throws, the identifiers before the refused one were each
    accepted, and the refused one is refused in the state they leave. *)
Lemma openCases_loop_refusal (batch : list Z) (g : Game) (e : GameException) :
  result (openCases_loop batch g) = Thrown e ->
  exists why before refused after,
    e = GameStateException why
    /\ batch = before ++ refused :: after
    /\ final (openCases_loop batch g) = marked before g
    /\ Forall (fun id => ~ offending g id) before
    /\ offending (marked before g) refused.
Proof.
  revert g; induction batch as [|c batch IH]; intros g; [discriminate|].
  rewrite openCases_loop_cons.
  destruct ((c <? 0)%Z || (c >=? 26)%Z) eqn:Erange.
  { cbn [result final]. intros [= <-].
    exists (InvalidCaseNumber (c + 1)), [], c, batch.
    rewrite marked_nil. repeat split; [constructor|].
    apply offending_dec. now left. }
  destruct (nth (Z.to_nat c) (casesOpened g) false) eqn:Eopen.
  { cbn [result final]. intros [= <-].
    exists (CaseAlreadyOpened (c + 1)), [], c, batch.
    rewrite marked_nil. repeat split; [constructor|].
    apply offending_dec. now right. }
  cbn zeta. cbn [result final]. intros Hthrown.
  destruct (IH (marked [c] g) Hthrown)
    as (why & before & refused & after & -> & -> & Hfin & Hbefore & Hrefused).
  exists why, (c :: before), refused, after.
  split; [reflexivity|]. split; [reflexivity|]. split; [exact Hfin|]. split.
  - constructor.
    + intros Hc. apply offending_dec in Hc. rewrite Erange, Eopen in Hc.
      destruct Hc; discriminate.
    + eapply Forall_impl; [|exact Hbefore].
      intros id Hid Hoff. apply Hid. now apply offending_marked.
  - unfold offending in *.
    change (casesOpened (marked (c :: before) g))
      with (casesOpened (marked before (marked [c] g))).
    exact Hrefused.
Qed.

Lemma openCases_loop_fails (batch : list Z) (g : Game) :
  Exists (offending g) batch ->
  exists why, result (openCases_loop batch g) = Thrown (GameStateException why).
Proof.
  revert g; induction batch as [|c batch IH]; intros g Hex.
  - inversion Hex.
  - rewrite openCases_loop_cons.
    destruct ((c <? 0)%Z || (c >=? 26)%Z) eqn:Erange; [eexists; reflexivity|].
    destruct (nth (Z.to_nat c) (casesOpened g) false) eqn:Eopen;
      [eexists; reflexivity|].
    cbn zeta. cbn [result]. apply IH.
    inversion Hex as [? ? Hc|? ? Hrest]; subst.
    + apply offending_dec in Hc. rewrite Erange, Eopen in Hc.
      destruct Hc; discriminate.
    + eapply Exists_impl; [|exact Hrest].
      intros id. apply offending_marked.
Qed.

Lemma openCases_loop_head_refused (id : Z) (rest : list Z) (g : Game) :
  offending g id ->
  final (openCases_loop (id :: rest) g) = g
  /\ visited (openCases_loop (id :: rest) g) = [].
Proof.
  intros H. apply offending_dec in H. rewrite openCases_loop_cons.
  destruct ((id <? 0)%Z || (id >=? 26)%Z); [split; reflexivity|].
  destruct H as [H|H]; [discriminate|]. rewrite H. split; reflexivity.
Qed.

Lemma openCases_thrown (batch : list Z) (g : Game) (e : GameException) :
  result (openCases_loop batch g) = Thrown e ->
  openCases batch g
  = mkRun (Thrown e) (final (openCases_loop batch g))
          (visited (openCases_loop batch g)).
Proof. intros H. unfold openCases, bind. now rewrite H. Qed.

(** C3, as the code has it.  [openCases] on a batch that holds an
    identifier already open or out of range [0,25] fails with a game-state
    exception.  On that failure the hidden-prize list and every field other
    than the opened-set are as before, and the opened-set is as before but
    for the cases of the batch that come before the refused one, which are
    marked open: each of them was accepted, and the refused one is out of
    range or open once they are marked.  When the first identifier of the
    batch is the refused one (so for a batch of one), the game state is
    unchanged. *)
Theorem openCases_failure (g : Game) (batch : list Z) :
  Exists (offending g) batch ->
  exists why before refused after,
    batch = before ++ refused :: after
    /\ Forall (fun id => ~ offending g id) before
    /\ offending (marked before g) refused
    /\ result (openCases batch g) = Thrown (GameStateException why)
    /\ final (openCases batch g) = marked before g
    /\ remainingPrizes (final (openCases batch g)) = remainingPrizes g
    /\ (forall id rest, batch = id :: rest -> offending g id ->
        final (openCases batch g) = g).
Proof.
  intros Hex.
  destruct (openCases_loop_fails batch g Hex) as [why' Hthrown].
  destruct (openCases_loop_refusal batch g _ Hthrown)
    as (why & before & refused & after & Hwhy & Hb & Hfin & Hbefore & Hrefused).
  exists why, before, refused, after.
  rewrite (openCases_thrown _ _ _ Hthrown). cbn [result final].
  split; [assumption|]. split; [assumption|]. split; [assumption|].
  split; [now rewrite Hwhy|]. split; [assumption|]. split.
  - now rewrite Hfin.
  - intros id rest -> Hid. now apply openCases_loop_head_refused.
Qed.

Lemma openCases_failure_witness :
  exists why before refused after,
    [26%Z] = before ++ refused :: after
    /\ Forall (fun id => ~ offending (game_in_catalogue_order 0) id) before
    /\ offending (marked before (game_in_catalogue_order 0)) refused
    /\ result (openCases [26%Z] (game_in_catalogue_order 0))
       = Thrown (GameStateException why)
    /\ final (openCases [26%Z] (game_in_catalogue_order 0))
       = marked before (game_in_catalogue_order 0)
    /\ remainingPrizes (final (openCases [26%Z] (game_in_catalogue_order 0)))
       = remainingPrizes (game_in_catalogue_order 0)
    /\ (forall id rest, [26%Z] = id :: rest ->
        offending (game_in_catalogue_order 0) id ->
        final (openCases [26%Z] (game_in_catalogue_order 0))
        = game_in_catalogue_order 0).
Proof.
  apply (openCases_failure (game_in_catalogue_order 0) [26%Z]).
  constructor. right; left. lia.
Defined.

(** C3, as the claim states it, fails: in the batch [0; 26] the identifier
    26 is out of range and [openCases] throws, but case 0 has been marked
    open by then, so the opened-set is not what it was. *)
Lemma openCases_failure_changes_state :
  offending (game_in_catalogue_order 0) 26
  /\ result (openCases [0%Z; 26%Z] (game_in_catalogue_order 0))
     = Thrown (GameStateException (InvalidCaseNumber 27))
  /\ nth 0 (casesOpened (game_in_catalogue_order 0)) false = false
  /\ nth 0 (casesOpened (final (openCases [0%Z; 26%Z] (game_in_catalogue_order 0))))
         false = true
  /\ casesOpened (final (openCases [0%Z; 26%Z] (game_in_catalogue_order 0)))
     <> casesOpened (game_in_catalogue_order 0).
Proof.
  assert (Hrun : openCases_loop [0%Z; 26%Z] (game_in_catalogue_order 0)
                 = mkRun (Thrown (GameStateException (InvalidCaseNumber 27)))
                         (marked [0%Z] (game_in_catalogue_order 0))
                         [marked [0%Z] (game_in_catalogue_order 0)]).
  { rewrite 2 openCases_loop_cons. reflexivity. }
  rewrite (openCases_thrown _ _ (GameStateException (InvalidCaseNumber 27)))
    by (rewrite Hrun; reflexivity).
  rewrite Hrun. cbn [result final].
  repeat split.
  - right; left. lia.
  - discriminate.
Qed.

(** ** The random source *)

Section Shuffle.

Context {A : Type}.

Lemma remove_at_length (k : nat) (l : list A) :
  (k < length l)%nat -> length (remove_at k l) = pred (length l).
Proof.
  revert k; induction l as [|h l IH]; intros [|k] Hk; simpl in *; try lia.
  rewrite IH by lia. lia.
Qed.

Lemma remove_at_perm (k : nat) (l : list A) (d : A) :
  (k < length l)%nat -> Permutation (nth k l d :: remove_at k l) l.
Proof.
  revert k; induction l as [|h l IH]; intros [|k] Hk; simpl in *; try lia.
  - reflexivity.
  - rewrite perm_swap. constructor. apply IH. lia.
Qed.

Lemma shuffle_n_perm (n : nat) (g : Rng) (l : list A) :
  n = length l -> Permutation (fst (shuffle_n n g l)) l.
Proof.
  revert g l; induction n as [|n IH]; intros g l Hn.
  - destruct l; [reflexivity | discriminate].
  - destruct l as [|x0 l']; [discriminate|].
    cbn [shuffle_n]. destruct (next g) as [d g1].
    set (l := x0 :: l') in *.
    assert (Hk : (d mod length l < length l)%nat)
      by (apply Nat.mod_upper_bound; discriminate).
    specialize (IH g1 (remove_at (d mod length l) l)).
    destruct (shuffle_n n g1 (remove_at (d mod length l) l)) as [rest g2].
    cbn [fst] in *.
    rewrite IH by (rewrite remove_at_length by assumption; simpl in *; lia).
    now apply remove_at_perm.
Qed.

(** The result of [std::shuffle] is a permutation of its input. *)
Lemma shuffle_perm (g : Rng) (l : list A) : Permutation (fst (shuffle g l)) l.
Proof. now apply shuffle_n_perm. Qed.

(** And every permutation of the input is the result of [std::shuffle]
    for some generator. *)
Lemma remove_at_middle (l1 l2 : list A) (x : A) :
  remove_at (length l1) (l1 ++ x :: l2) = l1 ++ l2.
Proof. induction l1 as [|h l1 IH]; simpl; congruence. Qed.

Lemma shuffle_n_pick (n : nat) (g : Rng) (l1 l2 : list A) (x : A) :
  shuffle_n (S n) (length l1 :: g) (l1 ++ x :: l2)
  = (x :: fst (shuffle_n n g (l1 ++ l2)), snd (shuffle_n n g (l1 ++ l2))).
Proof.
  cbn [shuffle_n next].
  destruct (l1 ++ x :: l2) as [|x0 rest] eqn:E; [destruct l1; discriminate|].
  rewrite <- E.
  assert (Hk : (length l1 mod length (l1 ++ x :: l2) = length l1)%nat).
  { apply Nat.mod_small. rewrite length_app. simpl. lia. }
  rewrite Hk, remove_at_middle.
  destruct (shuffle_n n g (l1 ++ l2)) as [shuffled g2]. cbn [fst snd].
  f_equal. f_equal. rewrite app_nth2 by lia. now rewrite Nat.sub_diag.
Qed.

Lemma shuffle_any (p l : list A) :
  Permutation p l -> exists g, fst (shuffle g l) = p.
Proof.
  unfold shuffle. revert l; induction p as [|x p IH]; intros l Hperm.
  - apply Permutation_nil in Hperm. subst l. now exists [].
  - assert (Hin : In x l) by (rewrite <- Hperm; now left).
    apply in_split in Hin as (l1 & l2 & ->).
    apply Permutation_cons_app_inv in Hperm.
    destruct (IH _ Hperm) as [g Hg].
    exists (length l1 :: g).
    replace (length (l1 ++ x :: l2)) with (S (length (l1 ++ l2)))
      by (rewrite !length_app; simpl; lia).
    rewrite shuffle_n_pick. cbn [fst]. now rewrite Hg.
Qed.

End Shuffle.

(** ** C7: the cases the computer selects *)

Lemma availableCases_eq (casesOpened : list bool) :
  ComputerPlayer.availableCases casesOpened
  = map Z.of_nat (filter (fun i => negb (nth i casesOpened false))
                         (seq 0 (length casesOpened))).
Proof. unfold ComputerPlayer.availableCases. now rewrite fold_left_collect. Qed.

Lemma NoDup_map_of_nat (l : list nat) : NoDup l -> NoDup (map Z.of_nat l).
Proof.
  induction 1 as [|x l Hx Hl IH]; simpl; constructor; [|assumption].
  rewrite in_map_iff. intros (y & Hy & Hin).
  apply Nat2Z.inj in Hy. now subst.
Qed.

Lemma availableCases_NoDup (casesOpened : list bool) :
  NoDup (ComputerPlayer.availableCases casesOpened).
Proof.
  rewrite availableCases_eq. apply NoDup_map_of_nat, NoDup_filter, seq_NoDup.
Qed.

Lemma availableCases_length (casesOpened : list bool) :
  length (ComputerPlayer.availableCases casesOpened) = unopenedCount casesOpened.
Proof.
  rewrite availableCases_eq, length_map. apply unopened_indices_length.
Qed.

Lemma availableCases_In (casesOpened : list bool) (id : Z) :
  In id (ComputerPlayer.availableCases casesOpened)
  <-> (0 <= id < Z.of_nat (length casesOpened))%Z
      /\ nth (Z.to_nat id) casesOpened false = false.
Proof.
  rewrite availableCases_eq, in_map_iff. split.
  - intros (i & <- & Hi). apply filter_In in Hi as [Hi Hclosed].
    apply in_seq in Hi. rewrite Nat2Z.id. apply negb_true_iff in Hclosed.
    split; [lia | assumption].
  - intros [Hid Hclosed]. exists (Z.to_nat id). split; [lia|].
    apply filter_In. split; [apply in_seq; lia|].
    now apply negb_true_iff.
Qed.

Lemma map_nth_seq_firstn {A : Type} (d : A) (l : list A) (n : nat) :
  (n <= length l)%nat ->
  map (fun i => nth i l d) (seq 0 n) = firstn n l.
Proof.
  revert n; induction l as [|h l IH]; intros [|n] Hn; simpl in *; try lia;
    try reflexivity.
  f_equal. rewrite <- seq_shift, map_map. apply IH. lia.
Qed.

Lemma filter_everything {A : Type} (l : list A) : filter (fun _ => true) l = l.
Proof. induction l; simpl; congruence. Qed.

Lemma NoDup_firstn {A : Type} (n : nat) (l : list A) :
  NoDup l -> NoDup (firstn n l).
Proof.
  intros H. rewrite <- (firstn_skipn n l) in H.
  now apply NoDup_app_remove_r in H.
Qed.

Lemma In_firstn {A : Type} (n : nat) (l : list A) (x : A) :
  In x (firstn n l) -> In x l.
Proof.
  intros H. rewrite <- (firstn_skipn n l). apply in_or_app. now left.
Qed.

(** What [selectCasesToOpen] returns: the first cases of the shuffled
    available ones. *)
Lemma selectCasesToOpen_firstn (casesOpened : list bool) (numToOpen : Z)
    (ai : ComputerPlayer.t) :
  (Z.of_nat (length casesOpened) < 2 ^ 31)%Z ->
  fst (ComputerPlayer.selectCasesToOpen casesOpened numToOpen ai)
  = firstn (Z.to_nat numToOpen)
           (fst (shuffle (ComputerPlayer.rng ai)
                         (ComputerPlayer.availableCases casesOpened))).
Proof.
  intros Hsize. unfold ComputerPlayer.selectCasesToOpen.
  pose proof (shuffle_perm (ComputerPlayer.rng ai)
                (ComputerPlayer.availableCases casesOpened)) as Hperm.
  destruct (shuffle (ComputerPlayer.rng ai)
              (ComputerPlayer.availableCases casesOpened)) as [shuffled rng'].
  cbn [fst] in *.
  assert (Hlen : (length shuffled <= length casesOpened)%nat).
  { rewrite (Permutation_length Hperm), availableCases_length.
    pose proof (opened_unopened_count casesOpened). lia. }
  rewrite to_int_small by lia.
  rewrite fold_left_collect with (skip := fun _ => false).
  cbn [app].
  rewrite (filter_ext _ (fun _ => true)) by reflexivity.
  rewrite filter_everything.
  rewrite map_nth_seq_firstn by lia.
  destruct (Z.min_spec numToOpen (Z.of_nat (length shuffled))) as [[Hlt ->]|[Hge ->]].
  - reflexivity.
  - rewrite Nat2Z.id, firstn_all. symmetry. apply firstn_all2. lia.
Qed.

(** The selection: closed cases of the opened-set, each once, as many as
    asked for when that many are unopened. *)
Lemma selection_facts (casesOpened : list bool) (numToOpen : Z)
    (ai : ComputerPlayer.t) :
  (Z.of_nat (length casesOpened) < 2 ^ 31)%Z ->
  let selected := fst (ComputerPlayer.selectCasesToOpen casesOpened numToOpen ai) in
  NoDup selected
  /\ incl selected (ComputerPlayer.availableCases casesOpened)
  /\ length selected = Nat.min (Z.to_nat numToOpen) (unopenedCount casesOpened).
Proof.
  intros Hsize selected. subst selected.
  rewrite selectCasesToOpen_firstn by assumption.
  pose proof (shuffle_perm (ComputerPlayer.rng ai)
                (ComputerPlayer.availableCases casesOpened)) as Hperm.
  split; [|split].
  - apply NoDup_firstn.
    eapply Permutation_NoDup; [symmetry; exact Hperm|].
    apply availableCases_NoDup.
  - intros id Hin. apply In_firstn in Hin. now rewrite <- Hperm.
  - now rewrite length_firstn, (Permutation_length Hperm), availableCases_length.
Qed.

(** C7, as the code has it.  For every opened-set (of a size that fits an
    [int]) and every requested count, [selectCasesToOpen] returns no case
    marked open, no case twice, and exactly [min(count, unopened)] cases
    when the count is not negative; for a negative count it returns no
    case. *)
Theorem selectCasesToOpen_spec (casesOpened : list bool) (numToOpen : Z)
    (ai : ComputerPlayer.t) :
  (Z.of_nat (length casesOpened) < 2 ^ 31)%Z ->
  let selected := fst (ComputerPlayer.selectCasesToOpen casesOpened numToOpen ai) in
  (forall id, In id selected ->
     (0 <= id < Z.of_nat (length casesOpened))%Z
     /\ nth (Z.to_nat id) casesOpened false = false)
  /\ NoDup selected
  /\ Z.of_nat (length selected)
     = Z.max 0 (Z.min numToOpen (Z.of_nat (unopenedCount casesOpened))).
Proof.
  intros Hsize selected.
  destruct (selection_facts casesOpened numToOpen ai Hsize)
    as (Hnodup & Hincl & Hlen).
  fold selected in Hnodup, Hincl, Hlen.
  split; [|split].
  - intros id Hin. now apply availableCases_In, Hincl.
  - exact Hnodup.
  - rewrite Hlen. lia.
Qed.

Lemma selectCasesToOpen_spec_witness :
  let selected :=
    fst (ComputerPlayer.selectCasesToOpen (repeat false 26) 6 (ComputerPlayer.mk [])) in
  (forall id, In id selected ->
     (0 <= id < Z.of_nat (length (repeat false 26)))%Z
     /\ nth (Z.to_nat id) (repeat false 26) false = false)
  /\ NoDup selected
  /\ Z.of_nat (length selected)
     = Z.max 0 (Z.min 6 (Z.of_nat (unopenedCount (repeat false 26)))).
Proof.
  apply (selectCasesToOpen_spec (repeat false 26) 6 (ComputerPlayer.mk [])).
  simpl. lia.
Defined.

(** C7, as the claim states it, fails for a negative count: asked for -1
    cases of an opened-set with one unopened case, [selectCasesToOpen]
    returns the empty list, whose length is not [min(-1, 1)]. *)
Lemma selectCasesToOpen_negative_count :
  fst (ComputerPlayer.selectCasesToOpen [false] (-1) (ComputerPlayer.mk [])) = []
  /\ Z.of_nat (length (fst (ComputerPlayer.selectCasesToOpen
                              [false] (-1) (ComputerPlayer.mk []))))
     <> Z.min (-1) (Z.of_nat (unopenedCount [false])).
Proof.
  split; [reflexivity|]. vm_compute. discriminate.
Qed.

(** ** Reasoning about computations *)

Section Hoare.

Context {A B : Type}.
Variable I : Game -> Prop.

Lemma hoare_ret (P : Game -> Prop) (a : A) (Q : Result A -> Game -> Prop) :
  (forall g, P g -> Q (Value a) g) -> hoare P (ret a) Q I.
Proof. intros H g Hg. split; [now apply H | constructor]. Qed.

Lemma hoare_throw (P : Game -> Prop) (e : GameException)
    (Q : Result A -> Game -> Prop) :
  (forall g, P g -> Q (Thrown e) g) -> hoare P (throw e) Q I.
Proof. intros H g Hg. split; [now apply H | constructor]. Qed.

Lemma hoare_wait (P : Game -> Prop) (Q : Result A -> Game -> Prop) :
  (forall g, P g -> Q Waiting g) -> hoare P wait Q I.
Proof. intros H g Hg. split; [now apply H | constructor]. Qed.

Lemma hoare_modify (P : Game -> Prop) (f : Game -> Game)
    (Q : Result unit -> Game -> Prop) :
  (forall g, P g -> Q (Value tt) (f g) /\ I (f g)) -> hoare P (modify f) Q I.
Proof.
  intros H g Hg. destruct (H g Hg). split; [assumption | now constructor].
Qed.

Lemma hoare_bind (P : Game -> Prop) (m : M A) (k : A -> M B)
    (Qm : Result A -> Game -> Prop) (Q : Result B -> Game -> Prop) :
  hoare P m Qm I ->
  (forall a, hoare (Qm (Value a)) (k a) Q I) ->
  (forall e g, Qm (Thrown e) g -> Q (Thrown e) g) ->
  (forall g, Qm Waiting g -> Q Waiting g) ->
  hoare P (bind m k) Q I.
Proof.
  intros Hm Hk Hthrow Hwait g Hg. unfold bind.
  destruct (Hm g Hg) as [HQm Hvis].
  destruct (result (m g)) as [a|e|] eqn:E; cbn [result final visited].
  - destruct (Hk a (final (m g)) HQm) as [HQ Hvis'].
    split; [assumption | now apply Forall_app].
  - split; [now apply Hthrow | assumption].
  - split; [now apply Hwait | assumption].
Qed.

Lemma hoare_get (P : Game -> Prop) (k : Game -> M B)
    (Q : Result B -> Game -> Prop) :
  (forall g0, hoare (fun g => g = g0 /\ P g0) (k g0) Q I) ->
  hoare P (bind get k) Q I.
Proof.
  intros Hk g Hg. unfold bind, get. cbn [result final visited app].
  destruct (Hk g g (conj eq_refl Hg)) as [HQ Hvis].
  split; assumption.
Qed.

Lemma hoare_weaken (P P' : Game -> Prop) (m : M A)
    (Q Q' : Result A -> Game -> Prop) :
  hoare P' m Q' I ->
  (forall g, P g -> P' g) ->
  (forall r g, Q' r g -> Q r g) ->
  hoare P m Q I.
Proof.
  intros Hm HP HQ g Hg. destruct (Hm g (HP g Hg)). split; auto.
Qed.

Lemma hoare_try_catch (P : Game -> Prop) (m : M A)
    (handler : GameException -> M A)
    (Qm Q : Result A -> Game -> Prop) :
  hoare P m Qm I ->
  (forall e, hoare (Qm (Thrown e)) (handler e) Q I) ->
  (forall a g, Qm (Value a) g -> Q (Value a) g) ->
  (forall g, Qm Waiting g -> Q Waiting g) ->
  hoare P (try_catch m handler) Q I.
Proof.
  intros Hm Hh Hval Hwait g Hg. unfold try_catch.
  destruct (Hm g Hg) as [HQm Hvis].
  destruct (result (m g)) as [a|e|] eqn:E; cbn [result final visited].
  - rewrite E. split; [now apply Hval | assumption].
  - destruct (Hh e (final (m g)) HQm) as [HQ Hvis'].
    split; [assumption | now apply Forall_app].
  - rewrite E. split; [now apply Hwait | assumption].
Qed.

End Hoare.

(** ** The state of a game in progress *)

Lemma not_offending_range (g : Game) (id : Z) :
  ~ offending g id ->
  (0 <= id < 26)%Z /\ nth (Z.to_nat id) (casesOpened g) false = false.
Proof.
  unfold offending. intros H.
  split; [lia|]. destruct (nth (Z.to_nat id) (casesOpened g) false); tauto.
Qed.

Lemma casesOpened_marked_cons (c : Z) (ids : list Z) (g : Game) :
  casesOpened (marked (c :: ids) g)
  = casesOpened (marked ids (marked [c] g)).
Proof. reflexivity. Qed.

Lemma marked_length (ids : list Z) (g : Game) :
  length (casesOpened (marked ids g)) = length (casesOpened g).
Proof.
  revert g; induction ids as [|c ids IH]; intros g; [reflexivity|].
  rewrite casesOpened_marked_cons, IH. apply assign_length.
Qed.

Lemma marked_other (ids : list Z) (g : Game) (j : nat) :
  ~ In j (map Z.to_nat ids) ->
  nth j (casesOpened (marked ids g)) false = nth j (casesOpened g) false.
Proof.
  revert g; induction ids as [|c ids IH]; intros g Hj; [reflexivity|].
  rewrite casesOpened_marked_cons, IH by (simpl in Hj; tauto).
  apply nth_assign_other. simpl in Hj. tauto.
Qed.

Lemma to_nat_in_map (id : Z) (ids : list Z) :
  (0 <= id)%Z -> Forall (fun c => (0 <= c)%Z) ids ->
  In (Z.to_nat id) (map Z.to_nat ids) -> In id ids.
Proof.
  intros Hid Hids Hin. apply in_map_iff in Hin as (c & Hc & Hin).
  rewrite Forall_forall in Hids. specialize (Hids c Hin).
  assert (c = id) by lia. now subst.
Qed.

Lemma not_offending_marked (c id : Z) (g : Game) :
  ~ offending g c -> ~ offending g id -> id <> c ->
  ~ offending (marked [c] g) id.
Proof.
  intros Hc Hid Hne.
  apply not_offending_range in Hc as [Hc _].
  apply not_offending_range in Hid as [Hid Hclosed].
  unfold offending. intros [H|[H|H]]; try lia.
  rewrite marked_other in H by (simpl; intros [E|[]]; lia).
  congruence.
Qed.

Lemma openCases_loop_openable (batch : list Z) (g : Game) :
  openable g batch ->
  result (openCases_loop batch g) = Value tt
  /\ final (openCases_loop batch g) = marked batch g
  /\ Forall (fun s => exists before, incl before batch /\ s = marked before g)
            (visited (openCases_loop batch g)).
Proof.
  revert g; induction batch as [|c batch IH]; intros g [Hnodup Hok].
  - cbn. rewrite marked_nil. repeat split. constructor.
  - inversion Hnodup as [|? ? Hc Hnodup']; subst.
    inversion Hok as [|? ? Hcok Hok']; subst.
    rewrite openCases_loop_cons.
    assert (Hdec := offending_dec g c).
    destruct ((c <? 0)%Z || (c >=? 26)%Z); [exfalso; apply Hcok, Hdec; now left|].
    destruct (nth (Z.to_nat c) (casesOpened g) false);
      [exfalso; apply Hcok, Hdec; now right|].
    cbn zeta. cbn [result final visited].
    destruct (IH (marked [c] g)) as (Hres & Hfin & Hvis).
    { split; [assumption|]. rewrite Forall_forall in *. intros id Hin.
      apply not_offending_marked; auto. intros ->. contradiction. }
    repeat split; [assumption | now rewrite Hfin |].
    constructor.
    + exists [c]. split; [|reflexivity]. intros x [->|[]]. now left.
    + eapply Forall_impl; [|exact Hvis]. intros s (before & Hincl & ->).
      exists (c :: before). split; [|reflexivity].
      intros x [->|Hx]; [now left | right; now apply Hincl].
Qed.

Lemma playerCaseClosed_marked (p : Z) (ids : list Z) (g : Game) :
  (0 <= p)%Z -> Forall (fun c => (0 <= c)%Z) ids -> ~ In p ids ->
  playerCaseClosed p g -> playerCaseClosed p (marked ids g).
Proof.
  intros Hp Hids Hnotin [Hplayer Hclosed]. split; [assumption|].
  rewrite marked_other; [assumption|].
  intros Hin. apply Hnotin. now apply to_nat_in_map.
Qed.

Lemma openCases_run_openable (batch : list Z) (g : Game) :
  openable g batch ->
  result (openCases batch g) = Value tt
  /\ final (openCases batch g) = refreshed (marked batch g)
  /\ visited (openCases batch g)
     = visited (openCases_loop batch g) ++ [refreshed (marked batch g)].
Proof.
  intros H. destruct (openCases_loop_openable batch g H) as (Hres & Hfin & _).
  unfold openCases, bind. rewrite Hres, Hfin.
  rewrite updateRemainingPrizes_run. cbn [result final visited].
  repeat split.
Qed.

(** Opening an openable batch that leaves the player's case alone. *)
Lemma hoare_openCases (batch : list Z) (g : Game) :
  openable g batch -> ~ In (playerCase g) batch ->
  (0 <= playerCase g)%Z ->
  nth (Z.to_nat (playerCase g)) (casesOpened g) false = false ->
  hoare (fun s => s = g) (openCases batch)
        (fun r s => r = Value tt /\ s = refreshed (marked batch g))
        (playerCaseClosed (playerCase g)).
Proof.
  intros Hopen Hnotin Hp Hclosed s ->.
  destruct (openCases_run_openable batch g Hopen) as (Hres & Hfin & Hvis).
  destruct (openCases_loop_openable batch g Hopen) as (_ & _ & Hloop).
  assert (Hnonneg : Forall (fun c => (0 <= c)%Z) batch).
  { destruct Hopen as [_ Hok]. eapply Forall_impl; [|exact Hok].
    intros c Hc. apply not_offending_range in Hc. lia. }
  assert (Hmarked : forall before, incl before batch ->
            playerCaseClosed (playerCase g) (marked before g)).
  { intros before Hincl. apply playerCaseClosed_marked; auto.
    - rewrite Forall_forall in *. auto.
    - split; auto. }
  split; [now split|].
  rewrite Hvis. apply Forall_app. split.
  - eapply Forall_impl; [|exact Hloop]. intros s (before & Hincl & ->). auto.
  - constructor; [|constructor]. apply (Hmarked batch). apply incl_refl.
Qed.

Lemma unopenedCount_assign (i : nat) (v : list bool) :
  (i < length v)%nat -> nth i v false = false ->
  S (unopenedCount (assign i true v)) = unopenedCount v.
Proof.
  unfold unopenedCount.
  revert i; induction v as [|b v IH]; intros [|i] Hi Hclosed; simpl in *;
    try lia.
  - subst b. reflexivity.
  - specialize (IH i ltac:(lia) Hclosed). destruct b; simpl; lia.
Qed.

Lemma unopenedCount_marked (batch : list Z) (g : Game) :
  length (casesOpened g) = 26%nat -> openable g batch ->
  (unopenedCount (casesOpened (marked batch g)) + length batch)%nat
  = unopenedCount (casesOpened g).
Proof.
  revert g; induction batch as [|c batch IH]; intros g Hlen [Hnodup Hok].
  - simpl. lia.
  - inversion Hnodup as [|? ? Hc Hnodup']; subst.
    inversion Hok as [|? ? Hcok Hok']; subst.
    rewrite casesOpened_marked_cons. cbn [length].
    rewrite Nat.add_succ_r, IH.
    + destruct (not_offending_range _ _ Hcok) as [Hrange Hclosed].
      apply unopenedCount_assign; [lia | assumption].
    + rewrite marked_length. assumption.
    + split; [assumption|]. rewrite Forall_forall in *. intros id Hin.
      apply not_offending_marked; auto. intros ->. contradiction.
Qed.

Lemma catalogue_positive : Forall (fun prize => 0.01 <= prize) catalogue.
Proof.
  unfold catalogue. repeat (apply Forall_cons; [lra|]). apply Forall_nil.
Qed.

Section Invariant.

Variable g : Game.
Hypothesis HInv : Inv g.

Lemma Inv_values_length : length (caseValues g) = 26%nat.
Proof. now rewrite (Permutation_length (inv_values g HInv)). Qed.

Lemma Inv_value_positive (i : nat) :
  (i < 26)%nat -> 0.01 <= nth i (caseValues g) 0.
Proof.
  intros Hi. pose proof catalogue_positive as Hcat.
  rewrite <- (inv_values g HInv) in Hcat. rewrite Forall_forall in Hcat.
  apply Hcat, nth_In. now rewrite Inv_values_length.
Qed.

Lemma Inv_hidden_length :
  length (remainingPrizes g) = unopenedCount (casesOpened g).
Proof.
  rewrite (inv_hidden g HInv), (Permutation_length (sort_reversed_perm _)).
  apply unopenedValues_length, (inv_opened g HInv).
Qed.

Lemma Inv_unopened_positive : (1 <= unopenedCount (casesOpened g))%nat.
Proof.
  destruct HInv as [Hlen Hp Hclosed _ _].
  rewrite <- (unopenedCount_assign (Z.to_nat (playerCase g))) by (assumption || lia).
  lia.
Qed.

Lemma Inv_hidden_positive : Forall (fun prize => 0.01 <= prize) (remainingPrizes g).
Proof.
  rewrite (inv_hidden g HInv), sort_reversed_perm, unopenedValues_eq.
  apply Forall_forall. intros x Hx.
  apply in_map_iff in Hx as (i & <- & Hi).
  apply filter_In in Hi as [Hi _]. apply in_seq in Hi.
  apply Inv_value_positive. lia.
Qed.

End Invariant.

Lemma Inv_marked (g : Game) (batch : list Z) :
  Inv g -> openable g batch -> ~ In (playerCase g) batch ->
  Inv (refreshed (marked batch g))
  /\ (length (remainingPrizes (refreshed (marked batch g))) + length batch)%nat
     = length (remainingPrizes g).
Proof.
  intros HInv Hopen Hnotin.
  assert (Hnonneg : Forall (fun c => (0 <= c)%Z) batch).
  { destruct Hopen as [_ Hok]. eapply Forall_impl; [|exact Hok].
    intros c Hc. apply not_offending_range in Hc. lia. }
  assert (HInv' : Inv (refreshed (marked batch g))).
  { destruct HInv as [Hlen Hp Hclosed Hvalues Hhidden].
    constructor; try assumption.
    - change (length (casesOpened (marked batch g)) = 26%nat).
      now rewrite marked_length.
    - apply (playerCaseClosed_marked (playerCase g) batch g); auto; try lia.
      now split.
    - reflexivity. }
  split; [assumption|].
  rewrite (Inv_hidden_length _ HInv'), (Inv_hidden_length _ HInv).
  apply unopenedCount_marked; [apply (inv_opened g HInv) | assumption].
Qed.

(** ** The bank offer in a game in progress *)

Lemma spec_sum_lower (c : R) (values : list R) :
  Forall (fun x => c <= x) values -> c * INR (length values) <= spec_sum values.
Proof.
  induction 1 as [|x values Hx _ IH].
  - simpl. lra.
  - cbn [spec_sum fold_right]. fold (spec_sum values).
    change (length (x :: values)) with (S (length values)). rewrite S_INR. lra.
Qed.

Lemma spec_mean_lower (c : R) (values : list R) :
  values <> [] -> Forall (fun x => c <= x) values -> c <= spec_mean values.
Proof.
  intros Hne Hall. unfold spec_mean.
  assert (Hn : 0 < INR (length values)).
  { apply lt_0_INR. destruct values; [congruence | simpl; lia]. }
  apply Rmult_le_reg_r with (INR (length values)); [assumption|].
  unfold Rdiv. rewrite Rmult_assoc, Rinv_l by lra. rewrite Rmult_1_r.
  now apply spec_sum_lower.
Qed.

Lemma spec_percentage_bounds (round : Z) :
  (1 <= round)%Z -> 0.15 <= spec_percentage round <= 0.9.
Proof.
  intros Hround. apply IZR_le in Hround. unfold spec_percentage, Rmin.
  destruct (Rle_dec 0.9 (0.10 + 0.05 * IZR round)); lra.
Qed.

Lemma spec_percentage_early (round : Z) :
  (round <= 15)%Z -> spec_percentage round <= 0.85.
Proof.
  intros Hround. apply IZR_le in Hround. unfold spec_percentage, Rmin.
  destruct (Rle_dec 0.9 (0.10 + 0.05 * IZR round)); lra.
Qed.

(** Over prizes of at least one cent, from the first round on, the bank
    offers more than nothing. *)
Lemma calculateBankOffer_positive (g : Game) :
  remainingPrizes g <> [] ->
  Forall (fun prize => 0.01 <= prize) (remainingPrizes g) ->
  (1 <= round g)%Z ->
  0 < calculateBankOffer g.
Proof.
  intros Hne Hall Hround. rewrite calculateBankOffer_product by assumption.
  pose proof (spec_mean_lower 0.01 _ Hne Hall).
  pose proof (spec_percentage_bounds _ Hround).
  apply Rmult_lt_0_compat; lra.
Qed.

(** [chooseCase] and [chooseCases] return cases that may be opened. *)
Lemma chooseCase_Some (g : Game) (casesToOpen entered later : list Z) (c : Z) :
  chooseCase g casesToOpen entered = Some (c, later) ->
  ~ offending g c /\ c <> playerCase g /\ ~ In c casesToOpen.
Proof.
  induction entered as [|input entered IH]; [discriminate|].
  cbn [chooseCase].
  destruct ((input <? 1)%Z || (input >? 26)%Z) eqn:Erange; [assumption|].
  destruct (Z.eqb_spec (input - 1) (playerCase g)); [assumption|].
  destruct (nth (Z.to_nat (input - 1)) (casesOpened g) false) eqn:Eopen;
    [assumption|].
  destruct (existsb (Z.eqb (input - 1)) casesToOpen) eqn:Eseen; [assumption|].
  intros [= <- <-].
  apply orb_false_iff in Erange as [H1 H26].
  apply Z.ltb_ge in H1. rewrite Z.gtb_ltb in H26. apply Z.ltb_ge in H26.
  repeat split; [|assumption|].
  - unfold offending. rewrite Eopen. intros [H|[H|H]]; (lia || discriminate).
  - intros Hin. assert (existsb (Z.eqb (input - 1)) casesToOpen = true).
    { apply existsb_exists. exists (input - 1)%Z. split; [assumption|].
      apply Z.eqb_refl. }
    congruence.
Qed.

Lemma chooseCases_Some (n : nat) (g : Game)
    (casesToOpen entered batch later : list Z) :
  chooseCases n g casesToOpen entered = Some (batch, later) ->
  openable g casesToOpen -> ~ In (playerCase g) casesToOpen ->
  openable g batch /\ ~ In (playerCase g) batch
  /\ length batch = (length casesToOpen + n)%nat.
Proof.
  revert casesToOpen entered; induction n as [|n IH];
    intros casesToOpen entered Hsome Hopen Hnotin.
  - cbn in Hsome. injection Hsome as <- <-.
    split; [assumption|]. split; [assumption|]. lia.
  - cbn [chooseCases] in Hsome.
    destruct (chooseCase g casesToOpen entered) as [[c rest]|] eqn:E;
      [|discriminate].
    apply chooseCase_Some in E as (Hc & Hplayer & Hnew).
    apply IH in Hsome.
    + rewrite length_app in Hsome. cbn [length] in Hsome.
      destruct Hsome as (H1 & H2 & H3).
      split; [assumption|]. split; [assumption|]. lia.
    + destruct Hopen as [Hnodup Hok]. split.
      * apply NoDup_app; repeat split; auto.
        -- repeat constructor. intros [].
        -- intros x Hx [<-|[]]. contradiction.
      * apply Forall_app. split; [assumption | now constructor].
    + intros Hin. apply in_app_or in Hin as [Hin|[Hin|[]]]; auto.
Qed.

(** ** The loop over the schedule *)

Lemma hoare_assume {A : Type} (I : Game -> Prop) (P : Game -> Prop)
    (fact : Prop) (m : M A) (Q : Result A -> Game -> Prop) :
  (fact -> hoare P m Q I) -> hoare (fun g => P g /\ fact) m Q I.
Proof. intros H g [HP Hfact]. now apply H. Qed.

Lemma Inv_ext (g g' : Game) :
  casesOpened g' = casesOpened g -> playerCase g' = playerCase g ->
  caseValues g' = caseValues g -> remainingPrizes g' = remainingPrizes g ->
  Inv g -> Inv g'.
Proof.
  intros H1 H2 H3 H4 [Hlen Hplayer Hclosed Hvalues Hhidden].
  constructor; rewrite ?H1, ?H2, ?H3, ?H4; assumption.
Qed.

Lemma loopPost_more_rounds (p : Z) (values : list R) (stats0 : GameStats)
    (r0 : Z) (n : nat) (possible possible' : Prop) (res : Result LoopExit)
    (g : Game) :
  (possible -> possible') ->
  loopPost p values stats0 (r0 + 1) n possible res g ->
  loopPost p values stats0 r0 (S n) possible' res g.
Proof.
  intros Himp (HInv & Hp & Hv & Hres).
  split; [assumption|]. split; [assumption|]. split; [assumption|].
  destruct res as [[|]| |]; try tauto.
  destruct Hres as [Hs Hr]. split; [assumption | lia].
Qed.

Lemma deal_run (offer : R) (g : Game) :
  (modify (set_finalWinning offer) ;; recordOutcome ;; ret DealMade) g
  = mkRun (Value DealMade)
          (set_stats (updateStats offer (stats g)) (set_finalWinning offer g))
          [set_finalWinning offer g;
           set_stats (updateStats offer (stats g)) (set_finalWinning offer g)].
Proof. reflexivity. Qed.

(** Accepting the offer of the round. *)
Lemma hoare_deal (p : Z) (values : list R) (stats0 : GameStats) (r0 : Z)
    (n : nat) (possible : Prop) (g : Game) :
  loopPre p values stats0 r0 g -> remainingPrizes g <> [] -> possible ->
  hoare (fun s => s = g)
        (modify (set_finalWinning (calculateBankOffer g)) ;;
         recordOutcome ;;
         ret DealMade)
        (loopPost p values stats0 r0 n possible)
        (playerCaseClosed p).
Proof.
  intros (HInv & Hp & Hv & Hs & Hr & H1) Hne Hposs s ->.
  assert (Hoffer : 0 < calculateBankOffer g).
  { apply calculateBankOffer_positive; [assumption| |lia].
    now apply Inv_hidden_positive. }
  assert (Hclosed : playerCaseClosed p g).
  { split; [assumption|]. rewrite <- Hp. apply (inv_closed g HInv). }
  rewrite deal_run. cbn [result final visited].
  split.
  - split; [|split; [|split]]; try assumption.
    + eapply Inv_ext; [| | | |exact HInv]; reflexivity.
    + split; [exact Hoffer|]. split; [|assumption].
      cbn [stats set_stats finalWinning set_finalWinning]. now rewrite Hs.
  - constructor; [exact Hclosed|]. constructor; [exact Hclosed|]. constructor.
Qed.

(** Declining the offer of the round. *)
Lemma hoare_next_round {A : Type} (p : Z) (values : list R)
    (stats0 : GameStats) (r0 : Z) (g : Game) (rest : M A)
    (Q : Result A -> Game -> Prop) :
  loopPre p values stats0 r0 g ->
  hoare (loopPre p values stats0 (r0 + 1)) rest Q (playerCaseClosed p) ->
  hoare (fun s => s = g)
        (modify (fun g => set_round (round g + 1) g) ;; rest)
        Q (playerCaseClosed p).
Proof.
  intros (HInv & Hp & Hv & Hs & Hr & H1) Hrest.
  apply hoare_bind with (Qm := fun r s =>
    r = Value tt /\ loopPre p values stats0 (r0 + 1) s).
  - apply hoare_modify. intros s ->.
    split; [split; [reflexivity|]|].
    + split; [eapply Inv_ext; [| | | |exact HInv]; reflexivity|].
      cbn [playerCase caseValues stats round set_round].
      repeat (split; [assumption || lia|]). lia.
    + split; [assumption|]. rewrite <- Hp. apply (inv_closed g HInv).
  - intros []. eapply hoare_weaken; [exact Hrest| |auto]. now intros s [_ H].
  - intros e s [H _]. discriminate.
  - intros s [H _]. discriminate.
Qed.

(** Opening the batch of a round. *)
Lemma round_openCases (p : Z) (values : list R) (stats0 : GameStats) (r0 : Z)
    (g : Game) (batch : list Z) :
  loopPre p values stats0 r0 g -> openable g batch -> ~ In p batch ->
  hoare (fun s => s = g) (openCases batch)
        (fun r s => r = Value tt /\ s = refreshed (marked batch g))
        (playerCaseClosed p)
  /\ loopPre p values stats0 r0 (refreshed (marked batch g))
  /\ (length (remainingPrizes (refreshed (marked batch g))) + length batch)%nat
     = length (remainingPrizes g).
Proof.
  intros (HInv & Hp & Hv & Hs & Hr & H1) Hopen Hnotin. subst p.
  destruct (Inv_marked g batch HInv Hopen Hnotin) as [HInv' Hcount].
  split; [|split; [|assumption]].
  - apply hoare_openCases; try assumption.
    + apply (inv_player g HInv).
    + apply (inv_closed g HInv).
  - split; [assumption|]. repeat split; assumption.
Qed.

Lemma hoare_playRounds (schedule : list Z) :
  forall (entered : list Z) (answers : list bool) (p : Z) (values : list R)
         (stats0 : GameStats) (r0 : Z),
  hoare (loopPre p values stats0 r0)
        (playRounds schedule entered answers)
        (loopPost p values stats0 r0 (length schedule) (In true answers))
        (playerCaseClosed p).
Proof.
  induction schedule as [|roundCases schedule IH];
    intros entered answers p values stats0 r0.
  - apply hoare_ret. intros g (HInv & Hp & Hv & Hs & Hr & H1).
    split; [assumption|]. split; [assumption|]. split; [assumption|].
    split; [assumption|]. cbn [length]. lia.
  - cbn [playRounds]. apply hoare_get. intros g0. apply hoare_assume.
    intros Hpre. pose proof Hpre as (HInv & Hp & Hv & Hs & Hr & H1).
    destruct (length (remainingPrizes g0) <=? 1)%nat.
    { apply hoare_ret. intros g ->.
      split; [assumption|]. split; [assumption|]. split; [assumption|].
      split; [assumption|]. lia. }
    destruct (chooseCases (Z.to_nat roundCases) g0 [] entered)
      as [[batch entered']|] eqn:Echoose.
    2:{ apply hoare_wait. intros g ->.
        split; [assumption|]. split; [assumption|]. split; assumption. }
    apply chooseCases_Some in Echoose as (Hopen & Hnotin & Hlen).
    2:{ split; constructor. }
    2:{ intros []. }
    rewrite Hp in Hnotin.
    destruct (round_openCases p values stats0 r0 g0 batch Hpre Hopen Hnotin)
      as (Hopening & Hpre1 & Hcount).
    set (g1 := refreshed (marked batch g0)) in *.
    pose proof Hpre1 as (HInv1 & Hp1 & Hv1 & Hs1 & Hr1 & _).
    apply hoare_bind with (Qm := fun r s => r = Value tt /\ s = g1).
    + exact Hopening.
    + intros []. apply hoare_get. intros g. apply hoare_assume.
      intros [_ ->].
      destruct (length (remainingPrizes g1) <=? 1)%nat eqn:Eleft.
      { apply hoare_ret. intros g ->.
        split; [assumption|]. split; [assumption|]. split; [assumption|].
        split; [assumption|]. lia. }
      assert (Hne : remainingPrizes g1 <> []).
      { intros E. rewrite E in Eleft. discriminate. }
      destruct answers as [|[|] answers'].
      * apply hoare_wait. intros g ->.
        split; [assumption|]. split; [assumption|]. split; assumption.
      * apply hoare_deal; [assumption|assumption|now left].
      * apply hoare_next_round with (values := values) (stats0 := stats0) (r0 := r0);
          [assumption|].
        eapply hoare_weaken;
          [apply (IH entered' answers' p values stats0 (r0 + 1)%Z)
          |intros s Hpre'; exact Hpre'|].
        intros r g. apply loopPost_more_rounds. intros H; now right.
    + intros e s [H _]. discriminate.
    + intros s [H _]. discriminate.
Qed.

Lemma erase_remove_spec (x : Z) (v : list Z) :
  ~ In x (erase_remove x v)
  /\ (forall c, In c (erase_remove x v) -> In c v)
  /\ (NoDup v -> NoDup (erase_remove x v)).
Proof.
  unfold erase_remove. repeat split.
  - intros Hin. apply filter_In in Hin as [_ Hne].
    rewrite Z.eqb_refl in Hne. discriminate.
  - intros c Hin. now apply filter_In in Hin.
  - apply NoDup_filter.
Qed.

(** The batch that the computer opens in a round may be opened. *)
Lemma computer_batch_openable (g : Game) (roundCases : Z) :
  length (casesOpened g) = 26%nat ->
  let selected :=
    fst (ComputerPlayer.selectCasesToOpen (casesOpened g) roundCases (aiPlayer g)) in
  let batch := erase_remove (playerCase g) selected in
  openable g batch /\ ~ In (playerCase g) batch.
Proof.
  intros Hlen selected batch.
  destruct (selection_facts (casesOpened g) roundCases (aiPlayer g))
    as (Hnodup & Hclosed & _); [rewrite Hlen; simpl; lia|].
  fold selected in Hclosed, Hnodup.
  destruct (erase_remove_spec (playerCase g) selected) as (Hnotin & Hincl & Hnd).
  split; [split|]; auto.
  apply Forall_forall. intros id Hid.
  apply Hincl, Hclosed, availableCases_In in Hid as [Hrange Hc].
  rewrite Hlen in Hrange. unfold offending. rewrite Hc.
  intros [H|[H|H]]; (lia || discriminate).
Qed.

Lemma hoare_computerRounds (schedule : list Z) :
  forall (p : Z) (values : list R) (stats0 : GameStats) (r0 : Z),
  hoare (loopPre p values stats0 r0)
        (computerRounds schedule)
        (loopPost p values stats0 r0 (length schedule) True)
        (playerCaseClosed p).
Proof.
  induction schedule as [|roundCases schedule IH]; intros p values stats0 r0.
  - apply hoare_ret. intros g (HInv & Hp & Hv & Hs & Hr & H1).
    split; [assumption|]. split; [assumption|]. split; [assumption|].
    split; [assumption|]. cbn [length]. lia.
  - cbn [computerRounds]. apply hoare_get. intros g0. apply hoare_assume.
    intros Hpre. pose proof Hpre as (HInv & Hp & Hv & Hs & Hr & H1).
    destruct (length (remainingPrizes g0) <=? 1)%nat.
    { apply hoare_ret. intros g ->.
      split; [assumption|]. split; [assumption|]. split; [assumption|].
      split; [assumption|]. lia. }
    pose proof (computer_batch_openable g0 roundCases (inv_opened g0 HInv))
      as [Hopen Hnotin].
    destruct (ComputerPlayer.selectCasesToOpen (casesOpened g0) roundCases
                (aiPlayer g0)) as [selected ai'].
    cbn [fst] in Hopen, Hnotin.
    set (batch := erase_remove (playerCase g0) selected) in *.
    set (g0' := set_aiPlayer ai' g0).
    assert (Hpre' : loopPre p values stats0 r0 g0').
    { split; [eapply Inv_ext; [| | | |exact HInv]; reflexivity|].
      repeat split; assumption. }
    rewrite Hp in Hnotin.
    destruct (round_openCases p values stats0 r0 g0' batch Hpre' Hopen Hnotin)
      as (Hopening & Hpre1 & Hcount).
    set (g1 := refreshed (marked batch g0')) in *.
    pose proof Hpre1 as (HInv1 & Hp1 & Hv1 & Hs1 & Hr1 & _).
    apply hoare_bind with (Qm := fun r s => r = Value tt /\ s = g0').
    + apply hoare_modify. intros s ->. split; [now split|].
      split; [assumption|]. rewrite <- Hp. apply (inv_closed g0 HInv).
    + intros []. eapply hoare_weaken with (P' := fun s => s = g0');
        [|now intros s [_ ->]|intros r s H; exact H].
      apply hoare_bind with (Qm := fun r s => r = Value tt /\ s = g1).
      * exact Hopening.
      * intros []. apply hoare_get. intros g. apply hoare_assume.
        intros [_ ->].
        destruct (length (remainingPrizes g1) <=? 1)%nat eqn:Eleft.
        { apply hoare_ret. intros g ->.
          split; [assumption|]. split; [assumption|]. split; [assumption|].
          split; [assumption|]. lia. }
        assert (Hne : remainingPrizes g1 <> []).
        { intros E. rewrite E in Eleft. discriminate. }
        destruct (ComputerPlayer.shouldAcceptDeal _ _ _).
        -- apply hoare_deal; [assumption|assumption|exact Logic.I].
        -- apply hoare_next_round with (values := values) (stats0 := stats0)
             (r0 := r0); [assumption|].
           eapply hoare_weaken;
             [apply (IH p values stats0 (r0 + 1)%Z)
             |intros s Hpre''; exact Hpre''|].
           intros r g. apply loopPost_more_rounds. auto.
      * intros e s [H _]. discriminate.
      * intros s [H _]. discriminate.
    + intros e s [H _]. discriminate.
    + intros s [H _]. discriminate.
Qed.

(** ** A whole game *)

Lemma construct_returns (seed aiSeed : Rng) (loaded : GameStats) :
  result (construct seed aiSeed loaded) = Value tt
  /\ newGame seed aiSeed loaded
     = mkGame catalogue [] [] [] seed (-1) 0 0 loaded (ComputerPlayer.mk aiSeed).
Proof. split; reflexivity. Qed.

Lemma getValidInput_Some (min max : Z) (entered later : list Z) (input : Z) :
  getValidInput min max entered = Some (input, later) ->
  (min <= input <= max)%Z.
Proof.
  induction entered as [|x entered IH]; [discriminate|].
  cbn [getValidInput].
  destruct ((x <? min)%Z || (x >? max)%Z) eqn:E; [assumption|].
  intros [= <- <-]. apply orb_false_iff in E as [Hmin Hmax].
  apply Z.ltb_ge in Hmin. rewrite Z.gtb_ltb in Hmax. apply Z.ltb_ge in Hmax.
  lia.
Qed.

Lemma shufflePrizes_run (g : Game) :
  shufflePrizes g
  = let g1 := set_rng (snd (shuffle (rng g) (allPrizes g)))
                (set_caseValues (fst (shuffle (rng g) (allPrizes g))) g) in
    let g2 := set_casesOpened (repeat false 26) g1 in
    mkRun (Value tt) (refreshed g2) [g1; g2; refreshed g2].
Proof.
  unfold shufflePrizes, bind, modify.
  destruct (shuffle (rng g) (allPrizes g)) as [shuffled rng']. reflexivity.
Qed.

Lemma hoare_shufflePrizes (p : Z) (loaded : GameStats) :
  hoare (chosen p loaded) shufflePrizes
        (fun r s => r = Value tt
                    /\ Inv s /\ playerCase s = p /\ stats s = loaded)
        (playerCaseClosed p).
Proof.
  intros g (Hp & Hrange & Hall & Hopened & Hstats).
  rewrite shufflePrizes_run. cbn zeta. cbn [result final visited].
  pose proof (shuffle_perm (rng g) (allPrizes g)) as Hperm.
  rewrite Hall in Hperm at 2.
  assert (Hclosed : nth (Z.to_nat p) (repeat false 26) false = false)
    by apply nth_repeat.
  split.
  - split; [reflexivity|]. split; [|split; assumption].
    constructor.
    + apply repeat_length.
    + change (0 <= playerCase g < 26)%Z. now rewrite Hp.
    + change (nth (Z.to_nat (playerCase g)) (repeat false 26) false = false).
      now rewrite Hp.
    + exact Hperm.
    + reflexivity.
  - assert (Hfresh : nth (Z.to_nat p) (casesOpened g) false = false).
    { rewrite Hopened. now destruct (Z.to_nat p). }
    constructor; [split; assumption|].
    constructor; [split; assumption|].
    constructor; [split; assumption|]. constructor.
Qed.

(** From the shuffle to the first round. *)
Lemma hoare_start {A : Type} (p : Z) (loaded : GameStats) (k : M A)
    (Q : Result A -> Game -> Prop) :
  hoare (fun s => exists values, loopPre p values loaded 1 s) k Q
        (playerCaseClosed p) ->
  hoare (chosen p loaded) (shufflePrizes ;; modify (set_round 1) ;; k) Q
        (playerCaseClosed p).
Proof.
  intros Hk.
  apply hoare_bind with (Qm := fun r s =>
    r = Value tt /\ Inv s /\ playerCase s = p /\ stats s = loaded).
  - apply hoare_shufflePrizes.
  - intros []. apply hoare_bind with (Qm := fun r s =>
      r = Value tt /\ exists values, loopPre p values loaded 1 s).
    + apply hoare_modify. intros g (_ & HInv & Hp & Hs).
      split; [split; [reflexivity|]|].
      * exists (caseValues g).
        split; [eapply Inv_ext; [| | | |exact HInv]; reflexivity|].
        split; [assumption|]. split; [reflexivity|]. split; [assumption|].
        split; [reflexivity | lia].
      * split; [assumption|]. rewrite <- Hp. apply (inv_closed g HInv).
    + intros []. eapply hoare_weaken; [exact Hk|now intros g [_ H]|auto].
    + intros e g [H _]. discriminate.
    + intros g [H _]. discriminate.
  - intros e g [H _]. discriminate.
  - intros g [H _]. discriminate.
Qed.

(** The final case reveal. *)
Lemma finalReveal_run (g : Game) :
  finalReveal g
  = let payout := nth (Z.to_nat (playerCase g)) (caseValues g) 0 in
    mkRun (Value FinalReveal)
          (set_stats (updateStats payout (stats g)) (set_finalWinning payout g))
          [set_finalWinning payout g;
           set_stats (updateStats payout (stats g)) (set_finalWinning payout g)].
Proof. reflexivity. Qed.

(** The rounds and what follows them. *)
Lemma hoare_conclude (rounds : M LoopExit) (p : Z) (loaded : GameStats)
    (possible : Prop) :
  (forall values,
     hoare (loopPre p values loaded 1) rounds
           (loopPost p values loaded 1 9 possible) (playerCaseClosed p)) ->
  hoare (fun s => exists values, loopPre p values loaded 1 s)
        (exit <- rounds ;;
         match exit with
         | DealMade => ret Deal
         | NoMoreRounds => finalReveal
         end)
        (gamePost loaded possible)
        (playerCaseClosed p).
Proof.
  intros Hrounds g [values Hpre].
  revert g Hpre. change (hoare (loopPre p values loaded 1)
    (exit <- rounds ;;
     match exit with DealMade => ret Deal | NoMoreRounds => finalReveal end)
    (gamePost loaded possible) (playerCaseClosed p)).
  apply hoare_bind with (Qm := loopPost p values loaded 1 9 possible).
  - apply Hrounds.
  - intros [|].
    + apply hoare_ret. intros g (_ & _ & _ & H). exact H.
    + intros g (HInv & Hp & Hv & Hs & Hr). rewrite finalReveal_run.
      cbn zeta. cbn [result final visited].
      assert (Hpayout : 0.01 <= nth (Z.to_nat (playerCase g)) (caseValues g) 0).
      { apply Inv_value_positive; [assumption|].
        pose proof (inv_player g HInv). lia. }
      assert (Hclosed : playerCaseClosed p g).
      { split; [assumption|]. rewrite <- Hp. apply (inv_closed g HInv). }
      split.
      * cbn. rewrite Hs. repeat split; try lia. lra.
      * constructor; [exact Hclosed|]. constructor; [exact Hclosed|]. constructor.
  - intros e g (_ & _ & _ & []).
  - intros g (_ & _ & _ & H). exact H.
Qed.

Lemma newGame_chosen (seed aiSeed : Rng) (loaded : GameStats) (p : Z) :
  (0 <= p < 26)%Z ->
  chosen p loaded (set_playerCase p (newGame seed aiSeed loaded))
  /\ playerCaseClosed p (set_playerCase p (newGame seed aiSeed loaded)).
Proof.
  intros Hp. destruct (construct_returns seed aiSeed loaded) as [_ ->].
  split; [split; [reflexivity|]; split; [assumption|]; repeat split|].
  split; [reflexivity|].
  cbn [casesOpened set_playerCase]. now destruct (Z.to_nat p).
Qed.

(** A game of the human player, from a fresh game object. *)
Lemma hoare_playGame (seed aiSeed : Rng) (loaded : GameStats)
    (entered : list Z) (answers : list bool) :
  exists p, (0 <= p < 26)%Z /\
  hoare (fun g => g = newGame seed aiSeed loaded)
        (playGame entered answers)
        (gamePost loaded (In true answers))
        (playerCaseClosed p).
Proof.
  unfold playGame.
  destruct (getValidInput 1 26 entered) as [[input entered']|] eqn:Einput.
  2:{ exists 0%Z. split; [lia|]. intros g ->. split; [reflexivity|constructor]. }
  apply getValidInput_Some in Einput.
  exists (input - 1)%Z. split; [lia|].
  destruct (newGame_chosen seed aiSeed loaded (input - 1)) as [Hchosen Hclosed];
    [lia|].
  apply hoare_try_catch with (Qm := gamePost loaded (In true answers)).
  - apply hoare_bind with (Qm := fun r s =>
      r = Value tt /\ chosen (input - 1) loaded s).
    + apply hoare_modify. intros g ->. split; [now split | assumption].
    + intros []. eapply hoare_weaken with
        (P' := chosen (input - 1) loaded)
        (Q' := gamePost loaded (In true answers));
        [|now intros g [_ H]|auto].
      apply hoare_start. apply hoare_conclude.
      intros values. apply (hoare_playRounds casesToOpenPerRound).
    + intros e g [H _]. discriminate.
    + intros g [H _]. discriminate.
  - intros e g [].
  - auto.
  - auto.
Qed.

(** A game of the computer player, from a fresh game object. *)
Lemma hoare_computerPlay (seed aiSeed : Rng) (loaded : GameStats) :
  exists p, (0 <= p < 26)%Z /\
  hoare (fun g => g = newGame seed aiSeed loaded)
        computerPlay
        (gamePost loaded True)
        (playerCaseClosed p).
Proof.
  unfold computerPlay.
  exists (fst (uniform_int 0 25 seed)).
  assert (Hrange : (0 <= fst (uniform_int 0 25 seed) < 26)%Z).
  { unfold uniform_int. destruct (next seed) as [d seed']. cbn [fst].
    pose proof (Z.mod_pos_bound (Z.of_nat d) (25 - 0 + 1)). lia. }
  split; [assumption|].
  apply hoare_try_catch with (Qm := gamePost loaded True).
  - apply hoare_bind with (Qm := fun r s =>
      r = Value tt /\ chosen (fst (uniform_int 0 25 seed)) loaded s).
    + apply hoare_modify. intros g ->.
      destruct (construct_returns seed aiSeed loaded) as [_ ->].
      cbn [rng]. destruct (uniform_int 0 25 seed) as [p seed'].
      cbn [fst] in *.
      split; [split; [reflexivity|]|].
      * split; [reflexivity|]. split; [assumption|]. repeat split.
      * split; [reflexivity|].
        cbn [casesOpened set_playerCase set_rng]. now destruct (Z.to_nat p).
    + intros []. eapply hoare_weaken with
        (P' := chosen (fst (uniform_int 0 25 seed)) loaded)
        (Q' := gamePost loaded True);
        [|now intros g [_ H]|auto].
      apply hoare_start. apply hoare_conclude.
      intros values. apply (hoare_computerRounds casesToOpenPerRound).
    + intros e g [H _]. discriminate.
    + intros g [H _]. discriminate.
  - intros e g [].
  - auto.
  - auto.
Qed.

(** ** C8: the player's case stays closed *)

(** C8.  In every state that a game passes through, from the choice of the
    player's case to the end of the game, in human play and in computer
    auto-play, the player's chosen case is the same case [p] and
    [casesOpened[p]] is false. *)
Theorem player_case_never_opened (seed aiSeed : Rng) (loaded : GameStats) :
  (forall (entered : list Z) (answers : list bool),
     exists p, (0 <= p < 26)%Z /\
       Forall (playerCaseClosed p)
              (visited (playGame entered answers (newGame seed aiSeed loaded))))
  /\ (exists p, (0 <= p < 26)%Z /\
        Forall (playerCaseClosed p)
               (visited (computerPlay (newGame seed aiSeed loaded)))).
Proof.
  split.
  - intros entered answers.
    destruct (hoare_playGame seed aiSeed loaded entered answers)
      as (p & Hp & Hgame).
    exists p. split; [assumption|]. exact (proj2 (Hgame _ eq_refl)).
  - destruct (hoare_computerPlay seed aiSeed loaded) as (p & Hp & Hgame).
    exists p. split; [assumption|]. exact (proj2 (Hgame _ eq_refl)).
Qed.

(** ** C9: every game that ends is a game won *)

(** One call of [updateStats] with a positive payout, the counters being
    below [INT_MAX]. *)
Lemma updateStats_counters (winnings : R) (s : GameStats) :
  0 < winnings ->
  ((- 2 ^ 31 <= gamesPlayed s < 2 ^ 31 - 1)%Z ->
   gamesPlayed (updateStats winnings s) = (gamesPlayed s + 1)%Z)
  /\ ((- 2 ^ 31 <= gamesWon s < 2 ^ 31 - 1)%Z ->
      gamesWon (updateStats winnings s) = (gamesWon s + 1)%Z).
Proof.
  intros Hwin. unfold updateStats. cbn [gamesPlayed gamesWon].
  assert (Hgt : Rgtb winnings 0 = true) by (apply Rgtb_true_iff; lra).
  rewrite Hgt. split; intros Hbound; apply to_int_range; lia.
Qed.

Lemma winRate_all_won (s : GameStats) :
  gamesWon s = gamesPlayed s -> (0 <= gamesPlayed s)%Z ->
  winRate s = if (gamesPlayed s =? 0)%Z then 0 else 100.
Proof.
  intros Hwon Hnonneg. unfold winRate. rewrite Hwon.
  destruct (Z.eqb_spec (gamesPlayed s) 0) as [->|Hne]; [reflexivity|].
  destruct (Z.gtb_spec (gamesPlayed s) 0); [|lia].
  assert (0 < IZR (gamesPlayed s)) by (apply IZR_lt; lia).
  field. lra.
Qed.

Lemma gamePost_weaken (loaded : GameStats) (possible : Prop)
    (res : Result Ending) (g : Game) :
  gamePost loaded possible res g -> gamePost loaded True res g.
Proof. unfold gamePost. destruct res as [[| |]| |]; tauto. Qed.

Lemma play_gamePost (player : Player) (seed aiSeed : Rng) (loaded : GameStats) :
  gamePost loaded True (result (play player seed aiSeed loaded))
                       (final (play player seed aiSeed loaded)).
Proof.
  destruct player as [entered answers|]; unfold play.
  - destruct (hoare_playGame seed aiSeed loaded entered answers)
      as (p & _ & Hgame).
    eapply gamePost_weaken. exact (proj1 (Hgame _ eq_refl)).
  - destruct (hoare_computerPlay seed aiSeed loaded) as (p & _ & Hgame).
    exact (proj1 (Hgame _ eq_refl)).
Qed.

Lemma play_stats (player : Player) (seed aiSeed : Rng) (loaded : GameStats) :
  let r := play player seed aiSeed loaded in
  match result r with
  | Value Deal | Value FinalReveal =>
      0 < finalWinning (final r)
      /\ stats (final r) = updateStats (finalWinning (final r)) loaded
  | Waiting => stats (final r) = loaded
  | Value (GameError _) | Thrown _ => False
  end.
Proof.
  intros r.
  pose proof (play_gamePost player seed aiSeed loaded) as Hpost.
  fold r in Hpost. clearbody r. revert Hpost.
  generalize (result r) (final r). intros res g Hpost.
  unfold gamePost in Hpost.
  destruct res as [[| |]| |]; tauto.
Qed.

(** C9.  A game that ends, by a deal or by the final reveal, records a
    strictly positive payout with one call of [updateStats], which counts
    one game played and one game won more (the counters being below
    [INT_MAX]); and a game cannot end otherwise.  So the statistics after
    [n] concluded games, from the zeroed ones and for fewer than [2^31]
    games, count [n] games played and [n] games won, and the win rate
    shown is 100 as soon as a game has been played. *)
Theorem every_game_is_won :
  (forall (player : Player) (seed aiSeed : Rng) (loaded : GameStats),
     let r := play player seed aiSeed loaded in
     match result r with
     | Value Deal | Value FinalReveal =>
         0 < finalWinning (final r)
         /\ stats (final r) = updateStats (finalWinning (final r)) loaded
         /\ ((- 2 ^ 31 <= gamesPlayed loaded < 2 ^ 31 - 1)%Z ->
             gamesPlayed (stats (final r)) = (gamesPlayed loaded + 1)%Z)
         /\ ((- 2 ^ 31 <= gamesWon loaded < 2 ^ 31 - 1)%Z ->
             gamesWon (stats (final r)) = (gamesWon loaded + 1)%Z)
     | Waiting => stats (final r) = loaded
     | Value (GameError _) | Thrown _ => False
     end)
  /\ (forall (n : nat) (s : GameStats),
       Recorded n s -> (Z.of_nat n < 2 ^ 31)%Z ->
       gamesPlayed s = Z.of_nat n
       /\ gamesWon s = Z.of_nat n
       /\ winRate s = if (n =? 0)%nat then 0 else 100).
Proof.
  assert (Hplay : forall player seed aiSeed loaded,
     let r := play player seed aiSeed loaded in
     match result r with
     | Value Deal | Value FinalReveal =>
         0 < finalWinning (final r)
         /\ stats (final r) = updateStats (finalWinning (final r)) loaded
         /\ ((- 2 ^ 31 <= gamesPlayed loaded < 2 ^ 31 - 1)%Z ->
             gamesPlayed (stats (final r)) = (gamesPlayed loaded + 1)%Z)
         /\ ((- 2 ^ 31 <= gamesWon loaded < 2 ^ 31 - 1)%Z ->
             gamesWon (stats (final r)) = (gamesWon loaded + 1)%Z)
     | Waiting => stats (final r) = loaded
     | Value (GameError _) | Thrown _ => False
     end).
  { intros player seed aiSeed loaded.
    pose proof (play_stats player seed aiSeed loaded) as Hgame.
    cbn zeta in *. revert Hgame.
    generalize (result (play player seed aiSeed loaded))
               (final (play player seed aiSeed loaded)).
    intros res g Hgame.
    destruct res as [[| |]| |]; try assumption;
      destruct Hgame as [Hwin Hstats];
      (split; [assumption|]; split; [assumption|]);
      rewrite Hstats; now apply updateStats_counters. }
  split; [exact Hplay|].
  assert (Hinv : forall n s, Recorded n s -> (Z.of_nat n < 2 ^ 31)%Z ->
            gamesPlayed s = Z.of_nat n /\ gamesWon s = Z.of_nat n).
  { induction 1 as [|player seed aiSeed loaded n _ IH Hends
                    |saved loaded n _ IH Hplayed Hwon]; intros Hn.
    - split; reflexivity.
    - destruct IH as [IHplayed IHwon]; [lia|].
      pose proof (Hplay player seed aiSeed loaded) as Hgame.
      cbn zeta in Hgame. revert Hends Hgame.
      generalize (result (play player seed aiSeed loaded))
                 (final (play player seed aiSeed loaded)).
      intros res g Hends Hgame.
      destruct res as [[| |]| |]; try contradiction;
        destruct Hgame as (_ & _ & Hp & Hw);
        rewrite Hp, Hw by lia; split; lia.
    - rewrite Hplayed, Hwon. now apply IH. }
  intros n s Hs Hn. destruct (Hinv n s Hs Hn) as [Hplayed Hwon].
  split; [assumption|]. split; [assumption|].
  rewrite winRate_all_won by lia. rewrite Hplayed.
  destruct n; reflexivity.
Qed.

(** ** C5: a game of rejected offers *)

Lemma result_bind {A B : Type} (m : M A) (k : A -> M B) (g : Game) :
  result (bind m k g)
  = match result (m g) with
    | Value a => result (k a (final (m g)))
    | Thrown e => Thrown e
    | Waiting => Waiting
    end.
Proof. unfold bind. destruct (result (m g)); reflexivity. Qed.

Lemma final_bind {A B : Type} (m : M A) (k : A -> M B) (g : Game) :
  final (bind m k g)
  = match result (m g) with
    | Value a => final (k a (final (m g)))
    | _ => final (m g)
    end.
Proof. unfold bind. destruct (result (m g)); reflexivity. Qed.

Lemma not_offending_marked_all (batch : list Z) (g : Game) (id : Z) :
  Forall (fun c => ~ offending g c) batch ->
  ~ offending g id -> ~ In id batch ->
  ~ offending (marked batch g) id.
Proof.
  intros Hbatch Hid Hnotin.
  apply not_offending_range in Hid as [Hrange Hclosed].
  unfold offending. intros [H|[H|H]]; try lia.
  rewrite marked_other in H; [congruence|].
  intros Hin. apply Hnotin. apply to_nat_in_map; [lia| |assumption].
  eapply Forall_impl; [|exact Hbatch].
  intros c Hc. apply not_offending_range in Hc. lia.
Qed.

Lemma NoDup_app_disjoint {A : Type} (l1 l2 : list A) (x : A) :
  NoDup (l1 ++ l2) -> In x l1 -> ~ In x l2.
Proof.
  induction l1 as [|a l1 IH]; [intros _ []|].
  cbn [app]. intros Hnodup [->|Hin] Hin2.
  - inversion Hnodup as [|? ? Hx _]; subst. apply Hx, in_or_app. now right.
  - inversion Hnodup; subst. now apply IH.
Qed.

(** A case that may be opened, typed at the prompt, is taken. *)
Lemma chooseCase_supplied (g : Game) (casesToOpen later : list Z) (c : Z) :
  ~ offending g c -> c <> playerCase g -> ~ In c casesToOpen ->
  chooseCase g casesToOpen ((c + 1)%Z :: later) = Some (c, later).
Proof.
  intros Hc Hplayer Hnew. apply not_offending_range in Hc as [Hrange Hclosed].
  cbn [chooseCase]. replace (c + 1 - 1)%Z with c by lia.
  destruct (Z.ltb_spec (c + 1) 1); [lia|].
  destruct (Z.gtb_spec (c + 1) 26); [lia|]. cbn [orb].
  destruct (Z.eqb_spec c (playerCase g)); [contradiction|].
  rewrite Hclosed.
  destruct (existsb (Z.eqb c) casesToOpen) eqn:Eseen; [|reflexivity].
  apply existsb_exists in Eseen as (x & Hx & Heq).
  apply Z.eqb_eq in Heq. subst x. contradiction.
Qed.

Lemma chooseCases_supplied (g : Game) (n : nat) :
  forall (casesToOpen ids rest : list Z),
  (n <= length ids)%nat -> NoDup (casesToOpen ++ ids) ->
  Forall (fun c => ~ offending g c /\ c <> playerCase g) ids ->
  chooseCases n g casesToOpen (map (fun c => (c + 1)%Z) ids ++ rest)
  = Some (casesToOpen ++ firstn n ids,
          map (fun c => (c + 1)%Z) (skipn n ids) ++ rest).
Proof.
  induction n as [|n IH]; intros casesToOpen ids rest Hn Hnodup Hvalid.
  - cbn. now rewrite app_nil_r.
  - destruct ids as [|c ids]; [cbn in Hn; lia|].
    inversion Hvalid as [|? ? [Hc Hplayer] Hvalid']; subst.
    cbn [chooseCases map app].
    rewrite chooseCase_supplied; try assumption.
    + rewrite IH.
      * cbn [firstn skipn]. now rewrite <- app_assoc.
      * cbn in Hn. lia.
      * now rewrite <- app_assoc.
      * assumption.
    + apply NoDup_remove_2 in Hnodup. intros Hin. apply Hnodup.
      apply in_or_app. now left.
Qed.

(** With enough openable cases typed and every offer rejected, the loop
    over the schedule runs to its end. *)
Lemma playRounds_supplied (schedule : list Z) :
  forall (ids rest : list Z) (answers : list bool) (g : Game),
  Inv g -> length ids = scheduled schedule -> NoDup ids ->
  Forall (fun c => ~ offending g c /\ c <> playerCase g) ids ->
  (length schedule <= length answers)%nat ->
  Forall (fun a => a = false) answers ->
  result (playRounds schedule (map (fun c => (c + 1)%Z) ids ++ rest) answers g)
  = Value NoMoreRounds.
Proof.
  induction schedule as [|roundCases schedule IH];
    intros ids rest answers g HInv Hlen Hnodup Hvalid Hanswers Hreject.
  - reflexivity.
  - cbn [playRounds]. rewrite result_bind. cbn [get result final].
    destruct (length (remainingPrizes g) <=? 1)%nat; [reflexivity|].
    cbn [scheduled fold_right] in Hlen. fold (scheduled schedule) in Hlen.
    rewrite (chooseCases_supplied g (Z.to_nat roundCases) [] ids rest);
      [|lia|assumption|assumption].
    cbn [app].
    set (batch := firstn (Z.to_nat roundCases) ids).
    set (later := skipn (Z.to_nat roundCases) ids).
    assert (Hids : ids = batch ++ later)
      by (symmetry; apply firstn_skipn).
    rewrite Hids in Hnodup, Hvalid.
    apply Forall_app in Hvalid as [Hbatch Hlater].
    assert (Hopen : openable g batch).
    { split; [now apply NoDup_app_remove_r in Hnodup|].
      eapply Forall_impl; [|exact Hbatch]. now intros c [Hc _]. }
    assert (Hnotin : ~ In (playerCase g) batch).
    { intros Hin. rewrite Forall_forall in Hbatch.
      now destruct (Hbatch _ Hin). }
    destruct (openCases_run_openable batch g Hopen) as (Hres & Hfin & _).
    destruct (Inv_marked g batch HInv Hopen Hnotin) as [HInv1 _].
    rewrite result_bind, Hres, Hfin.
    set (g1 := refreshed (marked batch g)) in HInv1 |- *.
    rewrite result_bind. cbn [get result final].
    destruct (length (remainingPrizes g1) <=? 1)%nat; [reflexivity|].
    destruct answers as [|a answers']; [cbn in Hanswers; lia|].
    inversion Hreject as [|? ? Ha Hreject' [Ea Eanswers]]. subst a.
    rewrite result_bind. cbn [modify result final].
    apply IH.
    + eapply Inv_ext; [| | | |exact HInv1]; reflexivity.
    + subst later. rewrite length_skipn. lia.
    + now apply NoDup_app_remove_l in Hnodup.
    + apply Forall_forall. intros c Hc.
      rewrite Forall_forall in Hlater. destruct (Hlater c Hc) as [Hcok Hcp].
      split; [|exact Hcp].
      apply (not_offending_marked_all batch g c); [apply Hopen|assumption|].
      intros Hin. exact (NoDup_app_disjoint batch later c Hnodup Hin Hc).
    + cbn in Hanswers. lia.
    + assumption.
Qed.

Lemma result_try_catch {A : Type} (m : M A) (handler : GameException -> M A)
    (g : Game) :
  result (try_catch m handler g)
  = match result (m g) with
    | Thrown e => result (handler e (final (m g)))
    | r => r
    end.
Proof. unfold try_catch. destruct (result (m g)) eqn:E; cbn; now rewrite ?E. Qed.

Lemma shufflePrizes_casesOpened (g : Game) :
  casesOpened (final (shufflePrizes g)) = repeat false 26.
Proof.
  rewrite shufflePrizes_run. cbn zeta. cbn [final]. unfold refreshed.
  cbn [casesOpened set_remainingPrizes set_casesOpened]. reflexivity.
Qed.

Lemma started_Inv (seed aiSeed : Rng) (loaded : GameStats) (p : Z) :
  (0 <= p < 26)%Z ->
  Inv (started p (newGame seed aiSeed loaded))
  /\ playerCase (started p (newGame seed aiSeed loaded)) = p
  /\ casesOpened (started p (newGame seed aiSeed loaded)) = repeat false 26.
Proof.
  intros Hp. unfold started.
  destruct (newGame_chosen seed aiSeed loaded p Hp) as [Hchosen _].
  destruct (hoare_shufflePrizes p loaded _ Hchosen) as [(_ & HInv & Hplayer & _) _].
  pose proof (shufflePrizes_casesOpened
                (set_playerCase p (newGame seed aiSeed loaded))) as Hopened.
  revert HInv Hplayer Hopened.
  generalize (final (shufflePrizes (set_playerCase p (newGame seed aiSeed loaded)))).
  intros g HInv Hplayer Hopened.
  split; [exact (Inv_ext g (set_round 1 g) eq_refl eq_refl eq_refl eq_refl HInv)|].
  split; assumption.
Qed.

(** With the player's case and 24 other cases typed, each once, and nine
    offers rejected, the human game ends with the final reveal. *)
Lemma playGame_supplied (seed aiSeed : Rng) (loaded : GameStats)
    (first : Z) (picks rest : list Z) (answers : list bool) :
  (1 <= first <= 26)%Z -> NoDup picks ->
  Forall (fun c => (1 <= c <= 26)%Z /\ c <> first) picks ->
  length picks = 24%nat -> (9 <= length answers)%nat ->
  Forall (fun a => a = false) answers ->
  result (playGame (first :: picks ++ rest) answers (newGame seed aiSeed loaded))
  = Value FinalReveal.
Proof.
  intros Hfirst Hnodup Hpicks Hlen Hanswers Hreject.
  unfold playGame. cbn [getValidInput].
  destruct (Z.ltb_spec first 1); [lia|].
  destruct (Z.gtb_spec first 26); [lia|]. cbn [orb].
  rewrite result_try_catch.
  rewrite result_bind. cbn [modify result final].
  rewrite result_bind, shufflePrizes_run. cbn zeta. cbn [result final].
  rewrite result_bind. cbn [modify result final].
  destruct (started_Inv seed aiSeed loaded (first - 1)) as (HInv & Hplayer & Hopened);
    [lia|].
  unfold started in HInv, Hplayer, Hopened.
  rewrite shufflePrizes_run in HInv, Hplayer, Hopened.
  cbn zeta in HInv, Hplayer, Hopened. cbn [final] in HInv, Hplayer, Hopened.
  match goal with
  | H : Inv ?g |- _ => set (g0 := g) in *
  end.
  rewrite result_bind.
  replace (picks ++ rest)
    with (map (fun c => (c + 1)%Z) (map (fun c => (c - 1)%Z) picks) ++ rest).
  2:{ f_equal. rewrite map_map. rewrite <- (map_id picks) at 2.
      apply map_ext. intros c. lia. }
  rewrite (playRounds_supplied casesToOpenPerRound); try assumption.
  - reflexivity.
  - now rewrite length_map.
  - clear - Hnodup. induction Hnodup as [|c picks Hc _ IH]; cbn; constructor;
      [|assumption].
    rewrite in_map_iff. intros (x & Hx & Hin). assert (x = c) by lia.
    now subst.
  - apply Forall_forall. intros c Hc. apply in_map_iff in Hc as (x & <- & Hx).
    rewrite Forall_forall in Hpicks. destruct (Hpicks x Hx) as [Hrange Hne].
    split; [|rewrite Hplayer; lia].
    unfold offending. rewrite Hopened, nth_repeat.
    intros [Hoff|[Hoff|Hoff]]; (lia || discriminate).
Qed.

(** C5.  When every offer is rejected, the human game makes no deal and is
    not abandoned: it waits for input that never comes, or it ends with the
    final reveal, after at most the 9 rounds of the schedule (the round
    counter, 1 at the start and incremented with every rejected offer, ends
    at 10 at most) and with the value behind the player's case as payout.
    Given the player's case, 24 other cases each typed once, and nine
    rejections, it does end with the final reveal. *)
Theorem playGame_all_rejected (seed aiSeed : Rng) (loaded : GameStats)
    (entered : list Z) (answers : list bool) :
  Forall (fun a => a = false) answers ->
  let r := playGame entered answers (newGame seed aiSeed loaded) in
  casesToOpenPerRound = [6; 5; 4; 3; 2; 1; 1; 1; 1]%Z
  /\ (result r = Waiting \/ result r = Value FinalReveal)
  /\ (result r = Value FinalReveal ->
      finalWinning (final r)
      = nth (Z.to_nat (playerCase (final r))) (caseValues (final r)) 0
      /\ stats (final r) = updateStats (finalWinning (final r)) loaded
      /\ (1 <= round (final r) <= 1 + 9)%Z)
  /\ (forall (first : Z) (picks rest : list Z),
      entered = first :: picks ++ rest ->
      (1 <= first <= 26)%Z -> NoDup picks ->
      Forall (fun c => (1 <= c <= 26)%Z /\ c <> first) picks ->
      length picks = 24%nat -> (9 <= length answers)%nat ->
      result r = Value FinalReveal).
Proof.
  intros Hreject r.
  split; [reflexivity|].
  assert (Hpost : gamePost loaded (In true answers) (result r) (final r)).
  { destruct (hoare_playGame seed aiSeed loaded entered answers)
      as (p & _ & Hgame).
    exact (proj1 (Hgame _ eq_refl)). }
  assert (Hnodeal : ~ In true answers).
  { intros Hin. rewrite Forall_forall in Hreject.
    specialize (Hreject true Hin). discriminate. }
  split; [|split].
  - revert Hpost. generalize (final r). unfold gamePost.
    destruct (result r) as [[| |]| |]; intros g Hpost; tauto.
  - revert Hpost. generalize (final r). intros g Hpost Hres.
    rewrite Hres in Hpost. unfold gamePost in Hpost.
    destruct Hpost as (Hpayout & _ & Hstats & Hround).
    repeat split; try assumption; lia.
  - intros first picks rest Hentered Hfirst Hnodup Hpicks Hlen Hanswers.
    subst r. rewrite Hentered. now apply playGame_supplied.
Qed.

(** The player keeps case 1, opens the cases 2 to 25 in their order and
    rejects the nine offers. *)
Lemma playGame_all_rejected_witness :
  result (playGame [1; 2; 3; 4; 5; 6; 7; 8; 9; 10; 11; 12; 13; 14; 15; 16; 17;
                    18; 19; 20; 21; 22; 23; 24; 25]%Z
                   (repeat false 9) (newGame [] [] GameStats_init))
  = Value FinalReveal.
Proof.
  refine (proj2 (proj2 (proj2
    (playGame_all_rejected [] [] GameStats_init _ (repeat false 9) _)))
    1%Z [2; 3; 4; 5; 6; 7; 8; 9; 10; 11; 12; 13; 14; 15; 16; 17;
         18; 19; 20; 21; 22; 23; 24; 25]%Z [] _ _ _ _ _ _).
  - repeat constructor.
  - reflexivity.
  - lia.
  - repeat (constructor;
            [cbn [In]; intros Hin;
             repeat (destruct Hin as [Hin|Hin]; [discriminate|]); exact Hin|]).
    constructor.
  - repeat (constructor; [split; [lia | discriminate]|]). constructor.
  - reflexivity.
  - cbn [repeat length]. lia.
Defined.

(** ** C10: the rounds of the computer *)

Lemma erase_remove_length (x : Z) (v : list Z) :
  NoDup v ->
  (In x v -> S (length (erase_remove x v)) = length v)
  /\ (~ In x v -> length (erase_remove x v) = length v).
Proof.
  unfold erase_remove. induction 1 as [|c v Hc Hnodup IH]; cbn [filter In length].
  - split; [intros [] | reflexivity].
  - destruct IH as [IHin IHout]. destruct (Z.eqb_spec c x) as [->|Hne]; cbn [negb length].
    + split; [intros _ | intros H; exfalso; apply H; now left].
      f_equal. now apply IHout.
    + split.
      * intros [E|Hin]; [congruence|]. f_equal. now apply IHin.
      * intros Hout. f_equal. apply IHout. tauto.
Qed.

(** In the early tier, from round 1 to round 15, the computer rejects the
    offer of the bank. *)
Lemma shouldAcceptDeal_early (g : Game) :
  Inv g -> (1 <= round g <= 15)%Z ->
  (10 < length (remainingPrizes g))%nat ->
  ComputerPlayer.shouldAcceptDeal (remainingPrizes g) (calculateBankOffer g)
    (to_int (Z.of_nat (length (remainingPrizes g)))) = false.
Proof.
  intros HInv Hround Hmany.
  assert (Hne : remainingPrizes g <> []).
  { intros E. rewrite E in Hmany. cbn in Hmany. lia. }
  assert (Hle : (length (remainingPrizes g) <= 26)%nat).
  { rewrite (Inv_hidden_length g HInv).
    pose proof (opened_unopened_count (casesOpened g)).
    rewrite (inv_opened g HInv) in *. lia. }
  rewrite to_int_small by lia.
  rewrite shouldAcceptDeal_tiers by assumption.
  destruct (Z.gtb_spec (Z.of_nat (length (remainingPrizes g))) 10); [|lia].
  apply Rgeb_false_iff.
  rewrite calculateBankOffer_product by assumption.
  pose proof (spec_mean_lower 0.01 _ Hne (Inv_hidden_positive g HInv)).
  pose proof (spec_percentage_early (round g) ltac:(lia)).
  pose proof (spec_percentage_bounds (round g) ltac:(lia)).
  nra.
Qed.

Lemma computerRounds_rejected (schedule : list Z) :
  forall (g : Game) (opened' : list bool),
  Inv g -> (1 <= round g)%Z -> (round g + Z.of_nat (length schedule) <= 16)%Z ->
  (1 < length (remainingPrizes g))%nat ->
  rejectedRounds schedule (playerCase g) (casesOpened g) (aiPlayer g)
  = Some opened' ->
  result (computerRounds schedule g) = Value NoMoreRounds
  /\ Inv (final (computerRounds schedule g))
  /\ casesOpened (final (computerRounds schedule g)) = opened'
  /\ playerCase (final (computerRounds schedule g)) = playerCase g
  /\ round (final (computerRounds schedule g))
     = (round g + Z.of_nat (length schedule))%Z.
Proof.
  induction schedule as [|roundCases schedule IH];
    intros g opened' HInv Hround Hlast Hleft Hshadow.
  - cbn in Hshadow. injection Hshadow as <-.
    cbn [computerRounds ret result final length].
    split; [reflexivity|]. split; [assumption|]. split; [reflexivity|].
    split; [reflexivity|]. lia.
  - cbn [computerRounds]. rewrite result_bind, final_bind.
    cbn [get result final].
    destruct (Nat.leb_spec (length (remainingPrizes g)) 1); [lia|].
    cbn [rejectedRounds] in Hshadow.
    pose proof (computer_batch_openable g roundCases (inv_opened g HInv))
      as [Hopen Hnotin].
    destruct (ComputerPlayer.selectCasesToOpen (casesOpened g) roundCases
                (aiPlayer g)) as [selected ai'].
    cbn [fst] in Hopen, Hnotin.
    set (batch := erase_remove (playerCase g) selected) in *.
    set (g0 := set_aiPlayer ai' g).
    assert (HInv0 : Inv g0)
      by exact (Inv_ext g g0 eq_refl eq_refl eq_refl eq_refl HInv).
    destruct (openCases_run_openable batch g0 Hopen) as (Hres & Hfin & _).
    destruct (Inv_marked g0 batch HInv0 Hopen Hnotin) as [HInv1 _].
    assert (Hfields : casesOpened (refreshed (marked batch g0))
                      = casesOpened (marked batch g)
                      /\ playerCase (refreshed (marked batch g0)) = playerCase g
                      /\ aiPlayer (refreshed (marked batch g0)) = ai'
                      /\ round (refreshed (marked batch g0)) = round g)
      by (repeat split).
    revert Hfin HInv1 Hfields.
    generalize (refreshed (marked batch g0)).
    intros g1 Hfin HInv1 (Hopened1 & Hplayer1 & Hai1 & Hround1).
    assert (Hcount : length (remainingPrizes g1)
                     = unopenedCount (casesOpened (marked batch g))).
    { rewrite (Inv_hidden_length g1 HInv1). now rewrite Hopened1. }
    change (fold_left (fun v id => assign (Z.to_nat id) true v) batch (casesOpened g))
      with (casesOpened (marked batch g)) in Hshadow.
    rewrite <- Hcount in Hshadow.
    destruct (Nat.ltb_spec 10 (length (remainingPrizes g1))) as [Hmany|];
      [|discriminate].
    rewrite result_bind, final_bind. cbn [modify result final].
    fold g0. rewrite !result_bind, !final_bind, Hres, Hfin.
    cbn [get result final].
    destruct (Nat.leb_spec (length (remainingPrizes g1)) 1); [lia|].
    rewrite shouldAcceptDeal_early; [|assumption|cbn [length] in Hlast; lia|assumption].
    rewrite result_bind, final_bind. cbn [modify result final].
    destruct (IH (set_round (round g1 + 1) g1) opened')
      as (H1 & H2 & H3 & H4 & H5).
    + exact (Inv_ext g1 (set_round (round g1 + 1) g1)
               eq_refl eq_refl eq_refl eq_refl HInv1).
    + cbn [round set_round]. lia.
    + cbn [round set_round length] in *. lia.
    + cbn [remainingPrizes set_round]. lia.
    + cbn [playerCase casesOpened aiPlayer set_round].
      rewrite Hplayer1, Hopened1, Hai1. exact Hshadow.
    + split; [assumption|]. split; [assumption|]. split; [assumption|].
      split; [rewrite H4; exact Hplayer1|].
      rewrite H5. cbn [round set_round length]. lia.
Qed.


Lemma try_catch_value {A : Type} (m : M A) (handler : GameException -> M A)
    (g : Game) (a : A) :
  result (m g) = Value a -> try_catch m handler g = m g.
Proof. intros H. unfold try_catch. now rewrite H. Qed.

(** The computer game in which no deal is made. *)
Lemma computerPlay_no_deal (g : Game) :
  let g' := let (chosen, rng') := uniform_int 0 25 (rng g) in
            set_rng rng' (set_playerCase chosen g) in
  let gs := set_round 1 (final (shufflePrizes g')) in
  result (computerRounds casesToOpenPerRound gs) = Value NoMoreRounds ->
  result (computerPlay g) = Value FinalReveal
  /\ final (computerPlay g)
     = final (finalReveal (final (computerRounds casesToOpenPerRound gs))).
Proof.
  intros g' gs Hrounds.
  assert (Hbody :
    forall body, body = (modify (fun g =>
         let (chosen, rng') := uniform_int 0 25 (rng g) in
         set_rng rng' (set_playerCase chosen g)) ;;
       shufflePrizes ;;
       modify (set_round 1) ;;
       exit <- computerRounds casesToOpenPerRound ;;
       match exit with
       | DealMade => ret Deal
       | NoMoreRounds => finalReveal
       end) ->
    result (body g) = Value FinalReveal
    /\ final (body g)
       = final (finalReveal (final (computerRounds casesToOpenPerRound gs)))).
  { intros body ->.
    assert (Hshuffle : result (shufflePrizes g') = Value tt)
      by (rewrite shufflePrizes_run; reflexivity).
    rewrite result_bind, final_bind. cbn [modify result final]. fold g'.
    rewrite result_bind, final_bind, Hshuffle.
    rewrite result_bind, final_bind. cbn [modify result final]. fold gs.
    rewrite result_bind, final_bind, Hrounds.
    split; reflexivity. }
  unfold computerPlay.
  destruct (Hbody _ eq_refl) as [Hres Hfin].
  rewrite (try_catch_value _ _ _ _ Hres). split; assumption.
Qed.

Lemma shufflePrizes_fields (g : Game) :
  playerCase (final (shufflePrizes g)) = playerCase g
  /\ aiPlayer (final (shufflePrizes g)) = aiPlayer g
  /\ round (final (shufflePrizes g)) = round g
  /\ stats (final (shufflePrizes g)) = stats g.
Proof. rewrite shufflePrizes_run. repeat split. Qed.

Lemma zeroGame_outcome :
  result zeroGame = Value FinalReveal
  /\ round (final zeroGame) = 10%Z
  /\ playerCase (final zeroGame) = 0%Z
  /\ length (remainingPrizes (final zeroGame)) = 11%nat.
Proof.
  unfold zeroGame.
  destruct (construct_returns [] [] GameStats_init) as [_ Hnew].
  set (g' := set_rng [] (set_playerCase 0 (newGame [] [] GameStats_init))).
  assert (Hchosen : chosen 0 GameStats_init g').
  { subst g'. rewrite Hnew. repeat split; lia. }
  assert (Hai : aiPlayer g' = ComputerPlayer.mk [])
    by (subst g'; rewrite Hnew; reflexivity).
  destruct (hoare_shufflePrizes 0 GameStats_init g' Hchosen)
    as [(_ & HInv & Hplayer & _) _].
  pose proof (shufflePrizes_casesOpened g') as Hopened.
  destruct (shufflePrizes_fields g') as (_ & Hai' & _).
  rewrite Hai in Hai'.
  pose proof (computerPlay_no_deal (newGame [] [] GameStats_init)) as Hplay.
  cbn zeta in Hplay.
  change (let (chosen, rng') := uniform_int 0 25 (rng (newGame [] [] GameStats_init)) in
          set_rng rng' (set_playerCase chosen (newGame [] [] GameStats_init)))
    with g' in Hplay.
  revert HInv Hplayer Hopened Hai' Hplay.
  generalize (final (shufflePrizes g')).
  intros g HInv Hplayer Hopened Hai' Hplay.
  destruct (computerRounds_rejected casesToOpenPerRound (set_round 1 g)
             [false; true; true; true; true; true; true; true; true; true; true;
              true; true; true; true; true; false; false; false; false; false;
              false; false; false; false; false])
    as (Hres & HInvf & Hopenedf & Hplayerf & Hroundf).
  - exact (Inv_ext g (set_round 1 g) eq_refl eq_refl eq_refl eq_refl HInv).
  - cbn [round set_round]. lia.
  - cbn [round set_round casesToOpenPerRound length]. lia.
  - cbn [remainingPrizes set_round].
    rewrite (Inv_hidden_length g HInv), Hopened. cbn. lia.
  - cbn [playerCase casesOpened aiPlayer set_round].
    rewrite Hplayer, Hopened, Hai'. vm_compute. reflexivity.
  - destruct (Hplay Hres) as [Hresult Hfinal].
    rewrite Hresult, Hfinal. clear Hplay Hresult Hfinal.
    revert HInvf Hopenedf Hplayerf Hroundf.
    generalize (final (computerRounds casesToOpenPerRound (set_round 1 g))).
    intros gf HInvf Hopenedf Hplayerf Hroundf.
    rewrite finalReveal_run. cbn zeta.
    cbn [final round playerCase remainingPrizes set_stats set_finalWinning].
    split; [reflexivity|]. split; [rewrite Hroundf; reflexivity|].
    split; [rewrite Hplayerf; cbn [playerCase set_round]; exact Hplayer|].
    rewrite (Inv_hidden_length gf HInvf), Hopenedf. reflexivity.
Qed.

Lemma play_Computer (seed aiSeed : Rng) (loaded : GameStats) :
  play Computer seed aiSeed loaded = computerPlay (newGame seed aiSeed loaded).
Proof. reflexivity. Qed.

Lemma zeroGame_eq : computerPlay (newGame [] [] GameStats_init) = zeroGame.
Proof. unfold zeroGame. reflexivity. Qed.

(** The game in which both generators produce zeros, from the zeroed
    statistics: one game played, one game won. *)
Lemma every_game_is_won_witness :
  let s := stats (final (play Computer [] [] GameStats_init)) in
  gamesPlayed s = 1%Z /\ gamesWon s = 1%Z /\ winRate s = 100.
Proof.
  apply (proj2 every_game_is_won 1%nat
           (stats (final (play Computer [] [] GameStats_init)))).
  - apply recorded_game; [apply recorded_zero|].
    rewrite play_Computer, zeroGame_eq, (proj1 zeroGame_outcome).
    discriminate.
  - reflexivity.
Defined.


Lemma game_in_catalogue_order_Inv : Inv (game_in_catalogue_order 0).
Proof.
  constructor.
  - reflexivity.
  - cbn. lia.
  - reflexivity.
  - reflexivity.
  - cbn [remainingPrizes caseValues casesOpened game_in_catalogue_order].
    f_equal.
Qed.


(** * Further properties of the code *)

(** ** The decision and the offer *)

Lemma count_above_antitone (values : list R) (offer offer' : R) :
  offer <= offer' ->
  (length (filter (fun prize => Rgtb prize offer') values)
   <= length (filter (fun prize => Rgtb prize offer) values))%nat.
Proof.
  intros Hle. induction values as [|x values IH]; [reflexivity|].
  cbn [filter].
  destruct (Rgtb x offer') eqn:E'; destruct (Rgtb x offer) eqn:E;
    cbn [length]; try lia.
  apply Rgtb_true_iff in E'. apply Rgtb_false_iff in E. lra.
Qed.

Lemma spec_riskFactor_antitone (values : list R) (offer offer' : R) :
  offer <= offer' ->
  spec_riskFactor values offer' <= spec_riskFactor values offer.
Proof.
  intros Hle. unfold spec_riskFactor, spec_probabilityPrizeExceedsOffer.
  pose proof (count_above_antitone values offer offer' Hle) as Hcount.
  apply le_INR in Hcount.
  assert (0 <= / INR (length values)).
  { destruct values as [|x values'].
    - simpl. rewrite Rinv_0. lra.
    - left. apply Rinv_0_lt_compat, lt_0_INR. simpl. lia. }
  unfold Rdiv. nra.
Qed.

(** The advisor that accepts an offer accepts every higher offer, for the
    same prizes and the same number of cases. *)
Theorem shouldAcceptDeal_monotone (prizes : list double) (offer offer' : double)
    (casesRemaining : Z) :
  offer <= offer' ->
  ComputerPlayer.shouldAcceptDeal prizes offer casesRemaining = true ->
  ComputerPlayer.shouldAcceptDeal prizes offer' casesRemaining = true.
Proof.
  intros Hle. destruct prizes as [|x prizes'] eqn:E; [reflexivity|].
  rewrite <- E. assert (Hne : prizes <> []) by (rewrite E; discriminate).
  rewrite !shouldAcceptDeal_tiers by assumption.
  destruct (casesRemaining >? 10)%Z;
    [rewrite !Rgeb_true_iff; lra|].
  destruct (casesRemaining >? 5)%Z;
    [rewrite !Rgeb_true_iff; lra|].
  rewrite !orb_true_iff, !Rgeb_true_iff, !Rltb_true_iff.
  pose proof (spec_riskFactor_antitone prizes offer offer' Hle).
  intros [H'|H']; [left | right]; lra.
Qed.

Lemma shouldAcceptDeal_monotone_witness :
  ComputerPlayer.shouldAcceptDeal [100; 200; 300] 195 15 = true.
Proof.
  apply (shouldAcceptDeal_monotone [100; 200; 300] 190 195 15).
  - lra.
  - rewrite shouldAcceptDeal_tiers by discriminate.
    cbn [Z.gtb Z.compare Pos.compare Pos.compare_cont].
    apply Rgeb_true_iff. unfold spec_mean; simpl. lra.
Defined.

(** Up to round 13, over prizes of at least one cent, the offer of the bank
    stays below 0.8 times the expected value.  So the advisor refuses it
    while more than 5 cases remain, and with 5 cases or fewer it accepts
    exactly when the risk factor is below 0.4. *)
Theorem bank_offer_decision (g : Game) (casesRemaining : Z) :
  remainingPrizes g <> [] ->
  Forall (fun prize => 0.01 <= prize) (remainingPrizes g) ->
  (round g <= 13)%Z ->
  calculateBankOffer g
  < ComputerPlayer.calculateExpectedValue (remainingPrizes g) * 0.8
  /\ ((5 < casesRemaining)%Z ->
      ComputerPlayer.shouldAcceptDeal (remainingPrizes g) (calculateBankOffer g)
        casesRemaining = false)
  /\ ((casesRemaining <= 5)%Z ->
      ComputerPlayer.shouldAcceptDeal (remainingPrizes g) (calculateBankOffer g)
        casesRemaining
      = Rltb (ComputerPlayer.calculateRiskFactor (remainingPrizes g)
                (calculateBankOffer g)) 0.4).
Proof.
  intros Hne Hall Hround.
  pose proof (spec_mean_lower 0.01 _ Hne Hall) as Hmean.
  assert (Hpct : spec_percentage (round g) <= 0.75).
  { apply IZR_le in Hround. unfold spec_percentage, Rmin.
    destruct (Rle_dec 0.9 (0.10 + 0.05 * IZR (round g))); lra. }
  assert (Hoffer : calculateBankOffer g < spec_mean (remainingPrizes g) * 0.8).
  { rewrite calculateBankOffer_product by assumption. nra. }
  rewrite expectedValue_mean, riskFactor_spec by assumption.
  split; [assumption|].
  rewrite shouldAcceptDeal_tiers by assumption.
  assert (H80 : Rgeb (calculateBankOffer g) (spec_mean (remainingPrizes g) * 0.8)
                = false) by (apply Rgeb_false_iff; lra).
  assert (H85 : Rgeb (calculateBankOffer g) (spec_mean (remainingPrizes g) * 0.85)
                = false) by (apply Rgeb_false_iff; lra).
  assert (H90 : Rgeb (calculateBankOffer g) (spec_mean (remainingPrizes g) * 0.9)
                = false) by (apply Rgeb_false_iff; lra).
  rewrite H80, H85, H90. split; intros Hcases.
  - destruct (casesRemaining >? 10)%Z; [reflexivity|].
    destruct (Z.gtb_spec casesRemaining 5); [reflexivity | lia].
  - destruct (Z.gtb_spec casesRemaining 10); [lia|].
    destruct (Z.gtb_spec casesRemaining 5); [lia|].
    apply orb_false_r.
Qed.

Lemma bank_offer_decision_witness :
  ComputerPlayer.shouldAcceptDeal
    (remainingPrizes (set_remainingPrizes [300; 200; 100]
                        (game_in_catalogue_order 0)))
    (calculateBankOffer (set_remainingPrizes [300; 200; 100]
                           (game_in_catalogue_order 0)))
    6 = false.
Proof.
  refine (proj1 (proj2 (bank_offer_decision
            (set_remainingPrizes [300; 200; 100] (game_in_catalogue_order 0))
            6 _ _ _)) _).
  - discriminate.
  - repeat (apply Forall_cons; [lra|]). apply Forall_nil.
  - cbn. lia.
  - lia.
Defined.

(** The offer does not decrease from one round to the next, never exceeds
    0.9 times the expected value, and is 0.9 times the expected value from
    round 16 on (prizes are not negative). *)
Theorem calculateBankOffer_progressive (g : Game) (r1 r2 : Z) :
  Forall (fun prize => 0 <= prize) (remainingPrizes g) ->
  (r1 <= r2)%Z ->
  calculateBankOffer (set_round r1 g) <= calculateBankOffer (set_round r2 g)
  /\ calculateBankOffer (set_round r2 g)
     <= ComputerPlayer.calculateExpectedValue (remainingPrizes g) * 0.9
  /\ ((16 <= r2)%Z ->
      calculateBankOffer (set_round r2 g)
      = ComputerPlayer.calculateExpectedValue (remainingPrizes g) * 0.9).
Proof.
  intros Hall Hle.
  destruct (remainingPrizes g) as [|x prizes'] eqn:E.
  { unfold calculateBankOffer. cbn [remainingPrizes set_round]. rewrite E.
    cbn [ComputerPlayer.calculateExpectedValue]. repeat split; lra. }
  assert (Hne : forall r, remainingPrizes (set_round r g) <> []).
  { intros r. cbn [remainingPrizes set_round]. rewrite E. discriminate. }
  rewrite !calculateBankOffer_product by apply Hne.
  cbn [remainingPrizes round set_round]. rewrite <- E in *.
  rewrite expectedValue_mean by (rewrite E; discriminate).
  assert (Hmean : 0 <= spec_mean (remainingPrizes g)).
  { apply spec_mean_lower; [rewrite E; discriminate | assumption]. }
  apply IZR_le in Hle.
  assert (Hmono : spec_percentage r1 <= spec_percentage r2 <= 0.9).
  { unfold spec_percentage, Rmin.
    destruct (Rle_dec 0.9 (0.10 + 0.05 * IZR r1));
      destruct (Rle_dec 0.9 (0.10 + 0.05 * IZR r2)); lra. }
  split; [nra|]. split; [nra|].
  intros H16. apply IZR_le in H16. unfold spec_percentage, Rmin.
  destruct (Rle_dec 0.9 (0.10 + 0.05 * IZR r2)); lra.
Qed.

Lemma calculateBankOffer_progressive_witness :
  calculateBankOffer (set_round 1 (game_in_catalogue_order 0))
  <= calculateBankOffer (set_round 2 (game_in_catalogue_order 0)).
Proof.
  refine (proj1 (calculateBankOffer_progressive (game_in_catalogue_order 0)
                   1 2 _ _)).
  - cbn [remainingPrizes game_in_catalogue_order].
    rewrite sort_reversed_perm.
    eapply Forall_impl; [|exact catalogue_positive].
    intros x Hx; simpl in Hx. lra.
  - lia.
Defined.

(** ** The statistics over several games *)

Lemma updateStats_fields (winnings : R) (s : GameStats) :
  ((- 2 ^ 31 <= gamesPlayed s < 2 ^ 31 - 1)%Z ->
   gamesPlayed (updateStats winnings s) = (gamesPlayed s + 1)%Z)
  /\ ((- 2 ^ 31 <= gamesWon s < 2 ^ 31 - 1)%Z ->
      gamesWon (updateStats winnings s)
      = (gamesWon s + if Rgtb winnings 0 then 1 else 0)%Z)
  /\ totalWinnings (updateStats winnings s) = totalWinnings s + winnings
  /\ bestWinning (updateStats winnings s) = Rmax (bestWinning s) winnings
  /\ averageWinning (updateStats winnings s)
     = totalWinnings (updateStats winnings s)
       / IZR (gamesPlayed (updateStats winnings s)).
Proof.
  unfold updateStats.
  cbn [gamesPlayed gamesWon totalWinnings bestWinning averageWinning].
  split; [intros Hbound; apply to_int_range; lia|].
  split; [intros Hbound; destruct (Rgtb winnings 0);
          [apply to_int_range|]; lia|].
  split; [reflexivity|]. split; [|reflexivity].
  unfold Rmax, Rgtb.
  destruct (Rlt_dec (bestWinning s) winnings);
    destruct (Rle_dec (bestWinning s) winnings); lra.
Qed.

(** After any number of games recorded with [updateStats], the counters
    staying below [2^31]: the games are counted, the games won are those
    with positive winnings, the winnings are added one after the other to
    the total, the best winning is at least every winning recorded and is
    the former best or one of them, and the average is the total over the
    number of games. *)
Theorem updateStats_accumulates (s : GameStats) (winnings : list R) :
  (- 2 ^ 31 <= gamesPlayed s)%Z ->
  (gamesPlayed s + Z.of_nat (length winnings) < 2 ^ 31)%Z ->
  (- 2 ^ 31 <= gamesWon s)%Z ->
  (gamesWon s + Z.of_nat (length winnings) < 2 ^ 31)%Z ->
  let s' := fold_left (fun acc w => updateStats w acc) winnings s in
  gamesPlayed s' = (gamesPlayed s + Z.of_nat (length winnings))%Z
  /\ gamesWon s'
     = (gamesWon s
        + Z.of_nat (length (filter (fun w => Rgtb w 0) winnings)))%Z
  /\ totalWinnings s' = fold_left Rplus winnings (totalWinnings s)
  /\ bestWinning s <= bestWinning s'
  /\ Forall (fun w => w <= bestWinning s') winnings
  /\ (bestWinning s' = bestWinning s \/ In (bestWinning s') winnings)
  /\ (winnings <> [] ->
      averageWinning s' = totalWinnings s' / IZR (gamesPlayed s')).
Proof.
  cbn zeta. revert s.
  induction winnings as [|w winnings IH]; intros s Hp Hplayed Hw Hwon.
  - cbn. repeat split; try lia; try lra; auto. congruence.
  - cbn [fold_left]. cbn [length] in Hplayed, Hwon.
    destruct (updateStats_fields w s) as (F1 & F2 & F3 & F4 & F5).
    specialize (F1 ltac:(lia)). specialize (F2 ltac:(lia)).
    assert (Hpositive : (0 <= (if Rgtb w 0 then 1 else 0) <= 1)%Z)
      by (destruct (Rgtb w 0); lia).
    destruct (IH (updateStats w s)) as (H1 & H2 & H3 & H4 & H5 & H6 & H7);
      try lia.
    rewrite F1 in H1. rewrite F2 in H2. rewrite F3 in H3.
    rewrite F4 in H4, H6.
    pose proof (Rmax_l (bestWinning s) w). pose proof (Rmax_r (bestWinning s) w).
    split; [rewrite H1; cbn [length]; lia|].
    split; [rewrite H2; cbn [filter]; destruct (Rgtb w 0); cbn [length]; lia|].
    split; [exact H3|].
    split; [lra|].
    split; [constructor; [lra | assumption]|].
    split.
    + destruct H6 as [H6|H6]; [|right; now right].
      rewrite H6. unfold Rmax. destruct (Rle_dec (bestWinning s) w);
        [right; now left | now left].
    + intros _. destruct winnings as [|w' winnings'].
      * cbn [fold_left]. exact F5.
      * apply H7. discriminate.
Qed.

Lemma updateStats_accumulates_witness :
  averageWinning (fold_left (fun acc w => updateStats w acc) [100; 0] GameStats_init)
  = totalWinnings (fold_left (fun acc w => updateStats w acc) [100; 0] GameStats_init)
    / IZR (gamesPlayed (fold_left (fun acc w => updateStats w acc) [100; 0]
                          GameStats_init)).
Proof.
  apply (updateStats_accumulates GameStats_init [100; 0]);
    [cbn; lia | cbn; lia | cbn; lia | cbn; lia | discriminate].
Defined.

(** ** What the human player types *)

(** [getValidInput] returns the first number typed that lies in
    [[min, max]], having skipped only numbers out of this range; it waits
    for ever exactly when no number typed lies in the range. *)
Theorem getValidInput_first (min max : Z) (entered : list Z) :
  (forall input later,
     getValidInput min max entered = Some (input, later)
     <-> exists skipped,
           entered = skipped ++ input :: later
           /\ Forall (outOfRange min max) skipped
           /\ (min <= input <= max)%Z)
  /\ (getValidInput min max entered = None
      <-> Forall (outOfRange min max) entered).
Proof.
  unfold outOfRange.
  induction entered as [|x entered [IHsome IHnone]]; cbn [getValidInput].
  - split.
    + intros input later. split; [discriminate|].
      intros (skipped & H & _). destruct skipped; discriminate.
    + split; [constructor | reflexivity].
  - destruct (Z.ltb_spec x min) as [Hlow|Hlow];
      [|destruct (Z.gtb_spec x max) as [Hhigh|Hhigh]]; cbn [orb].
    1,2: split;
      [intros input later; rewrite IHsome; split;
       [intros (skipped & -> & Hskipped & Hrange);
        exists (x :: skipped); repeat split; try lia;
        constructor; [lia | assumption]
       |intros (skipped & Heq & Hskipped & Hrange);
        destruct skipped as [|y skipped]; cbn [app] in Heq;
        injection Heq as -> ->; [lia|];
        inversion Hskipped; subst; exists skipped; repeat split;
        try assumption; lia]
      |rewrite IHnone; split;
       [intros H; constructor; [lia | assumption]
       |intros H; now inversion H]].
    split.
    + intros input later. split.
      * intros [= -> ->]. exists []. repeat split; try lia. constructor.
      * intros (skipped & Heq & Hskipped & Hrange).
        destruct skipped as [|y skipped]; cbn [app] in Heq;
          injection Heq as -> ->; [reflexivity|].
        inversion Hskipped; subst. lia.
    + split; [discriminate|]. intros H. inversion H; subst. lia.
Qed.

Lemma getValidInput_first_witness :
  getValidInput 1 26 [0; 27; 5; 6]%Z = Some (5%Z, [6%Z]).
Proof.
  apply (proj1 (getValidInput_first 1 26 [0; 27; 5; 6]%Z) 5%Z [6%Z]).
  exists [0; 27]%Z. split; [reflexivity|]. split; [|lia].
  unfold outOfRange. repeat (apply Forall_cons; [lia|]). apply Forall_nil.
Defined.

Lemma chooseCase_step (g : Game) (casesToOpen : list Z) (input : Z)
    (later : list Z) :
  (refusedChoice g casesToOpen input
   /\ chooseCase g casesToOpen (input :: later) = chooseCase g casesToOpen later)
  \/ (~ refusedChoice g casesToOpen input
      /\ chooseCase g casesToOpen (input :: later) = Some ((input - 1)%Z, later)).
Proof.
  unfold refusedChoice. cbn [chooseCase].
  destruct (Z.ltb_spec input 1); [left; split; [tauto | reflexivity]|].
  destruct (Z.gtb_spec input 26); [left; split; [tauto | reflexivity]|].
  cbn [orb].
  destruct (Z.eqb_spec (input - 1) (playerCase g));
    [left; split; [tauto | reflexivity]|].
  destruct (nth (Z.to_nat (input - 1)) (casesOpened g) false) eqn:Eopen;
    [left; split; [tauto | reflexivity]|].
  destruct (existsb (Z.eqb (input - 1)) casesToOpen) eqn:Eseen.
  - left. split; [|reflexivity]. do 4 right.
    apply existsb_exists in Eseen as (x & Hx & Heq).
    apply Z.eqb_eq in Heq. now subst.
  - right. split; [|reflexivity].
    intros [H'|[H'|[H'|[H'|H']]]]; try lia; try congruence.
    assert (existsb (Z.eqb (input - 1)) casesToOpen = true).
    { apply existsb_exists. exists (input - 1)%Z. split; [assumption|].
      apply Z.eqb_refl. }
    congruence.
Qed.

(** At a case prompt [playGame] takes the first number typed that names a
    closed case other than the player's and not yet selected in the round,
    having skipped only numbers that do not; it waits for ever exactly when
    no number typed names such a case. *)
Theorem chooseCase_first (g : Game) (casesToOpen entered : list Z) :
  (forall caseChoice later,
     chooseCase g casesToOpen entered = Some (caseChoice, later)
     <-> exists skipped,
           entered = skipped ++ (caseChoice + 1)%Z :: later
           /\ Forall (refusedChoice g casesToOpen) skipped
           /\ ~ refusedChoice g casesToOpen (caseChoice + 1))
  /\ (chooseCase g casesToOpen entered = None
      <-> Forall (refusedChoice g casesToOpen) entered).
Proof.
  induction entered as [|x entered [IHsome IHnone]].
  - split.
    + intros c later. split; [discriminate|].
      intros (skipped & H & _). destruct skipped; discriminate.
    + split; [constructor | reflexivity].
  - destruct (chooseCase_step g casesToOpen x entered) as [[Hx ->]|[Hx ->]].
    + split.
      * intros c later. rewrite IHsome. split.
        -- intros (skipped & -> & Hskipped & Hc).
           exists (x :: skipped). repeat split; try assumption.
           now constructor.
        -- intros (skipped & Heq & Hskipped & Hc).
           destruct skipped as [|y skipped]; cbn [app] in Heq;
             injection Heq as -> ->; [contradiction|].
           inversion Hskipped; subst. exists skipped. now repeat split.
      * rewrite IHnone. split; [now constructor | now inversion 1].
    + split.
      * intros c later. split.
        -- intros [= <- <-]. exists []. replace (x - 1 + 1)%Z with x by lia.
           repeat split; [constructor | assumption].
        -- intros (skipped & Heq & Hskipped & Hc).
           destruct skipped as [|y skipped]; cbn [app] in Heq;
             injection Heq as -> ->.
           ++ f_equal. f_equal. lia.
           ++ inversion Hskipped; subst. contradiction.
      * split; [discriminate|]. intros H. inversion H; subst. contradiction.
Qed.

Lemma chooseCase_first_witness :
  chooseCase (game_in_catalogue_order 0) [4%Z] [1; 5; 30; 7; 8]%Z
  = Some (6%Z, [8%Z]).
Proof.
  apply (proj1 (chooseCase_first (game_in_catalogue_order 0) [4%Z]
                  [1; 5; 30; 7; 8]%Z) 6%Z [8%Z]).
  exists [1; 5; 30]%Z. split; [reflexivity|]. split.
  - apply Forall_cons; [right; right; left; reflexivity|].
    apply Forall_cons; [do 4 right; now left|].
    apply Forall_cons; [right; left; lia|]. apply Forall_nil.
  - unfold refusedChoice. cbn.
    intros [H|[H|[H|[H|[H|[]]]]]]; (lia || discriminate).
Defined.

(** ** The selection of the computer *)

(** Asked for at least as many cases as are unopened, [selectCasesToOpen]
    returns every unopened case, each once. *)
Theorem selectCasesToOpen_everything (casesOpened : list bool) (numToOpen : Z)
    (ai : ComputerPlayer.t) :
  (Z.of_nat (length casesOpened) < 2 ^ 31)%Z ->
  (Z.of_nat (unopenedCount casesOpened) <= numToOpen)%Z ->
  Permutation (fst (ComputerPlayer.selectCasesToOpen casesOpened numToOpen ai))
              (ComputerPlayer.availableCases casesOpened)
  /\ forall id,
       In id (fst (ComputerPlayer.selectCasesToOpen casesOpened numToOpen ai))
       <-> (0 <= id < Z.of_nat (length casesOpened))%Z
           /\ nth (Z.to_nat id) casesOpened false = false.
Proof.
  intros Hsize Hall.
  assert (Hperm : Permutation
    (fst (ComputerPlayer.selectCasesToOpen casesOpened numToOpen ai))
    (ComputerPlayer.availableCases casesOpened)).
  { rewrite selectCasesToOpen_firstn by assumption.
    pose proof (shuffle_perm (ComputerPlayer.rng ai)
                  (ComputerPlayer.availableCases casesOpened)) as Hperm.
    rewrite firstn_all2; [assumption|].
    rewrite (Permutation_length Hperm), availableCases_length. lia. }
  split; [assumption|].
  intros id. rewrite <- availableCases_In.
  split; intros Hin; [now rewrite <- Hperm | now rewrite Hperm].
Qed.

Lemma selectCasesToOpen_everything_witness :
  Permutation
    (fst (ComputerPlayer.selectCasesToOpen [true; false; false] 5
            (ComputerPlayer.mk [7%nat])))
    (ComputerPlayer.availableCases [true; false; false]).
Proof.
  refine (proj1 (selectCasesToOpen_everything [true; false; false] 5
                   (ComputerPlayer.mk [7%nat]) _ _)).
  - cbn. lia.
  - cbn. lia.
Defined.

(** ** Opening cases *)

Lemma marked_keeps_open (ids : list Z) (g : Game) (j : nat) :
  nth j (casesOpened g) false = true ->
  nth j (casesOpened (marked ids g)) false = true.
Proof.
  revert g; induction ids as [|c ids IH]; intros g Hopen; [assumption|].
  rewrite casesOpened_marked_cons. apply IH.
  unfold marked. cbn [fold_left set_casesOpened casesOpened].
  destruct (Nat.eq_dec (Z.to_nat c) j) as [->|Hne].
  - apply nth_assign_same.
    destruct (Nat.lt_ge_cases j (length (casesOpened g))); [assumption|].
    rewrite nth_overflow in Hopen by assumption. discriminate.
  - now rewrite nth_assign_other.
Qed.

Lemma marked_opens (ids : list Z) (g : Game) (id : Z) :
  length (casesOpened g) = 26%nat ->
  Forall (fun c => (0 <= c < 26)%Z) ids -> (0 <= id < 26)%Z ->
  (nth (Z.to_nat id) (casesOpened (marked ids g)) false = true
   <-> nth (Z.to_nat id) (casesOpened g) false = true \/ In id ids).
Proof.
  intros Hlen Hids Hid. split.
  - intros Hopen. destruct (in_dec Z.eq_dec id ids) as [Hin|Hout]; [now right|].
    left. rewrite marked_other in Hopen; [assumption|].
    intros Hin. apply Hout. apply to_nat_in_map; [lia| |assumption].
    eapply Forall_impl; [|exact Hids]. intros c Hc; simpl in Hc. lia.
  - intros [Hopen|Hin]; [now apply marked_keeps_open|].
    revert g Hlen. induction ids as [|c ids IH]; intros g Hlen; [destruct Hin|].
    inversion Hids; subst. rewrite casesOpened_marked_cons.
    destruct Hin as [->|Hin].
    + apply marked_keeps_open. unfold marked.
      cbn [fold_left set_casesOpened casesOpened].
      apply nth_assign_same. lia.
    + apply IH; try assumption. now rewrite marked_length.
Qed.

Lemma openCases_loop_returns (batch : list Z) (g : Game) :
  length (casesOpened g) = 26%nat ->
  result (openCases_loop batch g) = Value tt -> openable g batch.
Proof.
  revert g; induction batch as [|c batch IH]; intros g Hlen Hres.
  - split; constructor.
  - rewrite openCases_loop_cons in Hres.
    assert (Hdec := offending_dec g c).
    destruct ((c <? 0)%Z || (c >=? 26)%Z) eqn:Erange; [discriminate|].
    destruct (nth (Z.to_nat c) (casesOpened g) false) eqn:Eopen; [discriminate|].
    cbn zeta in Hres. cbn [result] in Hres.
    assert (Hc : ~ offending g c).
    { intros H. apply Hdec in H. destruct H; discriminate. }
    destruct (IH (marked [c] g)) as [Hnodup Hok];
      [now rewrite marked_length | assumption |].
    assert (Hmarked : offending (marked [c] g) c).
    { right; right. unfold marked.
      cbn [fold_left set_casesOpened casesOpened]. apply nth_assign_same.
      apply not_offending_range in Hc. lia. }
    split.
    + constructor; [|assumption]. intros Hin.
      rewrite Forall_forall in Hok. exact (Hok c Hin Hmarked).
    + constructor; [assumption|].
      eapply Forall_impl; [|exact Hok]. intros id Hid Hoff.
      apply Hid. now apply offending_marked.
Qed.

(** [openCases] returns normally exactly when the batch names cases of
    [[0, 25]] that are closed, each once.  Then the cases open afterwards
    are those open before and those of the batch, the hidden-prize list is
    derived anew and is shorter by the size of the batch. *)
Theorem openCases_succeeds_iff (g : Game) (batch : list Z) :
  length (casesOpened g) = 26%nat ->
  (result (openCases batch g) = Value tt
   <-> NoDup batch
       /\ Forall (fun id => (0 <= id < 26)%Z
                            /\ nth (Z.to_nat id) (casesOpened g) false = false)
                 batch)
  /\ (result (openCases batch g) = Value tt ->
      (forall id, (0 <= id < 26)%Z ->
         (nth (Z.to_nat id) (casesOpened (final (openCases batch g))) false = true
          <-> nth (Z.to_nat id) (casesOpened g) false = true \/ In id batch))
      /\ remainingPrizes (final (openCases batch g))
         = sort_reversed
             (unopenedValues (caseValues g)
                             (casesOpened (final (openCases batch g))))
      /\ (length (remainingPrizes (final (openCases batch g))) + length batch)%nat
         = unopenedCount (casesOpened g)).
Proof.
  intros Hlen.
  assert (Hiff : openable g batch
    <-> NoDup batch
        /\ Forall (fun id => (0 <= id < 26)%Z
                   /\ nth (Z.to_nat id) (casesOpened g) false = false) batch).
  { unfold openable. split; intros [Hnodup Hok]; (split; [assumption|]);
      (eapply Forall_impl; [|exact Hok]); intros id Hid.
    - now apply not_offending_range.
    - destruct Hid as [Hrange Hclosed]. unfold offending. rewrite Hclosed.
      intros [H|[H|H]]; (lia || discriminate). }
  assert (Hreturns : result (openCases batch g) = Value tt -> openable g batch).
  { intros Hres. apply openCases_loop_returns; [assumption|].
    unfold openCases in Hres. rewrite result_bind in Hres.
    destruct (result (openCases_loop batch g)) as [[]| |];
      [reflexivity | discriminate | discriminate]. }
  split.
  - rewrite <- Hiff. split; [exact Hreturns|].
    intros Hopen. now destruct (openCases_run_openable batch g Hopen).
  - intros Hres. specialize (Hreturns Hres).
    destruct (openCases_run_openable batch g Hreturns) as (_ & -> & _).
    unfold refreshed. cbn [casesOpened remainingPrizes set_remainingPrizes].
    split; [|split].
    + intros id Hid. apply marked_opens; try assumption.
      apply Hiff in Hreturns as [_ Hok].
      eapply Forall_impl; [|exact Hok]. now intros c [Hc _].
    + reflexivity.
    + rewrite (Permutation_length (sort_reversed_perm _)).
      rewrite unopenedValues_length by (now rewrite marked_length).
      now apply unopenedCount_marked.
Qed.

Lemma openCases_succeeds_iff_witness :
  result (openCases [3; 7]%Z (game_in_catalogue_order 0)) = Value tt.
Proof.
  apply (proj1 (openCases_succeeds_iff (game_in_catalogue_order 0) [3; 7]%Z
                  eq_refl)).
  split.
  - repeat (constructor; [cbn [In]; intros Hin;
      repeat (destruct Hin as [Hin|Hin]; [discriminate|]); exact Hin|]).
    constructor.
  - repeat (apply Forall_cons; [split; [lia | reflexivity]|]). apply Forall_nil.
Defined.

(** Whether it returns or throws, [openCases] closes no case: a case open
    before is open after.  It changes nothing but the opened-set and the
    hidden-prize list. *)
Theorem openCases_only_opens (g : Game) (batch : list Z) :
  let g' := final (openCases batch g) in
  (forall i, nth i (casesOpened g) false = true ->
             nth i (casesOpened g') false = true)
  /\ length (casesOpened g') = length (casesOpened g)
  /\ caseValues g' = caseValues g /\ allPrizes g' = allPrizes g
  /\ playerCase g' = playerCase g /\ round g' = round g
  /\ finalWinning g' = finalWinning g /\ stats g' = stats g
  /\ rng g' = rng g /\ aiPlayer g' = aiPlayer g.
Proof.
  cbn zeta.
  assert (Hshape : exists ids,
            final (openCases batch g) = marked ids g
            \/ final (openCases batch g) = refreshed (marked ids g)).
  { destruct (openCases_loop_outcome batch g)
      as [[Hres Hfin]|(why & before & refused & after & _ & Hres & Hfin)].
    - exists batch. right. unfold openCases. rewrite final_bind, Hres, Hfin.
      now rewrite updateRemainingPrizes_run.
    - exists before. left.
      now rewrite (openCases_thrown _ _ _ Hres). }
  destruct Hshape as [ids [-> | ->]].
  - split; [intros i; apply marked_keeps_open|].
    split; [apply marked_length|]. repeat split.
  - split; [intros i; apply (marked_keeps_open ids g)|].
    split; [apply (marked_length ids g)|]. repeat split.
Qed.

Lemma openCases_only_opens_witness :
  nth 3 (casesOpened (final (openCases [5; 3]%Z
                               (marked [3%Z] (game_in_catalogue_order 0)))))
      false = true.
Proof.
  apply (proj1 (openCases_only_opens (marked [3%Z] (game_in_catalogue_order 0))
                  [5; 3]%Z) 3%nat).
  reflexivity.
Defined.

(** ** The prizes and their shuffle *)

Lemma catalogue_increasing : StronglySorted Rlt catalogue.
Proof.
  apply Sorted_StronglySorted; [intros x y z; apply Rlt_trans|].
  unfold catalogue.
  repeat (apply Sorted_cons; [|first [apply HdRel_cons; lra | apply HdRel_nil]]).
  apply Sorted_nil.
Qed.

Lemma increasing_NoDup (l : list R) : StronglySorted Rlt l -> NoDup l.
Proof.
  induction 1 as [|x l Hl IH Hx]; constructor; [|assumption].
  intros Hin. rewrite Forall_forall in Hx. specialize (Hx x Hin). lra.
Qed.

Lemma descending_unique (l1 l2 : list R) :
  StronglySorted Rge l1 -> StronglySorted Rge l2 -> Permutation l1 l2 ->
  l1 = l2.
Proof.
  intros H1. revert l2. induction H1 as [|x l1 Hl1 IH Hx]; intros l2 H2 Hperm.
  - apply Permutation_nil in Hperm. now subst.
  - destruct H2 as [|y l2 Hl2 Hy].
    + apply Permutation_sym, Permutation_nil in Hperm. discriminate.
    + assert (Hxy : x = y).
      { rewrite Forall_forall in Hx, Hy.
        assert (Hinx : In x (y :: l2)) by (rewrite <- Hperm; now left).
        assert (Hiny : In y (x :: l1)) by (rewrite Hperm; now left).
        destruct Hinx as [->|Hinx]; [reflexivity|].
        destruct Hiny as [->|Hiny]; [reflexivity|].
        specialize (Hx y Hiny). specialize (Hy x Hinx). lra. }
      subst y. f_equal. apply IH; [assumption|].
      now apply Permutation_cons_inv in Hperm.
Qed.

Lemma catalogue_descending : StronglySorted Rge (rev catalogue).
Proof.
  pose proof (StronglySorted_rev Rlt _ catalogue_increasing) as H.
  induction H as [|y l Hl IH Hy]; constructor; auto.
  eapply Forall_impl; [|exact Hy]. intros z Hz; simpl in Hz. lra.
Qed.

Lemma unopenedValues_all_closed (values : list R) :
  length values = 26%nat ->
  unopenedValues values (repeat false 26) = values.
Proof.
  intros Hlen. rewrite unopenedValues_eq.
  rewrite (filter_ext_in _ (fun _ => true)).
  - rewrite filter_everything. rewrite <- Hlen at 1.
    rewrite map_nth_seq_firstn by lia. apply firstn_all.
  - intros i Hi. now rewrite nth_repeat.
Qed.

(** [shufflePrizes] deals the 26 prizes of the catalogue to the 26 cases,
    one each, and closes every case; the hidden-prize list is then the
    catalogue in descending order, whatever the shuffle.  The player's
    case, the round and the statistics are as before. *)
Theorem shufflePrizes_deals (g : Game) :
  allPrizes g = catalogue ->
  let g' := final (shufflePrizes g) in
  result (shufflePrizes g) = Value tt
  /\ Permutation (caseValues g') catalogue
  /\ NoDup (caseValues g')
  /\ casesOpened g' = repeat false 26
  /\ remainingPrizes g' = rev catalogue
  /\ playerCase g' = playerCase g /\ round g' = round g /\ stats g' = stats g.
Proof.
  intros Hall. cbn zeta.
  pose proof (shuffle_perm (rng g) (allPrizes g)) as Hperm.
  rewrite Hall in Hperm at 2.
  destruct (shufflePrizes_fields g) as (Hplayer & _ & Hround & Hstats).
  pose proof (shufflePrizes_casesOpened g) as Hopened.
  assert (Hvalues : caseValues (final (shufflePrizes g))
                    = fst (shuffle (rng g) (allPrizes g)))
    by (rewrite shufflePrizes_run; reflexivity).
  assert (Hhidden : remainingPrizes (final (shufflePrizes g))
                    = sort_reversed (unopenedValues
                        (fst (shuffle (rng g) (allPrizes g))) (repeat false 26)))
    by (rewrite shufflePrizes_run; reflexivity).
  split; [rewrite shufflePrizes_run; reflexivity|].
  rewrite Hvalues, Hhidden.
  split; [assumption|].
  split.
  { eapply Permutation_NoDup; [symmetry; exact Hperm|].
    apply increasing_NoDup, catalogue_increasing. }
  split; [assumption|].
  split; [|now repeat split].
  rewrite unopenedValues_all_closed
    by (now rewrite (Permutation_length Hperm)).
  apply descending_unique.
  - apply sort_reversed_descending.
  - apply catalogue_descending.
  - rewrite sort_reversed_perm, Hperm. apply Permutation_rev.
Qed.

Lemma shufflePrizes_deals_witness :
  remainingPrizes (final (shufflePrizes (newGame [3; 1; 4]%nat [] GameStats_init)))
  = rev catalogue.
Proof.
  refine (proj1 (proj2 (proj2 (proj2 (proj2
    (shufflePrizes_deals (newGame [3; 1; 4]%nat [] GameStats_init) _)))))).
  reflexivity.
Defined.

(** ** The course of a game *)

Lemma final_try_catch {A : Type} (m : M A) (handler : GameException -> M A)
    (g : Game) :
  final (try_catch m handler g)
  = match result (m g) with
    | Thrown e => final (handler e (final (m g)))
    | _ => final (m g)
    end.
Proof. unfold try_catch. destruct (result (m g)); reflexivity. Qed.

(** The game when the first round begins. *)
Lemma first_round_state (g : Game) :
  allPrizes g = catalogue -> (0 <= playerCase g < 26)%Z ->
  let gs := set_round 1 (final (shufflePrizes g)) in
  Inv gs /\ round gs = 1%Z /\ length (remainingPrizes gs) = 26%nat
  /\ playerCase gs = playerCase g /\ stats gs = stats g.
Proof.
  intros Hall Hplayer gs.
  pose proof (shuffle_perm (rng g) (allPrizes g)) as Hperm.
  rewrite Hall in Hperm at 2.
  destruct (shufflePrizes_fields g) as (Hp & _ & _ & Hstats).
  pose proof (shufflePrizes_casesOpened g) as Hopened.
  assert (Hvalues : caseValues (final (shufflePrizes g))
                    = fst (shuffle (rng g) (allPrizes g)))
    by (rewrite shufflePrizes_run; reflexivity).
  rewrite <- Hvalues in Hperm. clear Hvalues.
  assert (Hderived : remainingPrizes (final (shufflePrizes g))
            = sort_reversed (unopenedValues (caseValues (final (shufflePrizes g)))
                               (casesOpened (final (shufflePrizes g)))))
    by (rewrite shufflePrizes_run; reflexivity).
  subst gs. revert Hperm Hopened Hp Hstats Hderived.
  generalize (final (shufflePrizes g)).
  intros g' Hperm Hopened Hp Hstats Hderived.
  assert (HInv : Inv (set_round 1 g')).
  { apply (Inv_ext g' (set_round 1 g') eq_refl eq_refl eq_refl eq_refl).
    constructor.
    - rewrite Hopened. apply repeat_length.
    - now rewrite Hp.
    - rewrite Hopened. apply nth_repeat.
    - assumption.
    - assumption. }
  split; [exact HInv|]. split; [reflexivity|].
  split; [|split; assumption].
  rewrite (Inv_hidden_length _ HInv).
  cbn [casesOpened set_round]. rewrite Hopened. reflexivity.
Qed.

Lemma computerRounds_counted (schedule : list Z) :
  forall g : Game,
  Inv g -> Forall (fun roundCases => (0 <= roundCases)%Z) schedule ->
  (2 + scheduled schedule <= length (remainingPrizes g))%nat ->
  computerRoundsPost (round g) schedule
    (result (computerRounds schedule g)) (final (computerRounds schedule g)).
Proof.
  induction schedule as [|roundCases schedule IH];
    intros g HInv Hnonneg Henough.
  - cbn [computerRounds ret result final]. split; [assumption|].
    cbn [length scheduled fold_right] in *. split; lia.
  - inversion Hnonneg as [|? ? Hrc Hnonneg']; subst.
    cbn [computerRounds]. rewrite result_bind, final_bind.
    cbn [get result final].
    cbn [scheduled fold_right] in Henough. fold (scheduled schedule) in Henough.
    destruct (Nat.leb_spec (length (remainingPrizes g)) 1); [lia|].
    pose proof (computer_batch_openable g roundCases (inv_opened g HInv))
      as [Hopen Hnotin].
    pose proof (selection_facts (casesOpened g) roundCases (aiPlayer g)) as Hsel.
    destruct (ComputerPlayer.selectCasesToOpen (casesOpened g) roundCases
                (aiPlayer g)) as [selected ai'].
    cbn [fst] in Hopen, Hnotin, Hsel.
    destruct Hsel as (Hnodup & _ & Hlen);
      [rewrite (inv_opened g HInv); simpl; lia|].
    set (batch := erase_remove (playerCase g) selected) in *.
    assert (Hbatch : (length batch <= Z.to_nat roundCases)%nat).
    { destruct (erase_remove_length (playerCase g) selected Hnodup) as [Hin Hout].
      fold batch in Hin, Hout.
      destruct (in_dec Z.eq_dec (playerCase g) selected) as [Hyes|Hno].
      - specialize (Hin Hyes). lia.
      - specialize (Hout Hno). lia. }
    set (g0 := set_aiPlayer ai' g).
    assert (HInv0 : Inv g0)
      by exact (Inv_ext g g0 eq_refl eq_refl eq_refl eq_refl HInv).
    destruct (openCases_run_openable batch g0 Hopen) as (Hres & Hfin & _).
    destruct (Inv_marked g0 batch HInv0 Hopen Hnotin) as [HInv1 Hcount].
    change (remainingPrizes g0) with (remainingPrizes g) in Hcount.
    assert (Hround1 : round (refreshed (marked batch g0)) = round g)
      by reflexivity.
    revert Hfin HInv1 Hcount Hround1.
    generalize (refreshed (marked batch g0)).
    intros g1 Hfin HInv1 Hcount Hround1.
    rewrite result_bind, final_bind. cbn [modify result final].
    fold g0. rewrite !result_bind, !final_bind, Hres, Hfin.
    cbn [get result final].
    destruct (Nat.leb_spec (length (remainingPrizes g1)) 1); [lia|].
    destruct (ComputerPlayer.shouldAcceptDeal (remainingPrizes g1)
                (calculateBankOffer g1)
                (to_int (Z.of_nat (length (remainingPrizes g1))))) eqn:Eaccept.
    + rewrite deal_run. cbn [result final].
      split; [eapply Inv_ext; [| | | |exact HInv1]; reflexivity|].
      exists 0%nat. cbn [length skipn].
      split; [lia|]. split; [cbn [round set_stats set_finalWinning]; lia|].
      split; [cbn [remainingPrizes set_stats set_finalWinning]; lia|].
      split; [reflexivity | exact Eaccept].
    + rewrite result_bind, final_bind. cbn [modify result final].
      assert (HInv2 : Inv (set_round (round g1 + 1) g1))
        by (eapply Inv_ext; [| | | |exact HInv1]; reflexivity).
      specialize (IH (set_round (round g1 + 1) g1) HInv2 Hnonneg').
      cbn [round remainingPrizes set_round] in IH.
      specialize (IH ltac:(lia)).
      revert IH.
      generalize (result (computerRounds schedule (set_round (round g1 + 1) g1)))
                 (final (computerRounds schedule (set_round (round g1 + 1) g1))).
      intros res gf [HInvf Hpost]. split; [assumption|].
      destruct res as [[|]| |]; try contradiction.
      * destruct Hpost as (k & Hk & Hroundf & Hfloor & Hpayout & Haccept).
        exists (S k). cbn [length]. split; [lia|]. split; [lia|].
        split; [exact Hfloor|]. split; assumption.
      * cbn [length]. destruct Hpost as [Hroundf Hleft]. split; lia.
Qed.

Lemma uniform_int_range (lo hi : Z) (g : Rng) :
  (lo <= hi)%Z -> (lo <= fst (uniform_int lo hi g) <= hi)%Z.
Proof.
  intros Hle. unfold uniform_int. destruct (next g) as [d g']. cbn [fst].
  pose proof (Z.mod_pos_bound (Z.of_nat d) (hi - lo + 1)). lia.
Qed.

(** [computerPlay], in terms of its loop. *)
Lemma computerPlay_run (g : Game) :
  let g' := let (chosen, rng') := uniform_int 0 25 (rng g) in
            set_rng rng' (set_playerCase chosen g) in
  let rounds :=
    computerRounds casesToOpenPerRound (set_round 1 (final (shufflePrizes g'))) in
  result (computerPlay g)
  = match result rounds with
    | Value DealMade => Value Deal
    | Value NoMoreRounds => Value FinalReveal
    | Thrown e => Value (GameError e)
    | Waiting => Waiting
    end
  /\ final (computerPlay g)
     = match result rounds with
       | Value NoMoreRounds => final (finalReveal (final rounds))
       | _ => final rounds
       end.
Proof.
  intros g' rounds.
  assert (Hshuffle : result (shufflePrizes g') = Value tt)
    by (rewrite shufflePrizes_run; reflexivity).
  unfold computerPlay. rewrite result_try_catch, final_try_catch.
  rewrite result_bind, final_bind. cbn [modify result final]. fold g'.
  rewrite result_bind, final_bind, Hshuffle.
  rewrite result_bind, final_bind. cbn [modify result final].
  rewrite result_bind, final_bind. fold rounds.
  destruct (result rounds) as [[|]| |]; split; reflexivity.
Qed.

Lemma deal_only_late (g : Game) :
  Inv g -> (round g <= 13)%Z ->
  ComputerPlayer.shouldAcceptDeal (remainingPrizes g) (calculateBankOffer g)
    (to_int (Z.of_nat (length (remainingPrizes g)))) = true ->
  (length (remainingPrizes g) <= 5)%nat.
Proof.
  intros HInv Hround Haccept.
  assert (Hle : (length (remainingPrizes g) <= 26)%nat).
  { rewrite (Inv_hidden_length g HInv).
    pose proof (opened_unopened_count (casesOpened g)).
    rewrite (inv_opened g HInv) in *. lia. }
  rewrite to_int_small in Haccept by lia.
  destruct (Nat.le_gt_cases (length (remainingPrizes g)) 5) as [|Hmany];
    [assumption|].
  assert (Hne : remainingPrizes g <> []).
  { intros E. rewrite E in Hmany. cbn in Hmany. lia. }
  rewrite shouldAcceptDeal_tiers in Haccept by assumption.
  pose proof (spec_mean_lower 0.01 _ Hne (Inv_hidden_positive g HInv)) as Hmean.
  assert (Hpct : spec_percentage (round g) <= 0.75).
  { apply IZR_le in Hround. unfold spec_percentage, Rmin.
    destruct (Rle_dec 0.9 (0.10 + 0.05 * IZR (round g))); lra. }
  assert (Hoffer : calculateBankOffer g < spec_mean (remainingPrizes g) * 0.8).
  { rewrite calculateBankOffer_product by assumption. nra. }
  destruct (Z.gtb_spec (Z.of_nat (length (remainingPrizes g))) 10).
  - apply Rgeb_true_iff in Haccept. lra.
  - destruct (Z.gtb_spec (Z.of_nat (length (remainingPrizes g))) 5); [|lia].
    apply Rgeb_true_iff in Haccept. lra.
Qed.

(** The loop of [computerPlay], as a game reaches it. *)
Lemma computerPlay_loop (g : Game) :
  allPrizes g = catalogue ->
  exists gs : Game,
    let rounds := computerRounds casesToOpenPerRound gs in
    computerRoundsPost 1 casesToOpenPerRound (result rounds) (final rounds)
    /\ result (computerPlay g)
       = match result rounds with
         | Value DealMade => Value Deal
         | Value NoMoreRounds => Value FinalReveal
         | Thrown e => Value (GameError e)
         | Waiting => Waiting
         end
    /\ final (computerPlay g)
       = match result rounds with
         | Value NoMoreRounds => final (finalReveal (final rounds))
         | _ => final rounds
         end.
Proof.
  intros Hall.
  destruct (computerPlay_run g) as [Hres Hfin]. cbn zeta in Hres, Hfin.
  set (g' := let (chosen, rng') := uniform_int 0 25 (rng g) in
             set_rng rng' (set_playerCase chosen g)) in *.
  assert (Hall' : allPrizes g' = catalogue).
  { subst g'. destruct (uniform_int 0 25 (rng g)). exact Hall. }
  assert (Hplayer : (0 <= playerCase g' < 26)%Z).
  { subst g'. pose proof (uniform_int_range 0 25 (rng g) ltac:(lia)).
    destruct (uniform_int 0 25 (rng g)). cbn [fst] in *.
    cbn [playerCase set_rng set_playerCase]. lia. }
  destruct (first_round_state g' Hall' Hplayer) as (HInv & Hround & Hhidden & _).
  revert Hres Hfin HInv Hround Hhidden.
  generalize (set_round 1 (final (shufflePrizes g'))).
  intros gs Hres Hfin HInv Hround Hhidden.
  exists gs. cbn zeta. split; [|split; assumption].
  pose proof (computerRounds_counted casesToOpenPerRound gs HInv) as Hpost.
  rewrite Hround in Hpost. apply Hpost.
  - unfold casesToOpenPerRound. repeat (apply Forall_cons; [lia|]).
    apply Forall_nil.
  - rewrite Hhidden. cbn. lia.
Qed.

(** A game of the computer ends. *)
Lemma computerPlay_ends (g : Game) :
  allPrizes g = catalogue ->
  result (computerPlay g) = Value Deal
  \/ result (computerPlay g) = Value FinalReveal.
Proof.
  intros Hall.
  destruct (computerPlay_loop g Hall) as (gs & Hpost & Hres & _).
  cbn zeta in Hpost, Hres. rewrite Hres. revert Hpost.
  generalize (result (computerRounds casesToOpenPerRound gs))
             (final (computerRounds casesToOpenPerRound gs)).
  intros res gf [_ Hpost].
  destruct res as [[|]| |]; try contradiction; [left | right]; reflexivity.
Qed.

(** A game of the computer always ends, by a deal or by the final reveal:
    it throws nothing and waits for nothing.  It ends by the final reveal
    only after nine refused offers, the loop being never left by [break].
    It ends by a deal only from round 6 on, with 2 to 5 cases hidden, and
    the payout is the offer of that round. *)
Theorem computerPlay_course (g : Game) :
  allPrizes g = catalogue ->
  let r := computerPlay g in
  match result r with
  | Value Deal =>
      (6 <= round (final r) <= 9)%Z
      /\ (2 <= length (remainingPrizes (final r)) <= 5)%nat
      /\ finalWinning (final r) = calculateBankOffer (final r)
  | Value FinalReveal =>
      round (final r) = 10%Z
      /\ (2 <= length (remainingPrizes (final r)))%nat
      /\ finalWinning (final r)
         = nth (Z.to_nat (playerCase (final r))) (caseValues (final r)) 0
  | Value (GameError _) | Thrown _ | Waiting => False
  end.
Proof.
  intros Hall r. subst r.
  destruct (computerPlay_loop g Hall) as (gs & Hpost & Hres & Hfin).
  cbn zeta in Hpost, Hres, Hfin. rewrite Hres, Hfin. clear Hres Hfin.
  revert Hpost.
  generalize (result (computerRounds casesToOpenPerRound gs))
             (final (computerRounds casesToOpenPerRound gs)).
  intros res gf [HInvf Hpost].
  destruct res as [[|]| |]; try contradiction.
  - destruct Hpost as (k & Hk & Hroundf & Hfloor & Hpayout & Haccept).
    cbn [casesToOpenPerRound length] in Hk.
    apply deal_only_late in Haccept; [|assumption|lia].
    assert (Hk5 : (5 <= k)%nat).
    { destruct k as [|[|[|[|[|k]]]]]; cbn in Hfloor; lia. }
    split; [lia|]. split; [|assumption].
    pose proof (scheduled (skipn (S k) casesToOpenPerRound)). lia.
  - destruct Hpost as [Hroundf Hleft]. rewrite finalReveal_run. cbn zeta.
    cbn [final round remainingPrizes finalWinning playerCase caseValues
         set_stats set_finalWinning].
    split; [rewrite Hroundf; reflexivity|]. split; [assumption | reflexivity].
Qed.

Lemma computerPlay_course_witness :
  let r := computerPlay (newGame [3; 1; 4]%nat [1; 5; 9]%nat GameStats_init) in
  match result r with
  | Value Deal =>
      (6 <= round (final r) <= 9)%Z
      /\ (2 <= length (remainingPrizes (final r)) <= 5)%nat
      /\ finalWinning (final r) = calculateBankOffer (final r)
  | Value FinalReveal =>
      round (final r) = 10%Z
      /\ (2 <= length (remainingPrizes (final r)))%nat
      /\ finalWinning (final r)
         = nth (Z.to_nat (playerCase (final r))) (caseValues (final r)) 0
  | Value (GameError _) | Thrown _ | Waiting => False
  end.
Proof.
  apply (computerPlay_course
           (newGame [3; 1; 4]%nat [1; 5; 9]%nat GameStats_init)).
  reflexivity.
Defined.

Lemma playRounds_counted (schedule : list Z) :
  forall (entered : list Z) (answers : list bool) (g : Game),
  Inv g ->
  (2 + scheduled schedule <= length (remainingPrizes g))%nat ->
  playRoundsPost (round g) (length (remainingPrizes g)) schedule answers
    (result (playRounds schedule entered answers g))
    (final (playRounds schedule entered answers g)).
Proof.
  induction schedule as [|roundCases schedule IH];
    intros entered answers g HInv Henough.
  - cbn [playRounds ret result final]. split; [assumption|].
    cbn [length scheduled fold_right firstn repeat].
    split; [reflexivity|]. split; lia.
  - cbn [playRounds]. rewrite result_bind, final_bind.
    cbn [get result final].
    cbn [scheduled fold_right] in Henough. fold (scheduled schedule) in Henough.
    destruct (Nat.leb_spec (length (remainingPrizes g)) 1); [lia|].
    destruct (chooseCases (Z.to_nat roundCases) g [] entered)
      as [[batch entered']|] eqn:Echoose;
      [|cbn [wait result final]; split; [assumption | exact I]].
    apply chooseCases_Some in Echoose as (Hopen & Hnotin & Hlen);
      [|split; [apply NoDup_nil | apply Forall_nil]|intros []].
    cbn [length] in Hlen.
    destruct (openCases_run_openable batch g Hopen) as (Hres & Hfin & _).
    destruct (Inv_marked g batch HInv Hopen Hnotin) as [HInv1 Hcount].
    assert (Hround1 : round (refreshed (marked batch g)) = round g)
      by reflexivity.
    revert Hfin HInv1 Hcount Hround1.
    generalize (refreshed (marked batch g)).
    intros g1 Hfin HInv1 Hcount Hround1.
    rewrite result_bind, final_bind, Hres, Hfin.
    rewrite result_bind, final_bind. cbn [get result final].
    destruct (Nat.leb_spec (length (remainingPrizes g1)) 1); [lia|].
    destruct answers as [|[|] answers'].
    + cbn [wait result final]. split; [assumption | exact I].
    + rewrite deal_run. cbn [result final].
      split; [eapply Inv_ext; [| | | |exact HInv1]; reflexivity|].
      exists 0%nat. cbn [length firstn repeat app scheduled fold_right].
      split; [lia|]. split; [reflexivity|].
      split; [cbn [round set_stats set_finalWinning]; lia|].
      split; [cbn [remainingPrizes set_stats set_finalWinning]; lia|].
      reflexivity.
    + rewrite result_bind, final_bind. cbn [modify result final].
      assert (HInv2 : Inv (set_round (round g1 + 1) g1))
        by (eapply Inv_ext; [| | | |exact HInv1]; reflexivity).
      specialize (IH entered' answers' (set_round (round g1 + 1) g1) HInv2).
      cbn [round remainingPrizes set_round] in IH.
      specialize (IH ltac:(lia)).
      revert IH.
      generalize
        (result (playRounds schedule entered' answers'
                   (set_round (round g1 + 1) g1)))
        (final (playRounds schedule entered' answers'
                  (set_round (round g1 + 1) g1))).
      intros res gf [HInvf Hpost]. split; [assumption|].
      destruct res as [[|]| |]; try contradiction; [| |exact I].
      * destruct Hpost as (k & Hk & Hanswers & Hroundf & Hleft & Hpayout).
        exists (S k). cbn [length]. split; [lia|].
        split; [change (firstn (S (S k)) (false :: answers'))
                  with (false :: firstn (S k) answers');
                rewrite Hanswers; reflexivity|].
        split; [lia|]. split; [|assumption].
        change (firstn (S (S k)) (roundCases :: schedule))
          with (roundCases :: firstn (S k) schedule).
        cbn [scheduled fold_right]. fold (scheduled (firstn (S k) schedule)).
        lia.
      * destruct Hpost as (Hanswers & Hroundf & Hleft).
        cbn [length firstn repeat]. rewrite Hanswers.
        cbn [scheduled fold_right]. fold (scheduled schedule).
        split; [reflexivity|]. split; lia.
Qed.

(** [playGame], in terms of its loop. *)
Lemma playGame_run (entered entered' : list Z) (answers : list bool)
    (input : Z) (g : Game) :
  getValidInput 1 26 entered = Some (input, entered') ->
  let rounds :=
    playRounds casesToOpenPerRound entered' answers
      (set_round 1 (final (shufflePrizes (set_playerCase (input - 1) g)))) in
  result (playGame entered answers g)
  = match result rounds with
    | Value DealMade => Value Deal
    | Value NoMoreRounds => Value FinalReveal
    | Thrown e => Value (GameError e)
    | Waiting => Waiting
    end
  /\ final (playGame entered answers g)
     = match result rounds with
       | Value NoMoreRounds => final (finalReveal (final rounds))
       | _ => final rounds
       end.
Proof.
  intros Hinput rounds.
  assert (Hshuffle : result (shufflePrizes (set_playerCase (input - 1) g))
                     = Value tt)
    by (rewrite shufflePrizes_run; reflexivity).
  unfold playGame. rewrite Hinput, result_try_catch, final_try_catch.
  rewrite result_bind, final_bind. cbn [modify result final].
  rewrite result_bind, final_bind, Hshuffle.
  rewrite result_bind, final_bind. cbn [modify result final].
  rewrite result_bind, final_bind. fold rounds.
  destruct (result rounds) as [[|]| |]; split; reflexivity.
Qed.

(** A game of the human player, on a game object whose catalogue is
    initialised, throws nothing; it ends, or waits for input for ever.  It
    ends by a deal in round [k + 1] exactly when the first [k] answers are
    "no" and the next one is "yes"; the round counter is then [k + 1], the
    cases that the first [k + 1] rounds of the schedule ask for are open and
    the others hidden, and the payout is the offer of that round.  It ends by
    the final reveal only after nine answers "no", with the round counter at
    10 and exactly 2 cases hidden: the loop is never left by [break]. *)
Theorem playGame_course (entered : list Z) (answers : list bool) (g : Game) :
  allPrizes g = catalogue ->
  let r := playGame entered answers g in
  match result r with
  | Value Deal =>
      exists k, (k < 9)%nat
        /\ firstn (S k) answers = repeat false k ++ [true]
        /\ round (final r) = (1 + Z.of_nat k)%Z
        /\ (length (remainingPrizes (final r))
            + scheduled (firstn (S k) casesToOpenPerRound) = 26)%nat
        /\ finalWinning (final r) = calculateBankOffer (final r)
  | Value FinalReveal =>
      firstn 9 answers = repeat false 9
      /\ round (final r) = 10%Z
      /\ length (remainingPrizes (final r)) = 2%nat
      /\ finalWinning (final r)
         = nth (Z.to_nat (playerCase (final r))) (caseValues (final r)) 0
  | Value (GameError _) | Thrown _ => False
  | Waiting => True
  end.
Proof.
  intros Hall r. subst r.
  destruct (getValidInput 1 26 entered) as [[input entered']|] eqn:Hinput;
    [|unfold playGame; rewrite Hinput; exact I].
  destruct (playGame_run entered entered' answers input g Hinput)
    as [Hres Hfin].
  cbn zeta in Hres, Hfin. rewrite Hres, Hfin. clear Hres Hfin.
  apply getValidInput_Some in Hinput.
  destruct (first_round_state (set_playerCase (input - 1) g) Hall)
    as (HInv & Hround & Hhidden & _);
    [cbn [playerCase set_playerCase]; lia|].
  revert HInv Hround Hhidden.
  generalize (set_round 1 (final (shufflePrizes (set_playerCase (input - 1) g)))).
  intros gs HInv Hround Hhidden.
  pose proof (playRounds_counted casesToOpenPerRound entered' answers gs HInv)
    as Hpost.
  rewrite Hround, Hhidden in Hpost. specialize (Hpost ltac:(cbn; lia)).
  revert Hpost.
  generalize (result (playRounds casesToOpenPerRound entered' answers gs))
             (final (playRounds casesToOpenPerRound entered' answers gs)).
  intros res gf [HInvf Hpost].
  destruct res as [[|]| |]; try contradiction; [| |exact I].
  - exact Hpost.
  - destruct Hpost as (Hanswers & Hroundf & Hleft).
    rewrite finalReveal_run. cbn zeta.
    cbn [final round remainingPrizes finalWinning playerCase caseValues
         set_stats set_finalWinning].
    split; [exact Hanswers|]. split; [rewrite Hroundf; reflexivity|].
    split; [|reflexivity].
    change (scheduled casesToOpenPerRound) with 24%nat in Hleft. lia.
Qed.

(** The player keeps case 1, opens the cases 2 to 12 and takes the offer of
    the second round. *)
Lemma playGame_course_witness :
  let r := playGame [1; 2; 3; 4; 5; 6; 7; 8; 9; 10; 11; 12]%Z [false; true]
             (newGame [3; 1; 4]%nat [1; 5; 9]%nat GameStats_init) in
  match result r with
  | Value Deal =>
      exists k, (k < 9)%nat
        /\ firstn (S k) [false; true] = repeat false k ++ [true]
        /\ round (final r) = (1 + Z.of_nat k)%Z
        /\ (length (remainingPrizes (final r))
            + scheduled (firstn (S k) casesToOpenPerRound) = 26)%nat
        /\ finalWinning (final r) = calculateBankOffer (final r)
  | Value FinalReveal =>
      firstn 9 [false; true] = repeat false 9
      /\ round (final r) = 10%Z
      /\ length (remainingPrizes (final r)) = 2%nat
      /\ finalWinning (final r)
         = nth (Z.to_nat (playerCase (final r))) (caseValues (final r)) 0
  | Value (GameError _) | Thrown _ => False
  | Waiting => True
  end.
Proof.
  apply (playGame_course [1; 2; 3; 4; 5; 6; 7; 8; 9; 10; 11; 12]%Z
           [false; true] (newGame [3; 1; 4]%nat [1; 5; 9]%nat GameStats_init)).
  reflexivity.
Defined.

(** ** The answers of the human player *)

Lemma tolower_cases (c : ascii) :
  ((tolower c =? "y")%char = true /\ (c = "y"%char \/ c = "Y"%char))
  \/ ((tolower c =? "y")%char = false /\ (tolower c =? "n")%char = true
      /\ (c = "n"%char \/ c = "N"%char))
  \/ ((tolower c =? "y")%char = false /\ (tolower c =? "n")%char = false
      /\ c <> "y"%char /\ c <> "Y"%char /\ c <> "n"%char /\ c <> "N"%char).
Proof.
  destruct c as [[] [] [] [] [] [] [] []]; vm_compute;
    first [ left; split; [reflexivity|];
            first [left; reflexivity | right; reflexivity]
          | right; left; split; [reflexivity|]; split; [reflexivity|];
            first [left; reflexivity | right; reflexivity]
          | right; right; repeat split; intros H; discriminate H ].
Qed.

Lemma getYesNoInput_skip (input : string) (later : list string) :
  notAnAnswer input ->
  getYesNoInput (input :: later) = getYesNoInput later.
Proof.
  destruct input as [|first rest]; [reflexivity|].
  cbn [notAnAnswer getYesNoInput]. intros (Hy & HY & Hn & HN).
  destruct (tolower_cases first) as [[_ [H|H]]|[(_ & _ & [H|H])|(-> & -> & _)]];
    try contradiction.
  reflexivity.
Qed.

Lemma getYesNoInput_answer (first : ascii) (rest : string)
    (later : list string) :
  ~ notAnAnswer (String first rest) ->
  exists answer : bool,
    getYesNoInput (String first rest :: later) = Some (answer, later)
    /\ (answer = true <-> first = "y"%char \/ first = "Y"%char)
    /\ (answer = false <-> first = "n"%char \/ first = "N"%char).
Proof.
  intros Hanswer. cbn [getYesNoInput notAnAnswer] in *.
  destruct (tolower_cases first)
    as [[-> Hfirst]|[(-> & -> & Hfirst)|(_ & _ & Hnot)]].
  - exists true. split; [reflexivity|]. split; [tauto|].
    split; [discriminate|]. intros [-> | ->]; destruct Hfirst; discriminate.
  - exists false. split; [reflexivity|]. split; [|tauto].
    split; [discriminate|]. intros [-> | ->]; destruct Hfirst; discriminate.
  - contradiction.
Qed.

(** [getYesNoInput] decides on the first character of the first line typed
    that begins with [y], [Y], [n] or [N], after only empty lines and lines
    that begin otherwise; what follows the first character is not looked at.
    It waits for ever exactly when no line typed begins with one of the
    four. *)
Theorem getYesNoInput_first (lines : list string) :
  (getYesNoInput lines = None <-> Forall notAnAnswer lines)
  /\ (forall (skipped : list string) (first : ascii) (rest : string)
             (later : list string),
      lines = skipped ++ String first rest :: later ->
      Forall notAnAnswer skipped ->
      (first = "y"%char \/ first = "Y"%char ->
       getYesNoInput lines = Some (true, later))
      /\ (first = "n"%char \/ first = "N"%char ->
          getYesNoInput lines = Some (false, later))).
Proof.
  split.
  - induction lines as [|input lines IH]; [split; [constructor | reflexivity]|].
    destruct input as [|first rest].
    + rewrite getYesNoInput_skip by exact I. rewrite IH. split.
      * intros H. constructor; [exact I | assumption].
      * intros H. now inversion H.
    + assert (Hdec : notAnAnswer (String first rest)
                     \/ ~ notAnAnswer (String first rest)).
      { cbn [notAnAnswer].
        destruct (tolower_cases first)
          as [[_ [-> | ->]]|[(_ & _ & [-> | ->])|(_ & _ & Hnot)]];
          [right | right | right | right | left; exact Hnot];
          intros (Hy & HY & Hn & HN); congruence. }
      destruct Hdec as [Hskip|Hanswer].
      * rewrite getYesNoInput_skip by assumption. rewrite IH. split.
        -- intros H. now constructor.
        -- intros H. now inversion H.
      * destruct (getYesNoInput_answer first rest lines Hanswer)
          as (answer & -> & _).
        split; [discriminate|]. intros H. inversion H. contradiction.
  - intros skipped first rest later -> Hskipped.
    induction Hskipped as [|input skipped Hinput _ IH].
    + cbn [app].
      assert (Hanswer : first = "y"%char \/ first = "Y"%char
                        \/ first = "n"%char \/ first = "N"%char ->
                        ~ notAnAnswer (String first rest)).
      { cbn [notAnAnswer]. intros H (Hy & HY & Hn & HN).
        destruct H as [H|[H|[H|H]]]; contradiction. }
      split; intros Hfirst.
      * destruct (getYesNoInput_answer first rest later ltac:(tauto))
          as (answer & -> & Htrue & _).
        apply Htrue in Hfirst. now rewrite Hfirst.
      * destruct (getYesNoInput_answer first rest later ltac:(tauto))
          as (answer & -> & _ & Hfalse).
        apply Hfalse in Hfirst. now rewrite Hfirst.
    + cbn [app]. rewrite getYesNoInput_skip by assumption. exact IH.
Qed.

(** An empty line, then [maybe], then [Yes]: the answer is "yes". *)
Lemma getYesNoInput_first_witness :
  getYesNoInput [""; "maybe"; "Yes"; "no"]%string = Some (true, ["no"%string]).
Proof.
  refine (proj1 (proj2 (getYesNoInput_first [""; "maybe"; "Yes"; "no"]%string)
                  [""; "maybe"]%string "Y"%char "es"%string ["no"%string]
                  _ _) _).
  - reflexivity.
  - apply Forall_cons; [exact I|]. apply Forall_cons; [|apply Forall_nil].
    cbn [notAnAnswer]. repeat split; discriminate.
  - right. reflexivity.
Defined.

(** ** The statistics over a session of the menu *)

Lemma play_counted (player : Player) (seed aiSeed : Rng) (loaded : GameStats) :
  result (play player seed aiSeed loaded) <> Waiting ->
  (- 2 ^ 31 <= gamesPlayed loaded < 2 ^ 31 - 1)%Z ->
  gamesPlayed (stats (final (play player seed aiSeed loaded)))
  = (gamesPlayed loaded + 1)%Z.
Proof.
  intros Hends Hbound.
  pose proof (play_stats player seed aiSeed loaded) as Hstats.
  cbn zeta in Hstats. revert Hends Hstats.
  generalize (result (play player seed aiSeed loaded))
             (final (play player seed aiSeed loaded)).
  intros res g Hends Hstats.
  destruct res as [[| |]| |]; try contradiction;
    destruct Hstats as [Hwin ->];
    now apply (updateStats_counters _ loaded Hwin).
Qed.

Lemma play_waits (player : Player) (seed aiSeed : Rng) (loaded : GameStats) :
  result (play player seed aiSeed loaded) = Waiting ->
  exists entered answers, player = Human entered answers.
Proof.
  destruct player as [entered answers|]; [now exists entered, answers|].
  cbn [play]. intros Hwaits.
  destruct (computerPlay_ends (newGame seed aiSeed loaded) eq_refl) as [H|H];
    rewrite H in Hwaits; discriminate.
Qed.

Lemma choose_counts (reread : double -> double) (c : Choice) (m m' : Session) :
  c <> ResetStatistics -> choose reread c m = Some m' ->
  (isStartGame c = true ->
   (- 2 ^ 31 <= gamesPlayed (loadStats (file m) GameStats_init) < 2 ^ 31 - 1)%Z) ->
  gamesPlayed (stats (game m'))
  = (if isStartGame c
     then gamesPlayed (loadStats (file m) GameStats_init) + 1
     else gamesPlayed (stats (game m)))%Z
  /\ gamesPlayed (loadStats (file m') GameStats_init)
     = (if isStartGame c
        then gamesPlayed (stats (game m))
        else gamesPlayed (loadStats (file m) GameStats_init)).
Proof.
  intros Hc Hchoose Hbound. destruct c as [player seed aiSeed| | |];
    cbn [choose isStartGame] in *; try congruence.
  - specialize (Hbound eq_refl).
    pose proof (play_counted player seed aiSeed
                  (loadStats (file m) GameStats_init)) as Hcount.
    revert Hchoose Hcount.
    generalize (result (play player seed aiSeed
                          (loadStats (file m) GameStats_init)))
               (final (play player seed aiSeed
                         (loadStats (file m) GameStats_init))).
    intros res g Hchoose Hcount.
    assert (Hm' : res <> Waiting
                  /\ m' = mkSession g (Some (saveStats reread (stats (game m))))).
    { destruct res as [[| |]| |]; try discriminate;
        injection Hchoose as <-; split; (discriminate || reflexivity). }
    destruct Hm' as [Hends ->]. cbn [game file loadStats saveStats gamesPlayed
                                     filePlayed stats].
    split; [now apply Hcount | reflexivity].
  - injection Hchoose as <-. split; reflexivity.
  - injection Hchoose as <-. split; reflexivity.
Qed.

Lemma choose_waits (reread : double -> double) (c : Choice) (m : Session) :
  choose reread c m = None -> humanGame c.
Proof.
  destruct c as [player seed aiSeed| | |]; cbn [choose]; try discriminate.
  destruct (result (play player seed aiSeed (loadStats (file m) GameStats_init)))
    as [[| |]| |] eqn:E; try discriminate.
  intros _. apply play_waits in E as (entered & answers & ->).
  now exists entered, answers, seed, aiSeed.
Qed.

Lemma half_even (k : nat) :
  Nat.even k = true ->
  ((Z.of_nat (S k) + 1) / 2 = Z.of_nat k / 2 + 1
   /\ Z.of_nat (S k) / 2 = Z.of_nat k / 2
   /\ (Z.of_nat k + 1) / 2 = Z.of_nat k / 2)%Z.
Proof.
  intros E. apply Nat.even_spec in E as [j ->].
  repeat split; Z.div_mod_to_equations; lia.
Qed.

Lemma half_odd (k : nat) :
  Nat.even k = false ->
  ((Z.of_nat (S k) + 1) / 2 = (Z.of_nat k + 1) / 2
   /\ Z.of_nat (S k) / 2 = Z.of_nat k / 2 + 1
   /\ (Z.of_nat k + 1) / 2 = Z.of_nat k / 2 + 1)%Z.
Proof.
  intros E. assert (Hodd : Nat.odd k = true)
    by (unfold Nat.odd; now rewrite E).
  apply Nat.odd_spec in Hodd as [j ->].
  repeat split; Z.div_mod_to_equations; lia.
Qed.

(** The counter of the game object and the counter of the file, after the
    choices: each game takes the counter of the file, adds one, and leaves
    the counter of the game object before it in the file. *)
Lemma run_counts (reread : double -> double) (choices : list Choice) :
  forall m : Session,
  ~ In ResetStatistics choices ->
  let played := gamesPlayed (stats (game m)) in
  let saved := gamesPlayed (loadStats (file m) GameStats_init) in
  let n := gamesStarted choices in
  (- 2 ^ 31 <= played)%Z -> (- 2 ^ 31 <= saved)%Z ->
  ((if Nat.even n then played else saved) + (Z.of_nat n + 1) / 2 < 2 ^ 31)%Z ->
  ((if Nat.even n then saved else played) + Z.of_nat n / 2 < 2 ^ 31)%Z ->
  match run reread choices m with
  | Some m' =>
      gamesPlayed (stats (game m'))
      = ((if Nat.even n then played else saved) + (Z.of_nat n + 1) / 2)%Z
      /\ gamesPlayed (loadStats (file m') GameStats_init)
         = ((if Nat.even n then saved else played) + Z.of_nat n / 2)%Z
  | None => Exists humanGame choices
  end.
Proof.
  induction choices as [|c choices IH];
    intros m Hnoreset played saved n Hplayed Hsaved Hmost Hfile.
  - cbn [run]. subst n played saved.
    cbn [gamesStarted filter length Nat.even].
    change ((Z.of_nat 0 + 1) / 2)%Z with 0%Z.
    change (Z.of_nat 0 / 2)%Z with 0%Z. split; lia.
  - cbn [run].
    assert (Hc : c <> ResetStatistics) by (intros ->; apply Hnoreset; now left).
    assert (Hlater : ~ In ResetStatistics choices)
      by (intros H; apply Hnoreset; now right).
    assert (Hn : n = if isStartGame c
                     then S (gamesStarted choices) else gamesStarted choices).
    { subst n. unfold gamesStarted. cbn [filter].
      destruct (isStartGame c); reflexivity. }
    assert (Hhalf : (0 <= Z.of_nat (gamesStarted choices) / 2
                     /\ 0 <= (Z.of_nat (gamesStarted choices) + 1) / 2)%Z)
      by (split; apply Z.div_pos; lia).
    destruct (choose reread c m) as [m1|] eqn:Hchoose;
      [|apply Exists_cons_hd; exact (choose_waits reread c m Hchoose)].
    assert (Hroom : isStartGame c = true -> (- 2 ^ 31 <= saved < 2 ^ 31 - 1)%Z).
    { intros Hgame. rewrite Hgame in Hn. rewrite Hn in Hmost, Hfile.
      rewrite Nat.even_succ in Hmost, Hfile. unfold Nat.odd in Hmost, Hfile.
      destruct (Nat.even (gamesStarted choices)) eqn:E; cbn [negb] in *.
      - destruct (half_even _ E) as (H1 & H2 & H3). lia.
      - destruct (half_odd _ E) as (H1 & H2 & H3). lia. }
    destruct (choose_counts reread c m m1 Hc Hchoose Hroom) as [Hgame1 Hfile1].
    fold played saved in Hgame1, Hfile1.
    specialize (IH m1 Hlater). cbn zeta in IH.
    rewrite Hgame1, Hfile1 in IH. rewrite Hn in *.
    destruct (isStartGame c).
    + rewrite Nat.even_succ in *. unfold Nat.odd in *.
      destruct (Nat.even (gamesStarted choices)) eqn:E; cbn [negb] in *.
      * destruct (half_even _ E) as (H1 & H2 & H3).
        specialize (IH ltac:(lia) ltac:(lia) ltac:(lia) ltac:(lia)).
        destruct (run reread choices m1) as [m'|]; [|now apply Exists_cons_tl].
        destruct IH as [-> ->]. split; lia.
      * destruct (half_odd _ E) as (H1 & H2 & H3).
        specialize (IH ltac:(lia) ltac:(lia) ltac:(lia) ltac:(lia)).
        destruct (run reread choices m1) as [m'|]; [|now apply Exists_cons_tl].
        destruct IH as [-> ->]. split; lia.
    + specialize (IH Hplayed Hsaved Hmost Hfile).
      destruct (run reread choices m1) as [m'|]; [|now apply Exists_cons_tl].
      exact IH.
Qed.

Lemma Fresh_counts (reread : double -> double) (m : Session) :
  Fresh reread m ->
  gamesPlayed (loadStats (file m) GameStats_init)
  = gamesPlayed (stats (game m)).
Proof.
  intros [seed aiSeed file0|m0 m' Hreset]; [reflexivity|].
  cbn [choose] in Hreset. injection Hreset as <-. reflexivity.
Qed.

(** In a session of the menu, from its construction or from a reset of the
    statistics, only every other game is counted: each new game object
    loads the statistics file before the object of the game before it has
    saved its statistics.  After [n] games (and any number of choices 3 and
    5) the game object, and the file once the menu is left, count
    [(n + 1) / 2] games more than at the start; the file, before the menu
    is left, counts [n / 2] more.  The counter stays below [2^31].  The
    session goes on for ever only in a game of the human player. *)
Theorem session_counts_every_other_game (reread : double -> double)
    (choices : list Choice) (m : Session) :
  Fresh reread m ->
  ~ In ResetStatistics choices ->
  (- 2 ^ 31 <= gamesPlayed (stats (game m)))%Z ->
  (gamesPlayed (stats (game m)) + (Z.of_nat (gamesStarted choices) + 1) / 2
   < 2 ^ 31)%Z ->
  match run reread choices m with
  | Some m' =>
      let played := gamesPlayed (stats (game m)) in
      let n := Z.of_nat (gamesStarted choices) in
      gamesPlayed (stats (game m')) = (played + (n + 1) / 2)%Z
      /\ gamesPlayed (loadStats (file m') GameStats_init) = (played + n / 2)%Z
      /\ option_map filePlayed (leave reread m') = Some (played + (n + 1) / 2)%Z
  | None => Exists humanGame choices
  end.
Proof.
  intros Hfresh Hnoreset Hlow Hhigh.
  pose proof (run_counts reread choices m Hnoreset) as Hcounts.
  cbn zeta in Hcounts. rewrite (Fresh_counts reread m Hfresh) in Hcounts.
  assert (Hhalf : (Z.of_nat (gamesStarted choices) / 2
                   <= (Z.of_nat (gamesStarted choices) + 1) / 2)%Z)
    by (apply Z.div_le_mono; lia).
  assert (Hsame : forall (b : bool) (x : Z), (if b then x else x) = x)
    by (intros []; reflexivity).
  rewrite !Hsame in Hcounts.
  specialize (Hcounts Hlow Hlow Hhigh ltac:(lia)).
  destruct (run reread choices m) as [m'|]; [|exact Hcounts].
  cbn zeta. destruct Hcounts as [Hplayed Hsaved].
  split; [exact Hplayed|]. split; [exact Hsaved|].
  cbn [leave option_map saveStats filePlayed]. now rewrite Hplayed.
Qed.

(** Two games of the computer, the statistics shown between them, no
    statistics file at the start: one game is counted. *)
Lemma session_counts_every_other_game_witness :
  let choices := [StartGame Computer [3; 1; 4]%nat [1; 5; 9]%nat;
                  ViewStatistics;
                  StartGame Computer [2; 6; 5]%nat [3; 5; 8]%nat] in
  let m := GameMenu_construct [] [] None in
  match run (fun x => x) choices m with
  | Some m' =>
      let played := gamesPlayed (stats (game m)) in
      let n := Z.of_nat (gamesStarted choices) in
      gamesPlayed (stats (game m')) = (played + (n + 1) / 2)%Z
      /\ gamesPlayed (loadStats (file m') GameStats_init) = (played + n / 2)%Z
      /\ option_map filePlayed (leave (fun x => x) m')
         = Some (played + (n + 1) / 2)%Z
  | None => Exists humanGame choices
  end.
Proof.
  apply (session_counts_every_other_game (fun x => x)
           [StartGame Computer [3; 1; 4]%nat [1; 5; 9]%nat;
            ViewStatistics;
            StartGame Computer [2; 6; 5]%nat [3; 5; 8]%nat]
           (GameMenu_construct [] [] None)).
  - apply fresh_menu.
  - intros [H|[H|[H|[]]]]; discriminate H.
  - cbn. lia.
  - cbn. lia.
Defined.

(** ** The statistics file *)

Lemma fold_updateStats_played (winnings : list R) :
  forall s : GameStats,
  (- 2 ^ 31 <= gamesPlayed s)%Z ->
  (gamesPlayed s + Z.of_nat (length winnings) < 2 ^ 31)%Z ->
  gamesPlayed (fold_left (fun acc w => updateStats w acc) winnings s)
  = (gamesPlayed s + Z.of_nat (length winnings))%Z.
Proof.
  induction winnings as [|w winnings IH]; intros s Hlow Hhigh.
  - cbn [fold_left length]. lia.
  - cbn [fold_left length] in *.
    destruct (updateStats_fields w s) as (Hplayed & _).
    specialize (Hplayed ltac:(lia)).
    rewrite IH; rewrite Hplayed; lia.
Qed.

Lemma fold_updateStats_average (winnings : list R) (s : GameStats) :
  winnings <> [] ->
  let s' := fold_left (fun acc w => updateStats w acc) winnings s in
  averageWinning s' = totalWinnings s' / IZR (gamesPlayed s').
Proof.
  destruct winnings as [|w winnings] using rev_ind; [congruence|].
  intros _. cbn zeta. rewrite fold_left_app. cbn [fold_left].
  now destruct (updateStats_fields w
                  (fold_left (fun acc w0 => updateStats w0 acc) winnings s))
    as (_ & _ & _ & _ & ->).
Qed.

(** The statistics of fewer than [2^31] games, saved and loaded again, are
    the same statistics, provided that the two amounts are read back as
    they were: the counters are, and the average is computed anew. *)
Theorem loadStats_saveStats (reread : double -> double) (winnings : list R) :
  (Z.of_nat (length winnings) < 2 ^ 31)%Z ->
  let s := fold_left (fun acc w => updateStats w acc) winnings GameStats_init in
  reread (totalWinnings s) = totalWinnings s ->
  reread (bestWinning s) = bestWinning s ->
  loadStats (Some (saveStats reread s)) GameStats_init = s.
Proof.
  intros Hgames s Htotal Hbest.
  pose proof (fold_updateStats_played winnings GameStats_init) as Hplayed.
  fold s in Hplayed. cbn [gamesPlayed GameStats_init] in Hplayed.
  specialize (Hplayed ltac:(lia) ltac:(lia)).
  assert (Haverage : averageWinning s
                     = if (gamesPlayed s >? 0)%Z
                       then totalWinnings s / IZR (gamesPlayed s)
                       else 0).
  { destruct winnings as [|w winnings].
    - reflexivity.
    - destruct (Z.gtb_spec (gamesPlayed s) 0) as [_|Hle];
        [|cbn [length] in Hplayed; lia].
      apply (fold_updateStats_average (w :: winnings) GameStats_init).
      discriminate. }
  clearbody s. destruct s as [played won total best average].
  cbn [loadStats saveStats filePlayed fileWon fileTotal fileBest
       gamesPlayed gamesWon totalWinnings bestWinning averageWinning] in *.
  rewrite Htotal, Hbest, Haverage. reflexivity.
Qed.

Lemma loadStats_saveStats_witness :
  let s := fold_left (fun acc w => updateStats w acc) [100; 0.01]
             GameStats_init in
  loadStats (Some (saveStats (fun x => x) s)) GameStats_init = s.
Proof.
  apply (loadStats_saveStats (fun x => x) [100; 0.01]);
    [cbn; lia | reflexivity | reflexivity].
Defined.

(** ** The prizes displayed *)

Lemma filter_descending (keep : R -> bool) (l : list R) :
  StronglySorted Rge l -> StronglySorted Rge (filter keep l).
Proof.
  induction 1 as [|x l Hl IH Hx]; cbn [filter]; [constructor|].
  destruct (keep x); [|assumption].
  constructor; [assumption|].
  apply Forall_forall. intros y Hy. apply filter_In in Hy as [Hy _].
  rewrite Forall_forall in Hx. now apply Hx.
Qed.

Lemma descending_split (bound : R) (l : list R) :
  StronglySorted Rge l ->
  filter (fun x => Rgtb x bound) l ++ filter (fun x => Rleb x bound) l = l.
Proof.
  induction 1 as [|x l Hl IH Hx]; [reflexivity|]. cbn [filter].
  destruct (Rgtb x bound) eqn:Egt.
  - apply Rgtb_true_iff in Egt.
    assert (Ele : Rleb x bound = false) by (apply Rleb_false_iff; lra).
    rewrite Ele. cbn [app]. now rewrite IH.
  - apply Rgtb_false_iff in Egt.
    assert (Ele : Rleb x bound = true) by (now apply Rleb_true_iff).
    rewrite Ele.
    assert (Hlow : Forall (fun y => y <= bound) l).
    { eapply Forall_impl; [|exact Hx]. intros y Hy; simpl in Hy. lra. }
    assert (Hnone : filter (fun y => Rgtb y bound) l = []).
    { clear - Hlow. induction Hlow as [|y l Hy _ IH]; [reflexivity|].
      cbn [filter]. apply Rgtb_false_iff in Hy. now rewrite Hy. }
    assert (Hall : filter (fun y => Rleb y bound) l = l).
    { clear - Hlow. induction Hlow as [|y l Hy _ IH]; [reflexivity|].
      cbn [filter]. apply Rleb_true_iff in Hy. now rewrite Hy, IH. }
    now rewrite Hnone, Hall.
Qed.

(** In a game, [displayRemainingPrizes] shows every hidden prize once: the
    hidden-prize list is the line of the high prizes followed by the line
    of the low prizes read backwards.  The low prizes, at most 500, are
    shown from the smallest up; the high prizes, above 500, from the largest
    down. *)
Theorem displayRemainingPrizes_shows (g : Game) :
  Inv g ->
  let low := lowPrizes (remainingPrizes g) in
  let high := highPrizes (remainingPrizes g) in
  high ++ rev low = remainingPrizes g
  /\ StronglySorted Rle low /\ Forall (fun prize => prize <= 500) low
  /\ StronglySorted Rge high /\ Forall (fun prize => prize > 500) high.
Proof.
  intros HInv low high. subst low high. unfold lowPrizes, highPrizes.
  assert (Hsorted : StronglySorted Rge (remainingPrizes g))
    by (rewrite (inv_hidden g HInv); apply sort_reversed_descending).
  revert Hsorted. generalize (remainingPrizes g). intros r Hsorted.
  rewrite filter_rev. rewrite rev_involutive.
  split; [now apply descending_split|].
  split; [|split; [|split]].
  - pose proof (StronglySorted_rev Rge _
                  (filter_descending (fun prize => Rleb prize 500) r Hsorted))
      as H.
    induction H as [|y l Hl IH Hy]; constructor; auto.
    eapply Forall_impl; [|exact Hy]. intros z Hz; simpl in Hz. lra.
  - apply Forall_rev, Forall_forall. intros y Hy.
    apply filter_In in Hy as [_ Hy]. now apply Rleb_true_iff in Hy.
  - now apply filter_descending.
  - apply Forall_forall. intros y Hy.
    apply filter_In in Hy as [_ Hy]. now apply Rgtb_true_iff in Hy.
Qed.

Lemma displayRemainingPrizes_shows_witness :
  let g := game_in_catalogue_order 0 in
  let low := lowPrizes (remainingPrizes g) in
  let high := highPrizes (remainingPrizes g) in
  high ++ rev low = remainingPrizes g
  /\ StronglySorted Rle low /\ Forall (fun prize => prize <= 500) low
  /\ StronglySorted Rge high /\ Forall (fun prize => prize > 500) high.
Proof.
  apply (displayRemainingPrizes_shows (game_in_catalogue_order 0)).
  exact game_in_catalogue_order_Inv.
Defined.
